(** * cpptraj [Frame]: coordinate storage, mask/map transfer, arithmetic, RMSD

    A shallow embedding of [src/Frame.cpp].  Doubles are IEEE binary64
    values (Rocq's primitive floats), every operation rounded on its own and
    taken in the order the source writes it; [int] is a 32-bit two's
    complement integer carried in [Z]; raw [double*] buffers are lists of
    cells behind a pointer that may be null or dangling; and every method is
    a function from the frame(s) it touches to the new frame(s), the value
    returned and the messages sent to [mprinterr].  A method returns [None]
    exactly when the C++ code would leave defined behaviour (null or
    dangling dereference, access outside a buffer, negative allocation
    size).

    Frame.h, Constants.h, AtomMask.h, Atom.h, Vec3.h and Matrix_3x3.h are not
    part of the sources at hand: [SMALL] and the eigen-solver are parameters
    of the embedding, and the inline helpers of Frame.h that the RMSD
    routines call are modelled from the specification, each marked as such.

    The file has three parts: the embedding, the reference definitions the
    statements are written with, and the properties. *)

From Stdlib Require Import ZArith Floats.
From stdpp Require Import base tactics option list list_numbers strings.

Local Open Scope Z_scope.

(** ** Machine integers *)

Definition INT_MIN : Z := - 2 ^ 31.
Definition INT_MAX : Z := 2 ^ 31 - 1.

(** Two's complement reduction of an [int] result.  Signed overflow is
    undefined in C++; the embedding follows what the compiled code does. *)
Definition int_wrap (z : Z) : Z := (z + 2 ^ 31) `mod` 2 ^ 32 - 2 ^ 31.
Definition uint_wrap (z : Z) : Z := z `mod` 2 ^ 32.

Definition iadd (a b : Z) : Z := int_wrap (a + b).
Definition isub (a b : Z) : Z := int_wrap (a - b).
Definition imul (a b : Z) : Z := int_wrap (a * b).
(** C++ integer division truncates toward zero. *)
Definition idiv (a b : Z) : Z := int_wrap (a ÷ b).
Definition uadd (a b : Z) : Z := uint_wrap (a + b).
Definition umul (a b : Z) : Z := uint_wrap (a * b).

Definition in_int (z : Z) : Prop := INT_MIN <= z <= INT_MAX.

(** ** Doubles *)

Abbreviation double := float.

Definition dzero : double := 0%float.
Definition done_ : double := 1%float.

(** [(double)n] for an [int] [n]. *)
Definition double_of_int (n : Z) : double :=
  if n <? 0 then PrimFloat.opp (PrimFloat.of_uint63 (Uint63.of_Z (- n)))
  else PrimFloat.of_uint63 (Uint63.of_Z n).

Definition fabs (x : double) : double := PrimFloat.abs x.
Definition sqrt (x : double) : double := PrimFloat.sqrt x.

(** ** Raw buffers *)

(** A [double*] member: null, pointing to a live array, or still holding
    the address of an array that was [delete[]]d. *)
Inductive buffer : Type :=
  | NULL
  | Buf (cells : list double)
  | Dangling.

Definition is_null (p : buffer) : bool :=
  match p with NULL => true | _ => false end.

Definition rd (l : list double) (i : Z) : option double :=
  if 0 <=? i then l !! Z.to_nat i else None.

Definition wr (l : list double) (i : Z) (v : double) : option (list double) :=
  if (0 <=? i) && (i <? Z.of_nat (length l))
  then Some (<[Z.to_nat i := v]> l) else None.

Definition cells_of (p : buffer) : option (list double) :=
  match p with Buf l => Some l | _ => None end.

(** [memcpy(dst + doff, src + soff, 3 * sizeof(double))]. *)
Definition memcpy3 (dst : list double) (doff : Z) (src : list double) (soff : Z)
  : option (list double) :=
  a ← rd src soff;
  b ← rd src (soff + 1);
  c ← rd src (soff + 2);
  d1 ← wr dst doff a;
  d2 ← wr d1 (doff + 1) b;
  wr d2 (doff + 2) c.

(** [memcpy(dst, src, n * sizeof(double))] from the start of both arrays;
    the byte count is a [size_t], so a negative [n] is out of range. *)
Definition memcpy_prefix (dst src : list double) (n : Z) : option (list double) :=
  if (0 <=? n) && (n <=? Z.of_nat (length src)) && (n <=? Z.of_nat (length dst))
  then Some (take (Z.to_nat n) src ++ drop (Z.to_nat n) dst) else None.

(** [memset(dst, 0, n * sizeof(double))]. *)
Definition memset0 (dst : list double) (n : Z) : option (list double) :=
  if (0 <=? n) && (n <=? Z.of_nat (length dst))
  then Some (replicate (Z.to_nat n) dzero ++ drop (Z.to_nat n) dst) else None.

(** ** Loops *)

(** Left-to-right iteration of a body that may leave defined behaviour. *)
Fixpoint foldlM {A S : Type} (body : S -> A -> option S) (l : list A) (s : S)
  : option S :=
  match l with
  | [] => Some s
  | a :: l' => s' ← body s a; foldlM body l' s'
  end.

(** Indices visited by [for (int i = 0; i < n; ++i)]. *)
Definition upto (n : Z) : list Z := seqZ 0 n.

(** Indices visited by [for (int i = 0; i < n; i += 3)]. *)
Definition upto3 (n : Z) : list Z := (fun k => 3 * k) <$> seqZ 0 ((n + 2) `div` 3).

(** ** External collaborators *)

(** Modelled from the spec: class [AtomMask] (AtomMask.h is absent): an
    ordered collection of selected atom indices exposing its size and
    forward iteration. *)
Definition AtomMask := list Z.
Definition Nselected (m : AtomMask) : Z := Z.of_nat (length m).

(** Modelled from the spec: class [Atom] (Atom.h is absent): per-atom static
    data exposing at least a mass accessor. *)
Record Atom : Type := mkAtom { Mass : double }.

(** Modelled from the spec: class [Vec3] (Vec3.h is absent): a 3-vector of
    doubles, indexed 0..2. *)
Record Vec3 : Type := mkVec3 { vx : double; vy : double; vz : double }.

(** Modelled from the spec: class [Matrix_3x3] (Matrix_3x3.h is absent): a
    3x3 matrix of doubles, row-major, indexed 0..8. *)
Record Matrix_3x3 : Type := mkMatrix {
  m0 : double; m1 : double; m2 : double;
  m3 : double; m4 : double; m5 : double;
  m6 : double; m7 : double; m8 : double }.

(** ** The frame *)

Record Frame : Type := mkFrame {
  natom_ : Z;
  maxnatom_ : Z;
  ncoord_ : Z;
  box_ : list double;
  T_ : double;
  X_ : buffer;
  V_ : buffer;
  Mass_ : list double }.

Definition zero_box : list double := replicate 6 dzero.

Definition with_X (f : Frame) (x : buffer) : Frame :=
  mkFrame (natom_ f) (maxnatom_ f) (ncoord_ f) (box_ f) (T_ f) x (V_ f) (Mass_ f).
Definition with_V (f : Frame) (v : buffer) : Frame :=
  mkFrame (natom_ f) (maxnatom_ f) (ncoord_ f) (box_ f) (T_ f) (X_ f) v (Mass_ f).
Definition with_Mass (f : Frame) (m : list double) : Frame :=
  mkFrame (natom_ f) (maxnatom_ f) (ncoord_ f) (box_ f) (T_ f) (X_ f) (V_ f) m.
Definition with_counts (f : Frame) (n nc : Z) : Frame :=
  mkFrame n (maxnatom_ f) nc (box_ f) (T_ f) (X_ f) (V_ f) (Mass_ f).
Definition with_max (f : Frame) (mx : Z) : Frame :=
  mkFrame (natom_ f) mx (ncoord_ f) (box_ f) (T_ f) (X_ f) (V_ f) (Mass_ f).
Definition with_box (f : Frame) (b : list double) : Frame :=
  mkFrame (natom_ f) (maxnatom_ f) (ncoord_ f) b (T_ f) (X_ f) (V_ f) (Mass_ f).
Definition with_T (f : Frame) (t : double) : Frame :=
  mkFrame (natom_ f) (maxnatom_ f) (ncoord_ f) (box_ f) t (X_ f) (V_ f) (Mass_ f).

(** Messages sent to [mprinterr] by one call, oldest first. *)
Definition log := list string.

(** The data model's cached-count invariant. *)
Definition coord_inv (f : Frame) : Prop := ncoord_ f = natom_ f * 3.

(** [delete[] p] for a non-null [p]; freeing freed storage is undefined. *)
Definition delete_if_set (p : buffer) : option buffer :=
  match p with
  | NULL => Some NULL
  | Buf _ => Some Dangling
  | Dangling => None
  end.

(** [std::vector<double>::resize(n)] with an [int] argument: new cells are
    value-initialised; a negative count cannot be allocated. *)
Definition vec_resize (l : list double) (n : Z) : option (list double) :=
  if 0 <=? n then Some (resize (Z.to_nat n) dzero l) else None.

Definition vec_empty (l : list double) : bool :=
  match l with [] => true | _ => false end.

Section FrameModel.

(** [SMALL] of Constants.h (absent): the numerical threshold below which a
    divisor or a total weight counts as zero. *)
Variable SMALL : double.

(** The indeterminate contents of the cells handed out by [new double[n]]. *)
Variable indet : nat -> double.

Definition new_double (n : Z) : option (list double) :=
  if 0 <=? n then Some (indet <$> seq 0 (Z.to_nat n)) else None.

(** *** Construction *)

(** [Frame::Frame()] *)
Definition Frame_default : Frame :=
  mkFrame 0 0 0 zero_box dzero NULL NULL [].

(** [Frame::Frame(int natomIn)] *)
Definition Frame_of_natom (natomIn : Z) : option Frame :=
  let ncoord := imul natomIn 3 in
  x ← (if 0 <? ncoord then Buf <$> new_double ncoord else Some NULL);
  Some (mkFrame natomIn natomIn ncoord zero_box dzero x NULL []).

(** [Frame::Frame(std::vector<Atom> const& atoms)] *)
Definition Frame_of_atoms (atoms : list Atom) : option Frame :=
  let natom := int_wrap (Z.of_nat (length atoms)) in
  let ncoord := imul natom 3 in
  if 0 <? ncoord then
    x ← new_double ncoord;
    Some (mkFrame natom natom ncoord zero_box dzero (Buf x) NULL (Mass <$> atoms))
  else
    Some (mkFrame natom natom ncoord zero_box dzero NULL NULL []).

(** State of the gather loops of the masked-copy constructor: the new
    coordinate array, the new velocity array, the masses pushed so far and
    the offset of [newX] / [newV]. *)
Definition copy_XVM (frameIn : Frame)
    (st : list double * list double * list double * Z) (atom : Z)
  : option (list double * list double * list double * Z) :=
  let '(x, v, m, off) := st in
  let oldcrd := imul atom 3 in
  srcX ← cells_of (X_ frameIn);
  x' ← memcpy3 x off srcX oldcrd;
  srcV ← cells_of (V_ frameIn);
  v' ← memcpy3 v off srcV oldcrd;
  ma ← rd (Mass_ frameIn) atom;
  Some (x', v', m ++ [ma], off + 3).

Definition copy_XM (frameIn : Frame)
    (st : list double * list double * Z) (atom : Z)
  : option (list double * list double * Z) :=
  let '(x, m, off) := st in
  srcX ← cells_of (X_ frameIn);
  x' ← memcpy3 x off srcX (imul atom 3);
  ma ← rd (Mass_ frameIn) atom;
  Some (x', m ++ [ma], off + 3).

(** One step of [memcpy(newX, src + atom*3, COORDSIZE_); newX += 3]. *)
Definition copy_X (srcX : buffer) (st : buffer * Z) (atom : Z)
  : option (buffer * Z) :=
  let '(dst, off) := st in
  x ← cells_of dst;
  src ← cells_of srcX;
  x' ← memcpy3 x off src (imul atom 3);
  Some (Buf x', off + 3).

(** [Frame::Frame(Frame const& frameIn, AtomMask const& maskIn)] *)
Definition Frame_of_mask (frameIn : Frame) (maskIn : AtomMask) : option Frame :=
  let natom := Nselected maskIn in
  let ncoord := imul natom 3 in
  let mk x v m := mkFrame natom natom ncoord (box_ frameIn) (T_ frameIn) x v m in
  if 0 <? ncoord then
    newX ← new_double ncoord;
    if negb (vec_empty (Mass_ frameIn)) then
      if negb (is_null (V_ frameIn)) then
        newV ← new_double ncoord;
        '(x, v, m, _) ← foldlM (copy_XVM frameIn) maskIn (newX, newV, [], 0);
        Some (mk (Buf x) (Buf v) m)
      else
        '(x, m, _) ← foldlM (copy_XM frameIn) maskIn (newX, [], 0);
        Some (mk (Buf x) NULL m)
    else
      '(x, _) ← foldlM (copy_X (X_ frameIn)) maskIn (Buf newX, 0);
      Some (mk x NULL [])
  else Some (mk NULL NULL []).

(** Copy of one owned array by the copy constructor: allocate for
    [maxnatom], copy [natom] atoms. *)
Definition copy_buffer (p : buffer) (maxncoord natom : Z) : option buffer :=
  match p with
  | NULL => Some NULL
  | Buf src =>
      dst ← new_double maxncoord;
      Buf <$> memcpy_prefix dst src (natom * 3)
  | Dangling => None
  end.

(** [Frame::Frame(const Frame& rhs)] *)
Definition Frame_copy (rhs : Frame) : option Frame :=
  let maxncoord := imul (maxnatom_ rhs) 3 in
  x ← copy_buffer (X_ rhs) maxncoord (natom_ rhs);
  v ← copy_buffer (V_ rhs) maxncoord (natom_ rhs);
  Some (mkFrame (natom_ rhs) (maxnatom_ rhs) (ncoord_ rhs) (box_ rhs) (T_ rhs)
          x v (Mass_ rhs)).

(** [Frame::swap] *)
Definition swap (first second : Frame) : Frame * Frame := (second, first).

(** [Frame::operator=(Frame rhs)]: [rhs] is passed by value, so it is the
    copy constructor's result that is swapped into [*this]. *)
Definition operator_assign (this rhs : Frame) : option Frame :=
  tmp ← Frame_copy rhs;
  Some (fst (swap this tmp)).

(** *** Conversion from float arrays *)

(** The cells copied by [for (ix = 0; ix < f_ncoord; ++ix) X_[ix] = farray[ix]]. *)
Definition copy_cell (farray : list double) (x : list double) (ix : Z)
  : option (list double) :=
  v ← rd farray ix; wr x ix v.

(** [for (ib = 0; ib < numBoxCrd; ++ib) box_[ib] = farray[f_ncoord++]] *)
Definition copy_box (farray : list double) (f_ncoord : Z) (b : list double) (ib : Z)
  : option (list double) :=
  v ← rd farray (iadd f_ncoord ib); wr b ib v.

(** [Frame::SetFromCRD(CRDtype const& farray, int numBoxCrd)].  The
    single-precision cells of [farray] are carried as the doubles they
    convert to. *)
Definition SetFromCRD (this : Frame) (farray : list double) (numBoxCrd : Z)
  : option (Frame * log) :=
  let f_ncoord := isub (int_wrap (Z.of_nat (length farray))) numBoxCrd in
  if imul (maxnatom_ this) 3 <? f_ncoord then
    Some (this, ["Error: Float array size (%zu) > max #coords in frame (%i)"])
  else
    let ncoord := f_ncoord in
    let natom := idiv ncoord 3 in
    x ← (match upto f_ncoord with
         | [] => Some (X_ this)
         | ixs => x0 ← cells_of (X_ this); Buf <$> foldlM (copy_cell farray) ixs x0
         end);
    b ← foldlM (copy_box farray f_ncoord) (upto numBoxCrd) (box_ this);
    Some (mkFrame natom (maxnatom_ this) ncoord b (T_ this) x (V_ this) (Mass_ this), []).

Definition copy_crd_atom (farray : list double) (st : list double * Z) (atom : Z)
  : option (list double * Z) :=
  let '(x, ix) := st in
  let ia := imul atom 3 in
  a ← rd farray ia;
  x1 ← wr x ix a;
  b ← rd farray (iadd ia 1);
  x2 ← wr x1 (iadd ix 1) b;
  c ← rd farray (iadd ia 2);
  x3 ← wr x2 (iadd ix 2) c;
  Some (x3, iadd ix 3).

(** [Frame::SetFromCRD(CRDtype const& farray, int numBoxCrd, AtomMask const& mask)] *)
Definition SetFromCRD_mask (this : Frame) (farray : list double) (numBoxCrd : Z)
    (mask : AtomMask) : option (Frame * log) :=
  if maxnatom_ this <? Nselected mask then
    Some (this, ["Error: Selected # atoms in float array (%i) > max #atoms in frame (%i)"])
  else
    let natom := Nselected mask in
    let ncoord := imul natom 3 in
    x ← (match mask with
         | [] => Some (X_ this)
         | _ => x0 ← cells_of (X_ this);
                '(x, _) ← foldlM (copy_crd_atom farray) mask (x0, 0); Some (Buf x)
         end);
    let f_ncoord := isub (int_wrap (Z.of_nat (length farray))) numBoxCrd in
    b ← foldlM (copy_box farray f_ncoord) (upto numBoxCrd) (box_ this);
    Some (mkFrame natom (maxnatom_ this) ncoord b (T_ this) x (V_ this) (Mass_ this), []).

(** *** Appending atoms *)

(** [Frame::ReallocateX()] *)
Definition ReallocateX (this : Frame) : option Frame :=
  let maxnatom := iadd (maxnatom_ this) 500 in
  newX ← new_double (imul maxnatom 3);
  x ← match X_ this with
      | NULL => Some newX
      | Buf old => memcpy_prefix newX old (natom_ this * 3)
      | Dangling => None
      end;
  Some (with_X (with_max this maxnatom) (Buf x)).

(** The shared tail of [AddXYZ] and [AddVec3]. *)
Definition append_xyz (this : Frame) (src : list double) : option Frame :=
  this1 ← (if maxnatom_ this <=? natom_ this then ReallocateX this else Some this);
  x ← cells_of (X_ this1);
  x' ← memcpy3 x (ncoord_ this1) src 0;
  Some (with_counts (with_X this1 (Buf x'))
          (iadd (natom_ this1) 1) (iadd (ncoord_ this1) 3)).

(** [Frame::AddXYZ(const double* XYZin)] *)
Definition AddXYZ (this : Frame) (XYZin : buffer) : option Frame :=
  match XYZin with
  | NULL => Some this
  | Buf src => append_xyz this src
  | Dangling => None
  end.

(** [Frame::AddVec3(Vec3 const& vIn)] *)
Definition AddVec3 (this : Frame) (vIn : Vec3) : option Frame :=
  append_xyz this [vx vIn; vy vIn; vz vIn].

(** *** Memory allocation / reallocation *)

(** The block shared by the setup routines, entered with [natom_] and
    [ncoord_] already assigned: reallocate the coordinates when the new atom
    count exceeds the capacity.  The flag is [reallocate]. *)
Definition grow_X (this : Frame) : option (Frame * bool) :=
  if maxnatom_ this <? natom_ this then
    _ ← delete_if_set (X_ this);
    x ← new_double (ncoord_ this);
    Some (with_max (with_X this (Buf x)) (natom_ this), true)
  else Some (this, false).

(** [*(mass++) = value] over the values, from [Mass_.begin()]. *)
Definition store_mass (st : list double * Z) (v : double) : option (list double * Z) :=
  let '(m, i) := st in m' ← wr m i v; Some (m', i + 1).

Definition store_masses (masses vals : list double) : option (list double) :=
  fst <$> foldlM store_mass vals (masses, 0).

(** [if (reallocate || Mass_.empty()) Mass_.resize(maxnatom_)] *)
Definition resize_masses (this : Frame) (reallocate : bool) : option (list double) :=
  if reallocate || vec_empty (Mass_ this)
  then vec_resize (Mass_ this) (maxnatom_ this) else Some (Mass_ this).

(** [Frame::SetupFrame(int natomIn)] *)
Definition SetupFrame (this : Frame) (natomIn : Z) : option (Frame * Z) :=
  let this1 := with_counts this natomIn (imul natomIn 3) in
  '(this2, _) ← grow_X this1;
  v ← delete_if_set (V_ this2);
  Some (with_Mass (with_V this2 v) [], 0).

(** [Frame::SetupFrameM(std::vector<Atom> const& atoms)] *)
Definition SetupFrameM (this : Frame) (atoms : list Atom) : option (Frame * Z) :=
  let natom := int_wrap (Z.of_nat (length atoms)) in
  let this1 := with_counts this natom (imul natom 3) in
  '(this2, reallocate) ← grow_X this1;
  m ← resize_masses this2 reallocate;
  m' ← store_masses m (Mass <$> atoms);
  v ← delete_if_set (V_ this2);
  Some (with_Mass (with_V this2 v) m', 0).

(** [Frame::SetupFrameV(std::vector<Atom> const& atoms, bool hasVelocity)] *)
Definition SetupFrameV (this : Frame) (atoms : list Atom) (hasVelocity : bool)
  : option (Frame * Z) :=
  let natom := int_wrap (Z.of_nat (length atoms)) in
  let this1 := with_counts this natom (imul natom 3) in
  '(this2, reallocate) ← grow_X this1;
  v ← (if hasVelocity then
         if reallocate || is_null (V_ this2) then
           _ ← delete_if_set (V_ this2);
           v0 ← new_double (imul (maxnatom_ this2) 3);
           Buf <$> memset0 v0 (maxnatom_ this2 * 3)
         else Some (V_ this2)
       else delete_if_set (V_ this2));
  m ← resize_masses this2 reallocate;
  m' ← store_masses m (Mass <$> atoms);
  Some (with_Mass (with_V this2 v) m', 0).

(** [atoms[*atom].Mass()] *)
Definition atom_mass_at (atoms : list Atom) (atom : Z) : option double :=
  if 0 <=? atom then Mass <$> atoms !! Z.to_nat atom else None.

(** [Frame::SetupFrameFromMask(AtomMask const& maskIn, std::vector<Atom> const& atoms)] *)
Definition SetupFrameFromMask (this : Frame) (maskIn : AtomMask) (atoms : list Atom)
  : option (Frame * Z) :=
  let natom := Nselected maskIn in
  let this1 := with_counts this natom (imul natom 3) in
  '(this2, reallocate) ← grow_X this1;
  m ← resize_masses this2 reallocate;
  '(m', _) ← foldlM (fun '(m0, i) atom =>
                     v ← atom_mass_at atoms atom; store_mass (m0, i) v)
                  maskIn (m, 0);
  Some (with_Mass this2 m', 0).

(** *** Setting coordinates by mask *)

(** [newXptr = X_; for (atom in mask) { memcpy(newXptr, src + atom*3, ..); newXptr += 3; }] *)
Definition gather_X (dst src : buffer) (mask : AtomMask) : option buffer :=
  fst <$> foldlM (copy_X src) mask (dst, 0).

(** [Frame::SetCoordinatesByMask(const double* Xin, AtomMask const& maskIn)] *)
Definition SetCoordinatesByMask (this : Frame) (Xin : buffer) (maskIn : AtomMask)
  : option (Frame * log) :=
  if is_null Xin then
    Some (this, ["Internal Error: SetCoordinatesByMask called with NULL pointer."])
  else if maxnatom_ this <? Nselected maskIn then
    Some (this, ["Internal Error: SetCoordinatesByMask: Selected=%i, maxnatom = %i"])
  else
    let natom := Nselected maskIn in
    x ← gather_X (X_ this) Xin maskIn;
    Some (with_X (with_counts this natom (imul natom 3)) x, []).

(** [Frame::SetCoordinates(Frame const& frameIn, AtomMask const& maskIn)] *)
Definition SetCoordinates_mask (this frameIn : Frame) (maskIn : AtomMask)
  : option (Frame * log) :=
  if maxnatom_ this <? Nselected maskIn then
    Some (this, ["Error: SetCoordinates: Mask [%s] selected (%i) > max natom (%i)"])
  else
    let natom := Nselected maskIn in
    x ← gather_X (X_ this) (X_ frameIn) maskIn;
    Some (mkFrame natom (maxnatom_ this) (imul natom 3) (box_ frameIn) (T_ frameIn)
            x (V_ this) (Mass_ this), []).

(** [memcpy(dst, src, n * COORDSIZE_)] between two pointer members. *)
Definition memcpy_atoms (dst src : buffer) (natom : Z) : option buffer :=
  if natom =? 0 then Some dst
  else d ← cells_of dst; s ← cells_of src; Buf <$> memcpy_prefix d s (natom * 3).

(** [Frame::SetCoordinates(Frame const& frameIn)] *)
Definition SetCoordinates (this frameIn : Frame) : option (Frame * log) :=
  if maxnatom_ this <? natom_ frameIn then
    Some (this, ["Error: Frame::SetCoordinates: Input frame atoms (%i) > max natom (%i)"])
  else
    let natom := natom_ frameIn in
    x ← memcpy_atoms (X_ this) (X_ frameIn) natom;
    Some (with_X (with_counts this natom (imul natom 3)) x, []).

(** Loop state of [SetFrame]: [newXptr], [newVptr], the mass vector and
    the positions of the three write cursors. *)
Definition set_XVM (frameIn : Frame)
    (st : buffer * buffer * list double * Z * Z) (atom : Z)
  : option (buffer * buffer * list double * Z * Z) :=
  let '(dx, dv, m, off, mi) := st in
  let oldcrd := imul atom 3 in
  x ← cells_of dx;
  srcX ← cells_of (X_ frameIn);
  x' ← memcpy3 x off srcX oldcrd;
  v ← cells_of dv;
  srcV ← cells_of (V_ frameIn);
  v' ← memcpy3 v off srcV oldcrd;
  ma ← rd (Mass_ frameIn) atom;
  m' ← wr m mi ma;
  Some (Buf x', Buf v', m', off + 3, mi + 1).

Definition set_XM (frameIn : Frame)
    (st : buffer * list double * Z * Z) (atom : Z)
  : option (buffer * list double * Z * Z) :=
  let '(dx, m, off, mi) := st in
  x ← cells_of dx;
  srcX ← cells_of (X_ frameIn);
  x' ← memcpy3 x off srcX (imul atom 3);
  ma ← rd (Mass_ frameIn) atom;
  m' ← wr m mi ma;
  Some (Buf x', m', off + 3, mi + 1).

(** [Frame::SetFrame(Frame const& frameIn, AtomMask const& maskIn)] *)
Definition SetFrame (this frameIn : Frame) (maskIn : AtomMask) : option (Frame * log) :=
  if maxnatom_ this <? Nselected maskIn then
    Some (this, ["Error: SetFrame: Mask [%s] selected (%i) > max natom (%i)"])
  else
    let natom := Nselected maskIn in
    let mk x v m := mkFrame natom (maxnatom_ this) (imul natom 3)
                      (box_ frameIn) (T_ frameIn) x v m in
    if negb (is_null (V_ frameIn)) && negb (is_null (V_ this)) then
      '(x, v, m, _, _) ← foldlM (set_XVM frameIn) maskIn
                           (X_ this, V_ this, Mass_ this, 0, 0);
      Some (mk x v m, [])
    else
      '(x, m, _, _) ← foldlM (set_XM frameIn) maskIn (X_ this, Mass_ this, 0, 0);
      Some (mk x (V_ this) m, []).

(** [Frame::FrameCopy()] *)
Definition FrameCopy (this : Frame) : option Frame := Frame_copy this.

(** *** Setting coordinates through an atom map *)

(** [Frame::SetCoordinatesByMap(Frame const& tgtIn, std::vector<int> const& mapIn)] *)
Definition SetCoordinatesByMap (this tgtIn : Frame) (mapIn : list Z)
  : option (Frame * log) :=
  if maxnatom_ this <? natom_ tgtIn then
    Some (this, ["Error: SetCoordinatesByMap: # Input map frame atoms (%i) > max atoms (%i)"])
  else if negb (int_wrap (Z.of_nat (length mapIn)) =? natom_ tgtIn) then
    Some (this, ["Error: SetCoordinatesByMap: Input map size (%zu) != input frame natom (%i)"])
  else
    let natom := natom_ tgtIn in
    x ← gather_X (X_ this) (X_ tgtIn) mapIn;
    Some (with_X (with_counts this natom (imul natom 3)) x, []).

(** Loop body of [SetReferenceByMap]; the state is the array behind
    [newXptr], the offset of [newXptr] from [X_] and the offset of [refptr]
    from [refIn.X_]. *)
Definition ref_step (refX : buffer) (st : buffer * Z * Z) (refatom : Z)
  : option (buffer * Z * Z) :=
  let '(dst, off, roff) := st in
  if negb (refatom =? -1) then
    x ← cells_of dst;
    src ← cells_of refX;
    x' ← memcpy3 x off src roff;
    Some (Buf x', off + 3, roff + 3)
  else Some (dst, off, roff + 3).

(** [Frame::SetReferenceByMap(Frame const& refIn, std::vector<int> const& mapIn)] *)
Definition SetReferenceByMap (this refIn : Frame) (mapIn : list Z)
  : option (Frame * log) :=
  if maxnatom_ this <? natom_ refIn then
    Some (this, ["Error: SetReferenceByMap: # Input map frame atoms (%i) > max atoms (%i)"])
  else if negb (int_wrap (Z.of_nat (length mapIn)) =? natom_ refIn) then
    Some (this, ["Error: SetReferenceByMap: Input map size (%zu) != input frame natom (%i)"])
  else
    '(x, off, _) ← foldlM (ref_step (X_ refIn)) mapIn (X_ this, 0, 0);
    let ncoord := int_wrap off in
    Some (with_X (with_counts this (idiv ncoord 3) ncoord) x, []).

(** Loop body of [SetTargetByMap]; the state is the array behind
    [newXptr] and the offset of [newXptr] from [X_]. *)
Definition tgt_step (tgtX : buffer) (st : buffer * Z) (refatom : Z)
  : option (buffer * Z) :=
  if negb (refatom =? -1) then copy_X tgtX st refatom else Some st.

(** [Frame::SetTargetByMap(Frame const& tgtIn, std::vector<int> const& mapIn)] *)
Definition SetTargetByMap (this tgtIn : Frame) (mapIn : list Z)
  : option (Frame * log) :=
  if maxnatom_ this <? natom_ tgtIn then
    Some (this, ["Error: SetTargetByMap: # Input map frame atoms (%i) > max atoms (%i)"])
  else if negb (int_wrap (Z.of_nat (length mapIn)) =? natom_ tgtIn) then
    Some (this, ["Error: SetTargetByMap: Input map size (%zu) != input frame natom (%i)"])
  else
    '(x, off) ← foldlM (tgt_step (X_ tgtIn)) mapIn (X_ this, 0);
    let ncoord := int_wrap off in
    Some (with_X (with_counts this (idiv ncoord 3) ncoord) x, []).

(** *** Basic arithmetic *)

(** [Frame::ZeroCoords()] *)
Definition ZeroCoords (this : Frame) : option Frame :=
  if natom_ this =? 0 then Some this
  else x ← cells_of (X_ this); x' ← memset0 x (natom_ this * 3);
       Some (with_X this (Buf x')).

(** [X_[i] = X_[i] op rhs.X_[i]] *)
Definition cell_op (op : double -> double -> double) (rhsX : buffer)
    (dst : buffer) (i : Z) : option buffer :=
  x ← cells_of dst;
  r ← cells_of rhsX;
  a ← rd x i;
  b ← rd r i;
  Buf <$> wr x i (op a b).

Definition elementwise (op : double -> double -> double) (msg : string)
    (this rhs : Frame) : option (Frame * log) :=
  if negb (natom_ this =? natom_ rhs) then Some (this, [msg])
  else
    x ← foldlM (cell_op op (X_ rhs)) (upto (ncoord_ this)) (X_ this);
    Some (with_X this x, []).

(** [Frame::operator+=] *)
Definition operator_add_assign : Frame -> Frame -> option (Frame * log) :=
  elementwise PrimFloat.add "Error: Frame::operator+=: Frames have different natom.".

(** [Frame::operator-=] *)
Definition operator_sub_assign : Frame -> Frame -> option (Frame * log) :=
  elementwise PrimFloat.sub "Error: Frame::operator-=: Frames have different natom.".

(** [Frame::operator*=] *)
Definition operator_mul_assign : Frame -> Frame -> option (Frame * log) :=
  elementwise PrimFloat.mul "Error: Frame::operator*=: Frames have different natom.".

(** [Frame::operator*]: a copy of [*this] multiplied in place. *)
Definition operator_mul (this rhs : Frame) : option (Frame * log) :=
  tmp ← Frame_copy this; operator_mul_assign tmp rhs.

(** [X_[i] = dividend.X_[i] / divisor] *)
Definition div_from (dividendX : buffer) (divisor : double)
    (dst : buffer) (i : Z) : option buffer :=
  x ← cells_of dst;
  d ← cells_of dividendX;
  a ← rd d i;
  Buf <$> wr x i (a / divisor)%float.

(** [Frame::Divide(Frame const& dividend, double divisor)] *)
Definition Divide_frame (this dividend : Frame) (divisor : double)
  : option (Frame * Z * log) :=
  if (divisor <? SMALL)%float then
    Some (this, 1, ["Error: Frame::Divide(Frame,divisor): Detected divide by 0."])
  else if negb (natom_ this =? natom_ dividend) then
    Some (this, 1, ["Error: Frame::Divide: Frames have different natom."])
  else
    x ← foldlM (div_from (X_ dividend) divisor) (upto (ncoord_ this)) (X_ this);
    Some (with_X this x, 0, []).

(** [X_[i] /= divisor] *)
Definition div_cell (divisor : double) (dst : buffer) (i : Z) : option buffer :=
  x ← cells_of dst;
  a ← rd x i;
  Buf <$> wr x i (a / divisor)%float.

(** [Frame::Divide(double divisor)] *)
Definition Divide (this : Frame) (divisor : double) : option (Frame * log) :=
  if (divisor <? SMALL)%float then
    Some (this, ["Error: Frame::Divide(divisor): Detected divide by 0."])
  else
    x ← foldlM (div_cell divisor) (upto (ncoord_ this)) (X_ this);
    Some (with_X this x, []).

(** [X_[xi] += frameIn.X_[fi]] with [unsigned int] indices. *)
Definition add_cell (srcX : buffer) (dst : buffer) (xi fi : Z) : option buffer :=
  x ← cells_of dst;
  s ← cells_of srcX;
  a ← rd x xi;
  b ← rd s fi;
  Buf <$> wr x xi (a + b)%float.

Definition add_atom (srcX : buffer) (st : buffer * Z) (atom : Z) : option (buffer * Z) :=
  let '(dst, xidx) := st in
  let fidx := uint_wrap (imul atom 3) in
  d1 ← add_cell srcX dst xidx fidx;
  d2 ← add_cell srcX d1 (uadd xidx 1) (uadd fidx 1);
  d3 ← add_cell srcX d2 (uadd xidx 2) (uadd fidx 2);
  Some (d3, uadd xidx 3).

(** [Frame::AddByMask(Frame const& frameIn, AtomMask const& maskIn)] *)
Definition AddByMask (this frameIn : Frame) (maskIn : AtomMask) : option (Frame * log) :=
  if maxnatom_ this <? Nselected maskIn then
    Some (this, ["Error: AddByMask: Input mask #atoms (%i) > frame #atoms (%i)"])
  else
    '(x, _) ← foldlM (add_atom (X_ frameIn)) maskIn (X_ this, 0);
    Some (with_X this x, []).

(** [X_[i] *= s] *)
Definition scale_cell (s : double) (dst : buffer) (i : Z) : option buffer :=
  x ← cells_of dst;
  a ← rd x i;
  Buf <$> wr x i (a * s)%float.

Definition scale_atom (sx sy sz : double) (dst : buffer) (atom : Z) : option buffer :=
  let xidx := uint_wrap (imul atom 3) in
  d1 ← scale_cell sx dst xidx;
  d2 ← scale_cell sy d1 (uadd xidx 1);
  scale_cell sz d2 (uadd xidx 2).

(** [Frame::SCALE(AtomMask const& maskIn, double sx, double sy, double sz)] *)
Definition SCALE (this : Frame) (maskIn : AtomMask) (sx sy sz : double) : option Frame :=
  x ← foldlM (scale_atom sx sy sz) maskIn (X_ this);
  Some (with_X this x).

(** *** Translation and centres *)

(** Modelled from the spec: [Vec3::Zero()] (Vec3.h is absent) sets every
    component to zero. *)
Definition Vec3_zero : Vec3 := mkVec3 dzero dzero dzero.

(** Modelled from the spec: [Vec3::Neg()] (Vec3.h is absent) negates every
    component. *)
Definition Neg (v : Vec3) : Vec3 :=
  mkVec3 (- vx v)%float (- vy v)%float (- vz v)%float.

(** [Matrix_3x3 rot(0.0)] *)
Definition Matrix_zero : Matrix_3x3 :=
  mkMatrix dzero dzero dzero dzero dzero dzero dzero dzero dzero.

(** One atom of a translation: [X_[i] op= v0; X_[i+1] op= v1; X_[i+2] op= v2]. *)
Definition shift_atom (op : double -> double -> double) (v : Vec3)
    (dst : buffer) (i : Z) : option buffer :=
  x ← cells_of dst;
  a ← rd x i;
  x1 ← wr x i (op a (vx v));
  b ← rd x1 (i + 1);
  x2 ← wr x1 (i + 1) (op b (vy v));
  c ← rd x2 (i + 2);
  Buf <$> wr x2 (i + 2) (op c (vz v)).

(** Modelled from the spec: [Frame::Translate] (Frame.h is absent) adds a
    constant vector to every atom's coordinates. *)
Definition Translate (this : Frame) (v : Vec3) : option Frame :=
  x ← foldlM (shift_atom PrimFloat.add v) (upto3 (ncoord_ this)) (X_ this);
  Some (with_X this x).

(** Modelled from the spec: [Frame::NegTranslate] (Frame.h is absent)
    subtracts a constant vector from every atom's coordinates. *)
Definition NegTranslate (this : Frame) (v : Vec3) : option Frame :=
  x ← foldlM (shift_atom PrimFloat.sub v) (upto3 (ncoord_ this)) (X_ this);
  Some (with_X this x).

(** Accumulation of one atom's position, unweighted. *)
Definition geo_step (x : list double) (acc : Vec3) (i : Z) : option Vec3 :=
  a ← rd x i;
  b ← rd x (i + 1);
  c ← rd x (i + 2);
  Some (mkVec3 (vx acc + a)%float (vy acc + b)%float (vz acc + c)%float).

(** Accumulation of one atom's position weighted by its mass; the state
    also carries the running mass sum and the mass iterator. *)
Definition mass_step (x masses : list double) (st : double * Vec3 * Z) (i : Z)
  : option (double * Vec3 * Z) :=
  let '(total, acc, mi) := st in
  m ← rd masses mi;
  a ← rd x i;
  b ← rd x (i + 1);
  c ← rd x (i + 2);
  Some ((total + m)%float,
        mkVec3 (vx acc + a * m)%float (vy acc + b * m)%float (vz acc + c * m)%float,
        mi + 1).

Definition Vec3_div (v : Vec3) (d : double) : Vec3 :=
  mkVec3 (vx v / d)%float (vy v / d)%float (vz v / d)%float.

(** The indices of the coordinates of atoms [start .. stop-1]. *)
Definition atom_range3 (start stop : Z) : list Z :=
  (fun k => 3 * k) <$> seqZ start (stop - start).

(** Modelled from the spec: [Frame::VGeometricCenter(start, stop)] (Frame.h
    is absent): the unweighted average position of the atoms of an index
    range. *)
Definition VGeometricCenter (this : Frame) (start stop : Z) : option Vec3 :=
  match atom_range3 start stop with
  | [] => Some (Vec3_div Vec3_zero (double_of_int (stop - start)))
  | ixs =>
      x ← cells_of (X_ this);
      sum ← foldlM (geo_step x) ixs Vec3_zero;
      Some (Vec3_div sum (double_of_int (stop - start)))
  end.

(** Modelled from the spec: [Frame::VCenterOfMass(start, stop)] (Frame.h is
    absent): the mass-weighted average position of the atoms of an index
    range. *)
Definition VCenterOfMass (this : Frame) (start stop : Z) : option Vec3 :=
  match atom_range3 start stop with
  | [] => Some (Vec3_div Vec3_zero dzero)
  | ixs =>
      x ← cells_of (X_ this);
      '(total, sum, _) ← foldlM (mass_step x (Mass_ this)) ixs (dzero, Vec3_zero, start);
      Some (Vec3_div sum total)
  end.

(** [Frame::CenterReference(bool useMassIn)] *)
Definition CenterReference (this : Frame) (useMassIn : bool) : option (Frame * Vec3) :=
  center ← (if useMassIn then VCenterOfMass this 0 (natom_ this)
            else VGeometricCenter this 0 (natom_ this));
  this' ← NegTranslate this center;
  Some (this', center).

(** [Frame::ShiftToGeometricCenter()] *)
Definition ShiftToGeometricCenter (this : Frame) : option Frame :=
  frameCOM ← VGeometricCenter this 0 (natom_ this);
  NegTranslate this frameCOM.

(** *** Best-fit RMSD *)

(** [Matrix_3x3::TransposeMult] (Matrix_3x3.h is absent). *)
Variable TransposeMult : Matrix_3x3 -> Matrix_3x3 -> Matrix_3x3.

(** [Matrix_3x3::Diagonalize_Sort(Vec3&)] (Matrix_3x3.h is absent): the
    status returned (non-zero on failure), the matrix after the call (its
    rows are the eigenvectors) and the eigenvalues, sorted descending. *)
Variable Diagonalize_Sort : Matrix_3x3 -> Z * Matrix_3x3 * Vec3.

(** [static inline void normalize(double* vIn)] *)
Definition normalize (v : Vec3) : Vec3 :=
  let b := (1 / sqrt (vx v * vx v + vy v * vy v + vz v * vz v))%float in
  mkVec3 (vx v * b)%float (vy v * b)%float (vz v * b)%float.

(** The sums of the first loop of [RMSD_CenteredRef]: total weight and the
    accumulated (not yet divided) [Trans]. *)
Definition weight_sums (this : Frame) (useMassIn : bool) : option (double * Vec3) :=
  match upto3 (ncoord_ this) with
  | [] => Some (if useMassIn then dzero else double_of_int (natom_ this), Vec3_zero)
  | ixs =>
      x ← cells_of (X_ this);
      if useMassIn then
        '(total, sum, _) ← foldlM (mass_step x (Mass_ this)) ixs (dzero, Vec3_zero, 0);
        Some (total, sum)
      else
        sum ← foldlM (geo_step x) ixs Vec3_zero;
        Some (double_of_int (natom_ this), sum)
  end.

(** One atom of the covariance loop; the state is [mwss], [rot] and the
    mass iterator. *)
Definition cov_step (x r masses : list double) (useMassIn : bool)
    (st : double * Matrix_3x3 * Z) (i : Z) : option (double * Matrix_3x3 * Z) :=
  let '(mwss, rot, mi) := st in
  xt ← rd x i;
  yt ← rd x (i + 1);
  zt ← rd x (i + 2);
  xr ← rd r i;
  yr ← rd r (i + 1);
  zr ← rd r (i + 2);
  '(atom_mass, mi') ← (if useMassIn then m ← rd masses mi; Some (m, mi + 1)
                       else Some (done_, mi));
  Some ((mwss + atom_mass * (xt*xt + yt*yt + zt*zt + xr*xr + yr*yr + zr*zr))%float,
        mkMatrix
          (m0 rot + atom_mass*xt*xr)%float (m1 rot + atom_mass*xt*yr)%float
          (m2 rot + atom_mass*xt*zr)%float
          (m3 rot + atom_mass*yt*xr)%float (m4 rot + atom_mass*yt*yr)%float
          (m5 rot + atom_mass*yt*zr)%float
          (m6 rot + atom_mass*zt*xr)%float (m7 rot + atom_mass*zt*yr)%float
          (m8 rot + atom_mass*zt*zr)%float,
        mi').

(** [mwss] (before halving) and [rot] after the covariance loop. *)
Definition covariance (this Ref : Frame) (useMassIn : bool)
  : option (double * Matrix_3x3) :=
  match upto3 (ncoord_ this) with
  | [] => Some (dzero, Matrix_zero)
  | ixs =>
      x ← cells_of (X_ this);
      r ← cells_of (X_ Ref);
      '(mwss, rot, _) ← foldlM (cov_step x r (Mass_ this) useMassIn) ixs
                          (dzero, Matrix_zero, 0);
      Some (mwss, rot)
  end.

(** The third eigenvector replaced by [a1 x a2]. *)
Definition fix_third (E : Matrix_3x3) : Matrix_3x3 :=
  mkMatrix (m0 E) (m1 E) (m2 E) (m3 E) (m4 E) (m5 E)
    (m1 E * m5 E - m2 E * m4 E)%float
    (m2 E * m3 E - m0 E * m5 E)%float
    (m0 E * m4 E - m1 E * m3 E)%float.

(** [b = R . ak] for the three rows of [E], each normalised. *)
Definition b_rows (E rot : Matrix_3x3) : Vec3 * Vec3 * Vec3 :=
  (normalize (mkVec3 (m0 E * m0 rot + m1 E * m3 rot + m2 E * m6 rot)%float
                     (m0 E * m1 rot + m1 E * m4 rot + m2 E * m7 rot)%float
                     (m0 E * m2 rot + m1 E * m5 rot + m2 E * m8 rot)%float),
   normalize (mkVec3 (m3 E * m0 rot + m4 E * m3 rot + m5 E * m6 rot)%float
                     (m3 E * m1 rot + m4 E * m4 rot + m5 E * m7 rot)%float
                     (m3 E * m2 rot + m4 E * m5 rot + m5 E * m8 rot)%float),
   normalize (mkVec3 (m6 E * m0 rot + m7 E * m3 rot + m8 E * m6 rot)%float
                     (m6 E * m1 rot + m7 E * m4 rot + m8 E * m7 rot)%float
                     (m6 E * m2 rot + m7 E * m5 rot + m8 E * m8 rot)%float)).

(** [cp = b1 x b2] *)
Definition cross (a b : Vec3) : Vec3 :=
  mkVec3 (vy a * vz b - vz a * vy b)%float
         (vz a * vx b - vx a * vz b)%float
         (vx a * vy b - vy a * vx b)%float.

Definition chirality (cp b3 : Vec3) : double :=
  if (vx cp * vx b3 + vy cp * vy b3 + vz cp * vz b3 <? 0)%float
  then (-1)%float else 1%float.

(** The rotation assembled from the eigenvectors and the b-vectors. *)
Definition best_rotation (E : Matrix_3x3) (b1 b2 b3 : Vec3) : Matrix_3x3 :=
  mkMatrix
    (m0 E * vx b1 + m3 E * vx b2 + m6 E * vx b3)%float
    (m1 E * vx b1 + m4 E * vx b2 + m7 E * vx b3)%float
    (m2 E * vx b1 + m5 E * vx b2 + m8 E * vx b3)%float
    (m0 E * vy b1 + m3 E * vy b2 + m6 E * vy b3)%float
    (m1 E * vy b1 + m4 E * vy b2 + m7 E * vy b3)%float
    (m2 E * vy b1 + m5 E * vy b2 + m8 E * vy b3)%float
    (m0 E * vz b1 + m3 E * vz b2 + m6 E * vz b3)%float
    (m1 E * vz b1 + m4 E * vz b2 + m7 E * vz b3)%float
    (m2 E * vz b1 + m5 E * vz b2 + m8 E * vz b3)%float.

(** What one call of [RMSD_CenteredRef] leaves behind. *)
Record fit_result : Type := mkFit {
  fit_this : Frame;
  fit_U : Matrix_3x3;
  fit_Trans : Vec3;
  fit_rmsd : double;
  fit_log : log }.

(** [Frame::RMSD_CenteredRef(Frame const& Ref, Matrix_3x3& U, Vec3& Trans, bool useMassIn)] *)
Definition RMSD_CenteredRef (this Ref : Frame) (U : Matrix_3x3) (Trans : Vec3)
    (useMassIn : bool) : option fit_result :=
  '(total_mass, Trans) ← weight_sums this useMassIn;
  if (total_mass <? SMALL)%float then
    Some (mkFit this U Trans (-1)%float ["Error: Frame::RMSD: Divide by zero."])
  else
    let Trans := Vec3_div Trans total_mass in
    let Trans := Neg Trans in
    this ← Translate this Trans;
    '(mwss, rot) ← covariance this Ref useMassIn;
    let mwss := (mwss * 0.5)%float in
    let Evector := TransposeMult rot rot in
    let '(status, Evector, Eigenvalue) := Diagonalize_Sort Evector in
    if negb (status =? 0) then Some (mkFit this U Trans 0%float [])
    else
      let Evector := fix_third Evector in
      let '(b1, b2, b3) := b_rows Evector rot in
      let cp := cross b1 b2 in
      let sig3 := chirality cp b3 in
      let U := best_rotation Evector b1 b2 cp in
      let rms_return := (mwss - sqrt (fabs (vx Eigenvalue))
                              - sqrt (fabs (vy Eigenvalue))
                              - sig3 * sqrt (fabs (vz Eigenvalue)))%float in
      let rms_return := if (rms_return <? 0)%float then 0%float
                        else sqrt (2.0 * rms_return / total_mass)%float in
      Some (mkFit this U Trans rms_return []).

(** What one call of the five-argument [RMSD] leaves behind. *)
Record rmsd_result : Type := mkRmsd {
  rmsd_fit : fit_result;
  rmsd_Ref : Frame;
  rmsd_refTrans : Vec3 }.

(** [Frame::RMSD(Frame& Ref, Matrix_3x3& U, Vec3& Trans, Vec3& refTrans, bool useMassIn)] *)
Definition RMSD (this Ref : Frame) (U : Matrix_3x3) (Trans refTrans : Vec3)
    (useMassIn : bool) : option rmsd_result :=
  refTrans ← (if useMassIn then VCenterOfMass Ref 0 (natom_ this)
              else VGeometricCenter Ref 0 (natom_ this));
  Ref ← NegTranslate Ref refTrans;
  r ← RMSD_CenteredRef this Ref U Trans useMassIn;
  Some (mkRmsd r Ref refTrans).

(** [Frame::RMSD_CenteredRef(Frame const& Ref, bool useMassIn)]: the
    rotation and translation are locals that are dropped on return. *)
Definition RMSD_CenteredRef_value (this Ref : Frame) (useMassIn : bool)
  : option (Frame * double * log) :=
  r ← RMSD_CenteredRef this Ref Matrix_zero Vec3_zero useMassIn;
  Some (fit_this r, fit_rmsd r, fit_log r).

(** [Frame::RMSD(Frame& Ref, bool useMassIn)] *)
Definition RMSD_value (this Ref : Frame) (useMassIn : bool)
  : option (Frame * Frame * double * log) :=
  r ← RMSD this Ref Matrix_zero Vec3_zero Vec3_zero useMassIn;
  Some (fit_this (rmsd_fit r), rmsd_Ref r, fit_rmsd (rmsd_fit r), fit_log (rmsd_fit r)).

(** One atom of the no-fit loop; the state is [rms_return], [total_mass]
    and the mass iterator. *)
Definition nofit_step (x r masses : list double) (useMass : bool)
    (st : double * double * Z) (i : Z) : option (double * double * Z) :=
  let '(rms_return, total_mass, mi) := st in
  rx ← rd r i; tx ← rd x i;
  ry ← rd r (i + 1); ty ← rd x (i + 1);
  rz ← rd r (i + 2); tz ← rd x (i + 2);
  let xx := (rx - tx)%float in
  let yy := (ry - ty)%float in
  let zz := (rz - tz)%float in
  '(atom_mass, mi') ← (if useMass then m ← rd masses mi; Some (m, mi + 1)
                       else Some (done_, mi));
  Some ((rms_return + atom_mass * (xx*xx + yy*yy + zz*zz))%float,
        (total_mass + atom_mass)%float, mi').

(** [Frame::RMSD_NoFit(Frame const& Ref, bool useMass)] *)
Definition RMSD_NoFit (this Ref : Frame) (useMass : bool) : option (double * log) :=
  '(rms_return, total_mass) ←
     match upto3 (ncoord_ this) with
     | [] => Some (dzero, dzero)
     | ixs =>
         x ← cells_of (X_ this);
         r ← cells_of (X_ Ref);
         '(a, b, _) ← foldlM (nofit_step x r (Mass_ this) useMass) ixs (dzero, dzero, 0);
         Some (a, b)
     end;
  if (total_mass <? SMALL)%float then
    Some ((-1)%float, ["Error: no-fit RMSD: Divide by zero."])
  else if (rms_return <? 0)%float then Some (0%float, [])
  else Some (sqrt (rms_return / total_mass)%float, []).

(** *** Distance RMSD *)

(** [sqrt(x*x + y*y + z*z)] for the difference of the atoms stored at
    offsets [a1] and [a2] of one array. *)
Definition atom_dist (x : list double) (a1 a2 : Z) : option double :=
  x1 ← rd x a1; x2 ← rd x a2;
  let dx := (x1 - x2)%float in
  y1 ← rd x (iadd a1 1); y2 ← rd x (iadd a2 1);
  let dy := (y1 - y2)%float in
  z1 ← rd x (iadd a1 2); z2 ← rd x (iadd a2 2);
  let dz := (z1 - z2)%float in
  Some (sqrt (dx * dx + dy * dy + dz * dz)%float).

(** Body of the inner loop of [DISTRMSD]; the state is [rms_return] and
    [a20]. *)
Definition distrmsd_inner (x r : list double) (a10 : Z) (st : double * Z) (atom2 : Z)
  : option (double * Z) :=
  let '(rms_return, a20) := st in
  TgtDist ← atom_dist x a10 a20;
  RefDist ← atom_dist r a10 a20;
  let diff := (TgtDist - RefDist)%float in
  let diff := (diff * diff)%float in
  Some ((rms_return + diff)%float, iadd a20 3).

(** Body of the outer loop; the state is [rms_return] and [a10]. *)
Definition distrmsd_outer (x r : buffer) (natom : Z) (st : double * Z) (atom1 : Z)
  : option (double * Z) :=
  let '(rms_return, a10) := st in
  let a20 := iadd a10 3 in
  '(rms_return, _) ←
     match seqZ (iadd atom1 1) (natom - iadd atom1 1) with
     | [] => Some (rms_return, a20)
     | atoms2 =>
         xs ← cells_of x;
         rs ← cells_of r;
         foldlM (distrmsd_inner xs rs a10) atoms2 (rms_return, a20)
     end;
  Some (rms_return, iadd a10 3).

(** [((natom_ * natom_) - natom_) / 2], the number of atom pairs, in [int]
    arithmetic. *)
Definition pair_count (natom : Z) : Z := idiv (isub (imul natom natom) natom) 2.

(** [Frame::DISTRMSD(Frame const& Ref)] *)
Definition DISTRMSD (this Ref : Frame) : option double :=
  let natom := natom_ this in
  let Ndistances := double_of_int (pair_count natom) in
  '(rms_return, _) ← foldlM (distrmsd_outer (X_ this) (X_ Ref) natom)
                       (upto (isub natom 1)) (dzero, 0);
  let TgtDist := (rms_return / Ndistances)%float in
  Some (sqrt TgtDist).

End FrameModel.

(** ** Destruction, returned copies and conversion to float arrays *)

(** [Frame::~Frame()] *)
Definition Frame_destructor (this : Frame) : option unit :=
  _ ← delete_if_set (X_ this);
  _ ← delete_if_set (V_ this);
  Some tt.

(** The value [Frame::operator*] hands to its caller: [operator*=] returns
    a reference to the temporary copy of [*this], so the returned frame is
    copy-constructed from it, after which the temporary is destroyed. *)
Definition operator_mul_result (indet : nat -> double) (this rhs : Frame)
  : option (Frame * log) :=
  '(tmp, l) ← operator_mul indet this rhs;
  r ← Frame_copy indet tmp;
  _ ← Frame_destructor tmp;
  Some (r, l).

(** [(float)x]: the value narrowed to IEEE binary32, rounded to nearest
    with ties to even, and carried as the double it converts back to.  A
    magnitude beyond the single-precision range becomes an infinity, as
    IEC 60559 arithmetic has it. *)
Definition float_of_double (x : double) : double :=
  match Prim2SF x with
  | S754_finite s m e => SF2Prim (SpecFloat.binary_round 24 128 s m e)
  | _ => x
  end.

(** [farray.push_back((float)src[i])] *)
Definition push_cell (src : list double) (fa : list double) (i : Z)
  : option (list double) :=
  v ← rd src i; Some (fa ++ [float_of_double v]).

(** [Frame::ConvertToCRD(int numBoxCrd)].  [farray.reserve] takes a
    [size_t]: a negative sum asks for more than a vector can hold and the
    call does not return. *)
Definition ConvertToCRD (this : Frame) (numBoxCrd : Z) : option (list double) :=
  if iadd (ncoord_ this) numBoxCrd <? 0 then None
  else
    fa ← (match upto (ncoord_ this) with
          | [] => Some []
          | ixs => x ← cells_of (X_ this); foldlM (push_cell x) ixs []
          end);
    foldlM (push_cell (box_ this)) (upto numBoxCrd) fa.

(** ** A caller: [Analysis_CrdFluct::CalcBfactors] *)

(** [Analysis_CrdFluct::CalcBfactors], up to the loop that fills the data
    set: both sums are passed by value, so the calls work on copies; each is
    divided by the number of sets, the mean is squared in place and
    subtracted from the mean of the squares.  [SumCoords *= SumCoords] reads
    and writes the same array; cell [i] is read before it is written and no
    other cell is touched in that step, so the right operand can be taken
    from the frame as it was before the call. *)
Definition CalcBfactors_moments (SMALL : double) (indet : nat -> double)
    (SumCoords SumCoords2 : Frame) (Nsets : double) : option (Frame * log) :=
  s ← Frame_copy indet SumCoords;
  s2 ← Frame_copy indet SumCoords2;
  '(s, l1) ← Divide SMALL s Nsets;
  '(s2, l2) ← Divide SMALL s2 Nsets;
  '(s, l3) ← operator_mul_assign s s;
  '(s2, l4) ← operator_sub_assign s2 s;
  Some (s2, l1 ++ l2 ++ l3 ++ l4).

(** ** Atom look-ups of [AmberParm] *)

(** The members of [AmberParm] the atom look-ups read: [resnums] holds the
    first atom of each of the [nres] residues and one closing entry,
    [names] the atom names, [atomsPerMol] the size of each of the
    [molecules] molecules.  An array that was never allocated has no
    cells. *)
Record AmberParm : Type := mkAmberParm {
  nres : Z;
  resnums : list Z;
  names : list string;
  molecules : Z;
  atomsPerMol : list Z }.

(** [a[i]] for an [int] array. *)
Definition rdi (l : list Z) (i : Z) : option Z :=
  if 0 <=? i then l !! Z.to_nat i else None.

(** The loop of [atomToResidue] over the residues [idx] still to visit;
    [&&] reads [resnums[i+1]] only when the first test holds. *)
Fixpoint residue_scan (rs : list Z) (atom : Z) (idx : list Z) : option Z :=
  match idx with
  | [] => Some (-1)
  | i :: idx' =>
      lo ← rdi rs i;
      if lo <=? atom then
        hi ← rdi rs (iadd i 1);
        if atom <? hi then Some i else residue_scan rs atom idx'
      else residue_scan rs atom idx'
  end.

(** [AmberParm::atomToResidue(int atom)] *)
Definition atomToResidue (p : AmberParm) (atom : Z) : option Z :=
  residue_scan (resnums p) atom (upto (nres p)).

(** [names[a]] *)
Definition name_at (ns : list string) (a : Z) : option string :=
  if 0 <=? a then ns !! Z.to_nat a else None.

(** The loop of [FindAtomInResidue] over the atoms [ats] still to visit;
    [strcmp(..) == 0] is equality of the two names. *)
Fixpoint name_scan (ns : list string) (atname : string) (ats : list Z) : option Z :=
  match ats with
  | [] => Some (-1)
  | a :: ats' =>
      n ← name_at ns a;
      if String.eqb n atname then Some a else name_scan ns atname ats'
  end.

(** [AmberParm::FindAtomInResidue(int res, char* atname)] *)
Definition FindAtomInResidue (p : AmberParm) (res : Z) (atname : string) : option Z :=
  if (res <? 0) || (nres p <=? res) then Some (-1)
  else
    lo ← rdi (resnums p) res;
    hi ← rdi (resnums p) (iadd res 1);
    name_scan (names p) atname (seqZ lo (hi - lo)).

(** The loop of [atomToMolecule]; [a] is the running atom count. *)
Fixpoint molecule_scan (apm : list Z) (atom a : Z) (idx : list Z) : option Z :=
  match idx with
  | [] => Some (-1)
  | i :: idx' =>
      n ← rdi apm i;
      let a' := iadd a n in
      if atom <? a' then Some i else molecule_scan apm atom a' idx'
  end.

(** [AmberParm::atomToMolecule(int atom)] *)
Definition atomToMolecule (p : AmberParm) (atom : Z) : option Z :=
  molecule_scan (atomsPerMol p) atom 0 (upto (molecules p)).

(** * Reference definitions *)

(** The three cells of atom [a] in a coordinate array. *)
Definition atom_cells (s : list double) (a : Z) : list double :=
  take 3 (drop (Z.to_nat (3 * a)) s).

(** Atom index [a] lies inside an array of [s] cells. *)
Definition atom_in (s : list double) (a : Z) : Prop :=
  0 <= a /\ 3 * a + 3 <= Z.of_nat (length s).

(** The cells of the selected atoms, in selection order. *)
Definition gather (s : list double) (mask : list Z) : list double :=
  mask ≫= atom_cells s.

(** [!Mass_.empty()] and [V_ != NULL]. *)
Definition has_masses (f : Frame) : bool := negb (vec_empty (Mass_ f)).
Definition has_velocities (f : Frame) : bool := negb (is_null (V_ f)).

(** The masses of the selected atoms, in mask order. *)
Definition select_masses (ms : list double) (mask : AtomMask) : list double :=
  omap (rd ms) mask.

(** Atom index [a] has a mass in [ms]. *)
Definition mass_in (ms : list double) (a : Z) : Prop :=
  0 <= a < Z.of_nat (length ms).

(** The frame the masked-copy constructor builds from [F], whose
    coordinate array is [xs], for the atoms of [M]. *)
Definition masked_copy (F : Frame) (xs : list double) (M : AtomMask) : Frame :=
  let n := Nselected M in
  match M with
  | [] => mkFrame n n (3 * n) (box_ F) (T_ F) NULL NULL []
  | _ :: _ =>
      mkFrame n n (3 * n) (box_ F) (T_ F) (Buf (gather xs M))
        (match Mass_ F, V_ F with
         | _ :: _, Buf vs => Buf (gather vs M)
         | _, _ => NULL
         end)
        (select_masses (Mass_ F) M)
  end.

(** What the constructor needs of the source's velocity array. *)
Definition velocities_readable (F : Frame) (M : AtomMask) : Prop :=
  match V_ F with
  | NULL => True
  | Buf vs => Forall (atom_in vs) M
  | Dangling => Mass_ F = []
  end.

(** The positions, counted from [k], of the map entries that are not -1. *)
Fixpoint positions_from (k : Z) (mapIn : list Z) : list Z :=
  match mapIn with
  | [] => []
  | m :: t => if m =? -1 then positions_from (k + 1) t
              else k :: positions_from (k + 1) t
  end.

(** The map entries that are not -1, in map order. *)
Definition mapped (mapIn : list Z) : list Z := filter (fun m => m <> -1) mapIn.

(** A map entry is either the "unmapped" marker or an atom of the array. *)
Definition entry_ok (s : list double) (m : Z) : Prop := m = -1 \/ atom_in s m.

(** The cells of a list of atom positions. *)
Definition coords (atoms : list Vec3) : list double :=
  atoms ≫= (fun v => [vx v; vy v; vz v]).

(** Atom [k] of the array [x] is at position [v]. *)
Definition atom_at (x : list double) (k : Z) (v : Vec3) : Prop :=
  rd x (3 * k) = Some (vx v) /\ rd x (3 * k + 1) = Some (vy v) /\
  rd x (3 * k + 2) = Some (vz v).

(** The atoms of [x] from index [k] on are those of [l]. *)
Definition atoms_at (x : list double) (k : Z) (l : list Vec3) : Prop :=
  forall (i : nat) (v : Vec3), l !! i = Some v -> atom_at x (k + Z.of_nat i) v.

(** Euclidean distance of two positions, with the source's operation
    order. *)
Definition dist (a b : Vec3) : double :=
  let dx := (vx a - vx b)%float in
  let dy := (vy a - vy b)%float in
  let dz := (vz a - vz b)%float in
  sqrt (dx * dx + dy * dy + dz * dz)%float.

(** Squared difference of one pairwise distance between target and
    reference. *)
Definition sq_dist_diff (t1 r1 : Vec3) (p : Vec3 * Vec3) : double :=
  let diff := (dist t1 p.1 - dist r1 p.2)%float in (diff * diff)%float.

(** Sum over all pairs [i < j], in lexicographic order, of the squared
    difference of the target's and the reference's distance [i]-[j]. *)
Fixpoint pair_sum (tgt ref : list Vec3) (acc : double) : double :=
  match tgt, ref with
  | t :: tgt', r :: ref' =>
      pair_sum tgt' ref'
        (fold_left (fun s p => (s + sq_dist_diff t r p)%float) (zip tgt' ref') acc)
  | _, _ => acc
  end.

(** The cells of [x] from index [k] on are those of [l]. *)
Definition cells_at (x : list double) (k : Z) (l : list double) : Prop :=
  forall (i : nat) (v : double), l !! i = Some v -> rd x (k + Z.of_nat i) = Some v.

(** Accumulation of a position. *)
Definition vadd (a b : Vec3) : Vec3 :=
  mkVec3 (vx a + vx b)%float (vy a + vy b)%float (vz a + vz b)%float.

(** Accumulation of a position weighted by a mass. *)
Definition vadd_scaled (acc : Vec3) (p : Vec3 * double) : Vec3 :=
  mkVec3 (vx acc + vx p.1 * p.2)%float (vy acc + vy p.1 * p.2)%float
         (vz acc + vz p.1 * p.2)%float.

(** The masses added up in atom order. *)
Definition mass_sum (ms : list double) : double := fold_left PrimFloat.add ms dzero.

(** Total weight of [n] atoms: their mass sum, or their number. *)
Definition total_weight (useMass : bool) (ms : list double) (n : nat) : double :=
  if useMass then mass_sum (take n ms) else double_of_int (Z.of_nat n).

(** Sum of the positions, each weighted by its mass if asked. *)
Definition position_sum (useMass : bool) (ms : list double) (atoms : list Vec3) : Vec3 :=
  if useMass then fold_left vadd_scaled (zip atoms ms) Vec3_zero
  else fold_left vadd atoms Vec3_zero.

(** The (optionally mass-weighted) centroid. *)
Definition centroid (useMass : bool) (ms : list double) (atoms : list Vec3) : Vec3 :=
  Vec3_div (position_sum useMass ms atoms) (total_weight useMass ms (length atoms)).

(** The frame's first [natom_] atoms are at the positions [atoms]. *)
Definition holds_atoms (f : Frame) (atoms : list Vec3) (rest : list double) : Prop :=
  X_ f = Buf (coords atoms ++ rest) /\
  natom_ f = Z.of_nat (length atoms) /\
  ncoord_ f = 3 * Z.of_nat (length atoms).

(** The frame has the atoms [atoms] and, unless there are none, keeps them
    at the front of its coordinate array; a frame without atoms may have
    no coordinate array at all. *)
Definition keeps_atoms (f : Frame) (atoms : list Vec3) : Prop :=
  natom_ f = Z.of_nat (length atoms) /\
  ncoord_ f = 3 * Z.of_nat (length atoms) /\
  (atoms = [] \/ exists rest, X_ f = Buf (coords atoms ++ rest)).

(** One position moved by a vector with [op]. *)
Definition shift (op : double -> double -> double) (t v : Vec3) : Vec3 :=
  mkVec3 (op (vx v) (vx t)) (op (vy v) (vy t)) (op (vz v) (vz t)).

(** One atom's contribution to [mwss] and to the Kabsch matrix [rot]. *)
Definition cov_atom (w : double) (st : double * Matrix_3x3) (x r : Vec3)
  : double * Matrix_3x3 :=
  let '(mwss, rot) := st in
  let xt := vx x in let yt := vy x in let zt := vz x in
  let xr := vx r in let yr := vy r in let zr := vz r in
  ((mwss + w * (xt*xt + yt*yt + zt*zt + xr*xr + yr*yr + zr*zr))%float,
   mkMatrix
     (m0 rot + w*xt*xr)%float (m1 rot + w*xt*yr)%float (m2 rot + w*xt*zr)%float
     (m3 rot + w*yt*xr)%float (m4 rot + w*yt*yr)%float (m5 rot + w*yt*zr)%float
     (m6 rot + w*zt*xr)%float (m7 rot + w*zt*yr)%float (m8 rot + w*zt*zr)%float).

(** The weight of each of [n] atoms: its mass, or 1. *)
Definition atom_weights (useMass : bool) (ms : list double) (n : nat) : list double :=
  if useMass then take n ms else replicate n done_.

(** The weighted sum of squared norms of both frames (twice [E0]) and the
    weighted cross-covariance matrix [R]. *)
Definition kabsch_sums (useMass : bool) (ms : list double) (atoms ratoms : list Vec3)
  : double * Matrix_3x3 :=
  fold_left (fun st p => cov_atom p.2 st p.1.1 p.1.2)
    (zip (zip atoms ratoms) (atom_weights useMass ms (length atoms)))
    (dzero, Matrix_zero).

(** The chirality sign [sig3] of the fit, from the eigenvectors returned
    by the diagonalisation and the Kabsch matrix. *)
Definition chirality_sign (Ev rot : Matrix_3x3) : double :=
  let E := fix_third Ev in
  let '(b1, b2, b3) := b_rows E rot in
  chirality (cross b1 b2) b3.







(** The best-fit rotation, from the same data. *)
Definition fitted_rotation (Ev rot : Matrix_3x3) : Matrix_3x3 :=
  let E := fix_third Ev in
  let '(b1, b2, b3) := b_rows E rot in
  best_rotation E b1 b2 (cross b1 b2).

(** [E = E0 - sqrt(|mu1|) - sqrt(|mu2|) - sig3*sqrt(|mu3|)] *)
Definition residual (E0 : double) (ev : Vec3) (sig3 : double) : double :=
  (E0 - sqrt (fabs (vx ev)) - sqrt (fabs (vy ev)) - sig3 * sqrt (fabs (vz ev)))%float.

(** The RMSD for a residual [E]: 0 when [E < 0], else [sqrt(2E / weight)]. *)
Definition rmsd_of_residual (E total : double) : double :=
  if (E <? 0)%float then 0%float else sqrt (2.0 * E / total)%float.

(** This frame after its own centroid has been subtracted. *)
Definition centered (useMass : bool) (ms : list double) (atoms : list Vec3) : list Vec3 :=
  shift PrimFloat.add (Neg (centroid useMass ms atoms)) <$> atoms.

(** What [RMSD_CenteredRef] returns once the weight check has passed. *)
Definition fit_outcome (TransposeMult : Matrix_3x3 -> Matrix_3x3 -> Matrix_3x3)
    (Diagonalize_Sort : Matrix_3x3 -> Z * Matrix_3x3 * Vec3)
    (this : Frame) (U : Matrix_3x3) (useMass : bool)
    (atoms ratoms : list Vec3) (rest : list double) : fit_result :=
  let ms := Mass_ this in
  let total := total_weight useMass ms (length atoms) in
  let Trans := Neg (centroid useMass ms atoms) in
  let atoms' := centered useMass ms atoms in
  let this' := with_X this (Buf (coords atoms' ++ rest)) in
  let '(mwss, rot) := kabsch_sums useMass ms atoms' ratoms in
  let '(status, Ev, ev) := Diagonalize_Sort (TransposeMult rot rot) in
  if negb (status =? 0) then mkFit this' U Trans 0%float []
  else mkFit this' (fitted_rotation Ev rot) Trans
         (rmsd_of_residual (residual (mwss * 0.5)%float ev (chirality_sign Ev rot)) total)
         [].

(** The ways a frame comes into being. *)
Inductive construction : Type :=
  | K_default
  | K_natom (natomIn : Z)
  | K_atoms (atoms : list Atom)
  | K_mask (frameIn : Frame) (maskIn : AtomMask)
  | K_copy (rhs : Frame).

(** The calls that change a frame in place. *)
Inductive mutation : Type :=
  | M_assign (rhs : Frame)
  | M_SetFromCRD (farray : list double) (numBoxCrd : Z)
  | M_SetFromCRD_mask (farray : list double) (numBoxCrd : Z) (mask : AtomMask)
  | M_AddXYZ (XYZin : buffer)
  | M_AddVec3 (vIn : Vec3)
  | M_SetupFrame (natomIn : Z)
  | M_SetupFrameM (atoms : list Atom)
  | M_SetupFrameV (atoms : list Atom) (hasVelocity : bool)
  | M_SetupFrameFromMask (maskIn : AtomMask) (atoms : list Atom)
  | M_SetCoordinatesByMask (Xin : buffer) (maskIn : AtomMask)
  | M_SetCoordinates_mask (frameIn : Frame) (maskIn : AtomMask)
  | M_SetCoordinates (frameIn : Frame)
  | M_SetFrame (frameIn : Frame) (maskIn : AtomMask)
  | M_SetCoordinatesByMap (tgtIn : Frame) (mapIn : list Z)
  | M_SetReferenceByMap (refIn : Frame) (mapIn : list Z)
  | M_SetTargetByMap (tgtIn : Frame) (mapIn : list Z)
  | M_ZeroCoords
  | M_add_assign (rhs : Frame)
  | M_sub_assign (rhs : Frame)
  | M_mul_assign (rhs : Frame)
  | M_Divide_frame (dividend : Frame) (divisor : double)
  | M_Divide (divisor : double)
  | M_AddByMask (frameIn : Frame) (maskIn : AtomMask)
  | M_SCALE (maskIn : AtomMask) (sx sy sz : double).

(** The frame a constructor builds. *)
Definition construct (indet : nat -> double) (k : construction) : option Frame :=
  match k with
  | K_default => Some Frame_default
  | K_natom n => Frame_of_natom indet n
  | K_atoms atoms => Frame_of_atoms indet atoms
  | K_mask frameIn maskIn => Frame_of_mask indet frameIn maskIn
  | K_copy rhs => Frame_copy indet rhs
  end.

(** The frame a mutating call leaves behind. *)
Definition mutate (SMALL : double) (indet : nat -> double) (m : mutation) (this : Frame)
  : option Frame :=
  match m with
  | M_assign rhs => operator_assign indet this rhs
  | M_SetFromCRD farray nb => fst <$> SetFromCRD this farray nb
  | M_SetFromCRD_mask farray nb mask => fst <$> SetFromCRD_mask this farray nb mask
  | M_AddXYZ p => AddXYZ indet this p
  | M_AddVec3 v => AddVec3 indet this v
  | M_SetupFrame n => fst <$> SetupFrame indet this n
  | M_SetupFrameM atoms => fst <$> SetupFrameM indet this atoms
  | M_SetupFrameV atoms hv => fst <$> SetupFrameV indet this atoms hv
  | M_SetupFrameFromMask mask atoms => fst <$> SetupFrameFromMask indet this mask atoms
  | M_SetCoordinatesByMask Xin mask => fst <$> SetCoordinatesByMask this Xin mask
  | M_SetCoordinates_mask frameIn mask => fst <$> SetCoordinates_mask this frameIn mask
  | M_SetCoordinates frameIn => fst <$> SetCoordinates this frameIn
  | M_SetFrame frameIn mask => fst <$> SetFrame this frameIn mask
  | M_SetCoordinatesByMap tgtIn mapIn => fst <$> SetCoordinatesByMap this tgtIn mapIn
  | M_SetReferenceByMap refIn mapIn => fst <$> SetReferenceByMap this refIn mapIn
  | M_SetTargetByMap tgtIn mapIn => fst <$> SetTargetByMap this tgtIn mapIn
  | M_ZeroCoords => ZeroCoords this
  | M_add_assign rhs => fst <$> operator_add_assign this rhs
  | M_sub_assign rhs => fst <$> operator_sub_assign this rhs
  | M_mul_assign rhs => fst <$> operator_mul_assign this rhs
  | M_Divide_frame dividend d => (fun r => r.1.1) <$> Divide_frame SMALL this dividend d
  | M_Divide d => fst <$> Divide SMALL this d
  | M_AddByMask frameIn mask => fst <$> AddByMask this frameIn mask
  | M_SCALE mask sx sy sz => SCALE this mask sx sy sz
  end.

(** The sizes a constructor is given fit an [int]; a copied frame is
    itself consistent. *)
Definition constructible (k : construction) : Prop :=
  match k with
  | K_default => True
  | K_natom n => in_int (n * 3)
  | K_atoms atoms => 3 * Z.of_nat (length atoms) <= INT_MAX
  | K_mask _ maskIn => 3 * Nselected maskIn <= INT_MAX
  | K_copy rhs => coord_inv rhs
  end.

(** What a mutating call asks of its arguments for the counts to stay
    consistent: sizes fit an [int], a frame assigned from is consistent,
    and the float array given to [SetFromCRD] holds whole atoms. *)
Definition admissible (m : mutation) (this : Frame) : Prop :=
  match m with
  | M_assign rhs => coord_inv rhs
  | M_SetFromCRD farray nb =>
      Z.of_nat (length farray) <= INT_MAX /\ in_int nb /\
      exists n, Z.of_nat (length farray) - nb = 3 * n /\ in_int (3 * n)
  | M_SetFromCRD_mask _ _ mask => 3 * Nselected mask <= INT_MAX
  | M_AddXYZ _ | M_AddVec3 _ => 0 <= natom_ this /\ in_int (natom_ this * 3 + 3)
  | M_SetupFrame n => in_int (n * 3)
  | M_SetupFrameM atoms | M_SetupFrameV atoms _ => 3 * Z.of_nat (length atoms) <= INT_MAX
  | M_SetupFrameFromMask mask _ | M_SetCoordinatesByMask _ mask
  | M_SetCoordinates_mask _ mask | M_SetFrame _ mask => 3 * Nselected mask <= INT_MAX
  | M_SetCoordinates frameIn | M_SetCoordinatesByMap frameIn _ =>
      in_int (natom_ frameIn * 3)
  | M_SetReferenceByMap _ mapIn | M_SetTargetByMap _ mapIn =>
      3 * Z.of_nat (length mapIn) <= INT_MAX
  | _ => True
  end.

(** The frames a program can hold: built by a constructor, then changed
    by any number of mutating calls. *)
Inductive reachable (SMALL : double) (indet : nat -> double) : Frame -> Prop :=
  | reach_construct (k : construction) (f : Frame) :
      constructible k -> construct indet k = Some f -> reachable SMALL indet f
  | reach_mutate (m : mutation) (f f' : Frame) :
      reachable SMALL indet f -> admissible m f -> mutate SMALL indet m f = Some f' ->
      reachable SMALL indet f'.

(** The frame [SetFromCRD] leaves behind when it accepts the array: the
    cells before the last [nb] become the coordinates, the last [nb] the
    leading box cells. *)
Definition crd_loaded (this : Frame) (x farray : list double) (nb : Z) : Frame :=
  let n := Z.to_nat (Z.of_nat (length farray) - nb) in
  mkFrame (Z.of_nat n `div` 3) (maxnatom_ this) (Z.of_nat n)
    (drop n farray ++ drop (Z.to_nat nb) (box_ this)) (T_ this)
    (Buf (take n farray ++ drop n x)) (V_ this) (Mass_ this).

(** The frame [SetFromCRD] with a mask leaves behind when it accepts the
    selection. *)
Definition crd_selected (this : Frame) (x farray : list double) (nb : Z)
    (mask : AtomMask) : Frame :=
  let n := length mask in
  mkFrame (Z.of_nat n) (maxnatom_ this) (3 * Z.of_nat n)
    (drop (length farray - Z.to_nat nb) farray ++ drop (Z.to_nat nb) (box_ this)) (T_ this)
    (Buf (gather farray mask ++ drop (3 * n) x)) (V_ this) (Mass_ this).

(** The array [ConvertToCRD] builds: the coordinates, then the first [nb]
    box cells, each narrowed to single precision. *)
Definition crd_of (this : Frame) (x : list double) (nb : Z) : list double :=
  (float_of_double <$> take (Z.to_nat (ncoord_ this)) x)
  ++ (float_of_double <$> take (Z.to_nat nb) (box_ this)).

(** The frame holds exactly [atoms], inside an array sized for its
    capacity. *)
Definition stores (f : Frame) (atoms : list Vec3) : Prop :=
  natom_ f = Z.of_nat (length atoms) /\
  ncoord_ f = 3 * Z.of_nat (length atoms) /\
  natom_ f <= maxnatom_ f /\
  3 * maxnatom_ f <= INT_MAX /\
  match X_ f with
  | NULL => maxnatom_ f = 0
  | Buf x => take (3 * length atoms) x = coords atoms /\
             Z.of_nat (length x) = 3 * maxnatom_ f
  | Dangling => False
  end.

(** [q] is a fresh copy of the owned array [p]: absent if [p] is, else a
    new array of [3 * maxnatom] cells whose first [natom] atoms are those
    of [p]. *)
Definition copied (natom maxnatom : Z) (p q : buffer) : Prop :=
  match p with
  | NULL => q = NULL
  | Buf src => exists new, q = Buf new /\
                 take (Z.to_nat (3 * natom)) new = take (Z.to_nat (3 * natom)) src /\
                 Z.of_nat (length new) = 3 * maxnatom
  | Dangling => False
  end.

(** What the copy constructor needs of an owned array. *)
Definition copyable (natom : Z) (p : buffer) : Prop :=
  match p with
  | NULL => True
  | Buf src => 3 * natom <= Z.of_nat (length src)
  | Dangling => False
  end.

(** A pointer after [if (p != NULL) delete[] p;]: it is not reset. *)
Definition released (p : buffer) : buffer :=
  match p with NULL => NULL | _ => Dangling end.

(** The coordinate array after the capacity check of a setup call asking
    for [n] atoms. *)
Definition grown (indet : nat -> double) (this : Frame) (n : Z) : buffer :=
  if maxnatom_ this <? n then Buf (indet <$> seq 0 (Z.to_nat (3 * n))) else X_ this.

(** The mass vector after [if (reallocate || Mass_.empty()) Mass_.resize(maxnatom_)]
    in a setup call asking for [n] atoms. *)
Definition resized_masses (this : Frame) (n : Z) : list double :=
  if bool_decide (maxnatom_ this < n) || vec_empty (Mass_ this)
  then resize (Z.to_nat (Z.max (maxnatom_ this) n)) dzero (Mass_ this)
  else Mass_ this.

(** The mass vector can take [n] masses: it is resized first, or is long
    enough already. *)
Definition masses_fit (this : Frame) (n : Z) : Prop :=
  maxnatom_ this < n \/ Mass_ this = [] \/ n <= Z.of_nat (length (Mass_ this)).

(** The velocity array [SetupFrameV] leaves for [n] atoms: a zeroed array
    sized for the capacity when velocities are asked for and none of that
    size is held yet, the one held when they are asked for and held, and a
    released one when they are not asked for. *)
Definition setup_velocities (this : Frame) (n : Z) (hasVelocity : bool) : buffer :=
  if hasVelocity then
    if bool_decide (maxnatom_ this < n) || is_null (V_ this)
    then Buf (replicate (Z.to_nat (3 * Z.max (maxnatom_ this) n)) dzero)
    else V_ this
  else released (V_ this).

(** The masses of the atoms a mask selects from an atom array. *)
Definition mask_masses (atoms : list Atom) (mask : AtomMask) : list double :=
  omap (atom_mass_at atoms) mask.

(** A mask entry names an atom of the array. *)
Definition names_atom (atoms : list Atom) (a : Z) : Prop :=
  0 <= a < Z.of_nat (length atoms).

(** The frame left by a call that stores the coordinates [cells] of [n]
    atoms at the front of the array [x]. *)
Definition front_set (this : Frame) (x cells : list double) (n : nat) : Frame :=
  with_X (with_counts this (Z.of_nat n) (3 * Z.of_nat n)) (Buf (cells ++ drop (3 * n) x)).

(** The velocity array [SetFrame] leaves: the selected velocities when both
    frames hold velocities, else the array as it was. *)
Definition set_velocities (this frameIn : Frame) (maskIn : AtomMask) : buffer :=
  match V_ frameIn, V_ this with
  | Buf vs, Buf v => Buf (gather vs maskIn ++ drop (3 * length maskIn) v)
  | _, _ => V_ this
  end.

(** What [SetFrame] needs of the two velocity arrays. *)
Definition velocities_settable (this frameIn : Frame) (maskIn : AtomMask) : Prop :=
  match V_ frameIn, V_ this with
  | Buf vs, Buf v => Forall (atom_in vs) maskIn /\ (3 * length maskIn <= length v)%nat
  | NULL, _ | _, NULL => True
  | _, _ => False
  end.

(** The coordinate cells after an element-wise operation with the cells
    [r] over the first [n] cells of [x]. *)
Definition combined (op : double -> double -> double) (n : nat) (x r : list double)
  : list double :=
  zip_with op (take n x) (take n r) ++ drop n x.

(** One position scaled per axis. *)
Definition scale_vec (sx sy sz : double) (v : Vec3) : Vec3 :=
  mkVec3 (vx v * sx)%float (vy v * sy)%float (vz v * sz)%float.

(** The positions after every selected atom has been scaled once. *)
Definition scaled (sx sy sz : double) (mask : AtomMask) (atoms : list Vec3) : list Vec3 :=
  imap (fun k v => if bool_decide (Z.of_nat k ∈ mask) then scale_vec sx sy sz v else v) atoms.

(** The positions after the mask has been walked, one scaling per entry. *)
Definition scale_walk (sx sy sz : double) (mask : AtomMask) (atoms : list Vec3) : list Vec3 :=
  fold_left (fun l a => alter (scale_vec sx sy sz) (Z.to_nat a) l) mask atoms.

(** One atom's contribution to the no-fit sums: the weighted squared
    distance and the weight. *)
Definition nofit_atom (w : double) (st : double * double) (t r : Vec3) : double * double :=
  let xx := (vx r - vx t)%float in
  let yy := (vy r - vy t)%float in
  let zz := (vz r - vz t)%float in
  ((st.1 + w * (xx*xx + yy*yy + zz*zz))%float, (st.2 + w)%float).

(** The weighted sum of squared distances between corresponding atoms, and
    the sum of the weights, both added up in atom order. *)
Definition nofit_sums (useMass : bool) (ms : list double) (atoms ratoms : list Vec3)
  : double * double :=
  fold_left (fun st p => nofit_atom p.2 st p.1.1 p.1.2)
    (zip (zip atoms ratoms) (atom_weights useMass ms (length atoms)))
    (dzero, dzero).

(** A call that sends no message. *)
Definition quiet {A} (r : option A) : option (A * log) := (fun a => (a, [])) <$> r.

(** The frame a mutating call leaves behind together with the messages it
    sent to [mprinterr]. *)
Definition report (SMALL : double) (indet : nat -> double) (m : mutation) (this : Frame)
  : option (Frame * log) :=
  match m with
  | M_assign rhs => quiet (operator_assign indet this rhs)
  | M_SetFromCRD farray nb => SetFromCRD this farray nb
  | M_SetFromCRD_mask farray nb mask => SetFromCRD_mask this farray nb mask
  | M_AddXYZ p => quiet (AddXYZ indet this p)
  | M_AddVec3 v => quiet (AddVec3 indet this v)
  | M_SetupFrame n => quiet (fst <$> SetupFrame indet this n)
  | M_SetupFrameM atoms => quiet (fst <$> SetupFrameM indet this atoms)
  | M_SetupFrameV atoms hv => quiet (fst <$> SetupFrameV indet this atoms hv)
  | M_SetupFrameFromMask mask atoms =>
      quiet (fst <$> SetupFrameFromMask indet this mask atoms)
  | M_SetCoordinatesByMask Xin mask => SetCoordinatesByMask this Xin mask
  | M_SetCoordinates_mask frameIn mask => SetCoordinates_mask this frameIn mask
  | M_SetCoordinates frameIn => SetCoordinates this frameIn
  | M_SetFrame frameIn mask => SetFrame this frameIn mask
  | M_SetCoordinatesByMap tgtIn mapIn => SetCoordinatesByMap this tgtIn mapIn
  | M_SetReferenceByMap refIn mapIn => SetReferenceByMap this refIn mapIn
  | M_SetTargetByMap tgtIn mapIn => SetTargetByMap this tgtIn mapIn
  | M_ZeroCoords => quiet (ZeroCoords this)
  | M_add_assign rhs => operator_add_assign this rhs
  | M_sub_assign rhs => operator_sub_assign this rhs
  | M_mul_assign rhs => operator_mul_assign this rhs
  | M_Divide_frame dividend d =>
      (fun r => (r.1.1, r.2)) <$> Divide_frame SMALL this dividend d
  | M_Divide d => Divide SMALL this d
  | M_AddByMask frameIn mask => AddByMask this frameIn mask
  | M_SCALE mask sx sy sz => quiet (SCALE this mask sx sy sz)
  end.

(** The frame holds no more atoms than it has room for. *)
Definition within_capacity (f : Frame) : Prop := natom_ f <= maxnatom_ f.

(** What a constructor is given for the capacity to bound the atom count:
    a copied frame is itself within capacity. *)
Definition roomy (k : construction) : Prop :=
  match k with
  | K_copy rhs => within_capacity rhs
  | _ => True
  end.

(** What a mutating call is given for the capacity to keep bounding the
    atom count: a frame assigned from is within capacity and the counts
    involved fit an [int]. *)
Definition fits (m : mutation) (this : Frame) : Prop :=
  match m with
  | M_assign rhs => within_capacity rhs
  | M_SetFromCRD _ _ => in_int (maxnatom_ this * 3)
  | M_AddXYZ _ | M_AddVec3 _ => in_int (natom_ this) /\ maxnatom_ this + 500 <= INT_MAX
  | M_SetReferenceByMap _ mapIn | M_SetTargetByMap _ mapIn =>
      3 * Z.of_nat (length mapIn) <= INT_MAX
  | _ => True
  end.

(** The fluctuation of one coordinate from the sum [a] of its values and
    the sum [q] of their squares over [N] sets. *)
Definition fluctuation (N : double) (q a : double) : double :=
  (q / N - (a / N) * (a / N))%float.

(** The same when the division was refused. *)
Definition fluctuation_undivided (q a : double) : double := (q - a * a)%float.

(** Residue [i] of the table holds [atom]. *)
Definition in_residue (rs : list Z) (i atom : Z) : Prop :=
  exists lo hi, rdi rs i = Some lo /\ rdi rs (i + 1) = Some hi /\ lo <= atom < hi.

(** The residue table has an entry for each residue and a closing one. *)
Definition table_ok (p : AmberParm) : Prop :=
  0 <= nres p /\ Z.of_nat (length (resnums p)) = nres p + 1 /\ nres p < INT_MAX.

(** The residue starts do not decrease. *)
Definition ascending (rs : list Z) : Prop :=
  forall (i j : nat) (x y : Z), (i <= j)%nat -> rs !! i = Some x -> rs !! j = Some y -> x <= y.

(** The number of atoms in the molecules before molecule [i]. *)
Definition atoms_before (apm : list Z) (i : Z) : Z :=
  foldr Z.add 0 (take (Z.to_nat i) apm).

(** * Example data *)

(** A frame with velocities and no masses. *)
Definition F_velocity_no_mass : Frame :=
  mkFrame 1 1 3 zero_box dzero (Buf [1; 2; 3]%float) (Buf [4; 5; 6]%float) [].

(** Three-atom frames for the mask and map examples. *)
Definition map_dst : Frame :=
  mkFrame 3 3 9 zero_box dzero (Buf (replicate 9 dzero)) NULL [].
Definition map_src : Frame :=
  mkFrame 3 3 9 zero_box dzero (Buf [1; 2; 3; 4; 5; 6; 7; 8; 9]%float) NULL [].

Definition add_dst : Frame :=
  mkFrame 3 3 9 zero_box dzero
    (Buf [10; 20; 30; 40; 50; 60; 70; 80; 90]%float) NULL [].

(** A frame with room for two atoms, holding none. *)
Definition crd_dst : Frame :=
  mkFrame 0 2 0 zero_box dzero (Buf (replicate 6 dzero)) NULL [].

(** A value of [SMALL] to run the examples, 1e-14; the spec only asks
    that 1e-20 lie below the threshold. *)
Definition SMALL_example : double := 0x1.6849b86a12b9bp-47%float.

Definition one_atom : Frame :=
  mkFrame 1 1 3 zero_box dzero (Buf [1; 2; 3]%float) NULL [].

(** Three collinear atoms, spaced by 1 and by 2. *)
Definition line1 : Frame :=
  mkFrame 3 3 9 zero_box dzero (Buf [0; 0; 0; 1; 0; 0; 2; 0; 0]%float) NULL [].
Definition line2 : Frame :=
  mkFrame 3 3 9 zero_box dzero (Buf [0; 0; 0; 2; 0; 0; 4; 0; 0]%float) NULL [].

(** A frame with masses and velocities. *)
Definition masked_src : Frame :=
  mkFrame 3 3 9 zero_box 300%float (Buf [1; 2; 3; 4; 5; 6; 7; 8; 9]%float)
    (Buf [10; 20; 30; 40; 50; 60; 70; 80; 90]%float) [12; 1; 16]%float.

(** A transpose product [a^T b], to run the examples. *)
Definition transpose_product (a b : Matrix_3x3) : Matrix_3x3 :=
  mkMatrix
    (m0 a * m0 b + m3 a * m3 b + m6 a * m6 b)%float
    (m0 a * m1 b + m3 a * m4 b + m6 a * m7 b)%float
    (m0 a * m2 b + m3 a * m5 b + m6 a * m8 b)%float
    (m1 a * m0 b + m4 a * m3 b + m7 a * m6 b)%float
    (m1 a * m1 b + m4 a * m4 b + m7 a * m7 b)%float
    (m1 a * m2 b + m4 a * m5 b + m7 a * m8 b)%float
    (m2 a * m0 b + m5 a * m3 b + m8 a * m6 b)%float
    (m2 a * m1 b + m5 a * m4 b + m8 a * m7 b)%float
    (m2 a * m2 b + m5 a * m5 b + m8 a * m8 b)%float.

Definition Matrix_identity : Matrix_3x3 := mkMatrix 1 0 0 0 1 0 0 0 1.

(** A diagonaliser for the examples: it succeeds exactly on diagonal
    matrices whose diagonal is already in descending order, for which the
    eigenvectors are the coordinate axes. *)
Definition diagonalize_diagonal (m : Matrix_3x3) : Z * Matrix_3x3 * Vec3 :=
  if ((m1 m =? 0) && (m2 m =? 0) && (m3 m =? 0) && (m5 m =? 0) && (m6 m =? 0)
      && (m7 m =? 0) && (m4 m <=? m0 m) && (m8 m <=? m4 m))%float
  then (0, Matrix_identity, mkVec3 (m0 m) (m4 m) (m8 m))
  else (1, m, Vec3_zero).

(** A diagonaliser that always fails. *)
Definition diagonalize_fails (m : Matrix_3x3) : Z * Matrix_3x3 * Vec3 :=
  (1, m, Vec3_zero).



(** Two atoms with unit masses, and the same moved by (5,5,5). *)
Definition pair_atoms : list Vec3 := [mkVec3 0 0 0; mkVec3 1 0 0]%float.
Definition pair_moved_atoms : list Vec3 := [mkVec3 5 5 5; mkVec3 6 5 5]%float.
Definition pair_frame : Frame :=
  mkFrame 2 2 6 zero_box dzero (Buf (coords pair_atoms)) NULL [1; 1]%float.
Definition pair_moved : Frame :=
  mkFrame 2 2 6 zero_box dzero (Buf (coords pair_moved_atoms)) NULL [1; 1]%float.

(** One atom of mass 0, and one of mass 1. *)
Definition massless : Frame :=
  mkFrame 1 1 3 zero_box dzero (Buf [1; 2; 3]%float) NULL [0]%float.

Definition massive : Frame :=
  mkFrame 1 1 3 zero_box dzero (Buf [4; 5; 6]%float) NULL [1]%float.

Definition two_atoms : Frame :=
  mkFrame 2 2 6 zero_box dzero (Buf [2; 4; 6; 8; 10; 12]%float) NULL [].

(** A frame of two atoms with a box, for the float-array examples. *)
Definition boxed : Frame :=
  mkFrame 2 2 6 [10; 20; 30; 90; 90; 90]%float dzero
    (Buf [0x1.999999999999ap-4; 0.5; 16777217; -1.5; 2; 3]%float) NULL [].

(** A frame of two atoms in an array with room for three. *)
Definition two_of_three : Frame :=
  mkFrame 2 3 6 zero_box dzero (Buf [1; 2; 3; 4; 5; 6; 0; 0; 0]%float) NULL [].

(** A frame of three atoms that is full. *)
Definition full3 : Frame :=
  mkFrame 3 3 9 zero_box dzero (Buf [1; 2; 3; 4; 5; 6; 7; 8; 9]%float) NULL [].

(** Three atoms with their masses. *)
Definition three_atoms : list Atom := [mkAtom 12; mkAtom 1; mkAtom 16]%float.

(** A frame with masses and velocities and room for three atoms. *)
Definition setup_src : Frame :=
  mkFrame 3 3 9 zero_box dzero (Buf [1; 2; 3; 4; 5; 6; 7; 8; 9]%float)
    (Buf (replicate 9 dzero)) [1; 1; 1]%float.

(** Sums and sums of squares of two frames with coordinates (1,2,3) and
    (3,2,1). *)
Definition sum_x : Frame :=
  mkFrame 1 1 3 zero_box dzero (Buf [4; 4; 4]%float) NULL [].
Definition sum_x2 : Frame :=
  mkFrame 1 1 3 zero_box dzero (Buf [10; 8; 10]%float) NULL [].

(** Three residues of 2, 3 and 1 atoms; two molecules of 5 and 1 atoms. *)
Definition small_parm : AmberParm :=
  mkAmberParm 3 [0; 2; 5; 6] ["N"; "CA"; "N"; "CA"; "C"; "O"] 2 [5; 1].

(** * Properties *)

(** ** Machine integers in range *)

Lemma int_wrap_id (z : Z) : in_int z -> int_wrap z = z.
Proof.
  unfold in_int, int_wrap, INT_MIN, INT_MAX. intros H.
  rewrite Z.mod_small; lia.
Qed.

Lemma uint_wrap_id (z : Z) : 0 <= z < 2 ^ 32 -> uint_wrap z = z.
Proof. unfold uint_wrap. intros H. apply Z.mod_small; lia. Qed.

Lemma in_int_small (z : Z) : 0 <= z <= INT_MAX -> in_int z.
Proof. unfold in_int, INT_MIN, INT_MAX. lia. Qed.

(** ** Cells of a buffer *)

Lemma rd_middle (pre rest : list double) (a : double) (i : Z) :
  i = Z.of_nat (length pre) -> rd (pre ++ a :: rest) i = Some a.
Proof.
  intros ->. unfold rd.
  destruct (Z.leb_spec 0 (Z.of_nat (length pre))); [|lia].
  rewrite Nat2Z.id. apply list_lookup_middle. reflexivity.
Qed.

Lemma wr_middle (pre rest : list double) (a v : double) (i : Z) :
  i = Z.of_nat (length pre) -> wr (pre ++ a :: rest) i v = Some (pre ++ v :: rest).
Proof.
  intros ->. unfold wr.
  rewrite length_app. simpl.
  destruct (Z.leb_spec 0 (Z.of_nat (length pre))); [|lia].
  destruct (Z.ltb_spec (Z.of_nat (length pre)) (Z.of_nat (length pre + S (length rest))));
    [|lia].
  simpl. rewrite Nat2Z.id. f_equal.
  rewrite insert_app_r_alt by lia. rewrite Nat.sub_diag. reflexivity.
Qed.

Lemma rd_second (pre rest : list double) (a b : double) (i : Z) :
  i = Z.of_nat (length pre) -> rd (pre ++ a :: b :: rest) (i + 1) = Some b.
Proof.
  intros ->. change (pre ++ a :: b :: rest) with (pre ++ [a] ++ b :: rest).
  rewrite app_assoc. apply rd_middle. rewrite length_app. simpl. lia.
Qed.

Lemma rd_third (pre rest : list double) (a b c : double) (i : Z) :
  i = Z.of_nat (length pre) -> rd (pre ++ a :: b :: c :: rest) (i + 2) = Some c.
Proof.
  intros ->. change (pre ++ a :: b :: c :: rest) with (pre ++ [a; b] ++ c :: rest).
  rewrite app_assoc. apply rd_middle. rewrite length_app. simpl. lia.
Qed.

Lemma wr_second (pre rest : list double) (a b v : double) (i : Z) :
  i = Z.of_nat (length pre) ->
  wr (pre ++ a :: b :: rest) (i + 1) v = Some (pre ++ a :: v :: rest).
Proof.
  intros ->. change (pre ++ a :: b :: rest) with (pre ++ [a] ++ b :: rest).
  assert (E : Z.of_nat (length pre) + 1 = Z.of_nat (length (pre ++ [a])))
    by (rewrite length_app; simpl; lia).
  rewrite app_assoc, (wr_middle _ _ _ _ _ E), <- app_assoc. reflexivity.
Qed.

Lemma wr_third (pre rest : list double) (a b c v : double) (i : Z) :
  i = Z.of_nat (length pre) ->
  wr (pre ++ a :: b :: c :: rest) (i + 2) v = Some (pre ++ a :: b :: v :: rest).
Proof.
  intros ->. change (pre ++ a :: b :: c :: rest) with (pre ++ [a; b] ++ c :: rest).
  assert (E : Z.of_nat (length pre) + 2 = Z.of_nat (length (pre ++ [a; b])))
    by (rewrite length_app; simpl; lia).
  rewrite app_assoc, (wr_middle _ _ _ _ _ E), <- app_assoc. reflexivity.
Qed.

Lemma atom_cells_split (s : list double) (a : Z) :
  atom_in s a ->
  exists p q r rest,
    s = take (Z.to_nat (3 * a)) s ++ p :: q :: r :: rest /\
    atom_cells s a = [p; q; r] /\
    length (take (Z.to_nat (3 * a)) s) = Z.to_nat (3 * a).
Proof.
  intros [H0 H1]. unfold atom_cells.
  assert (Hlen : (Z.to_nat (3 * a) + 3 <= length s)%nat) by lia.
  destruct (drop (Z.to_nat (3 * a)) s) as [|p [|q [|r rest]]] eqn:E;
    try (apply (f_equal length) in E; rewrite length_drop in E; simpl in E; lia).
  exists p, q, r, rest. repeat split.
  - rewrite <- E. symmetry. apply take_drop.
  - rewrite length_take. lia.
Qed.

Lemma atom_cells_rd (s : list double) (a : Z) :
  atom_in s a ->
  exists p q r,
    atom_cells s a = [p; q; r] /\
    rd s (3 * a) = Some p /\ rd s (3 * a + 1) = Some q /\ rd s (3 * a + 2) = Some r.
Proof.
  intros H. destruct (atom_cells_split s a H) as (p & q & r & rest & Hs & Hc & Hl).
  exists p, q, r. split; [exact Hc|].
  destruct H as [H0 _].
  rewrite Hs. repeat split.
  - apply rd_middle. lia.
  - apply rd_second. lia.
  - apply rd_third. lia.
Qed.

Lemma memcpy3_middle (pre rest s : list double) (a b c p q r : double) (off soff : Z) :
  off = Z.of_nat (length pre) ->
  rd s soff = Some p -> rd s (soff + 1) = Some q -> rd s (soff + 2) = Some r ->
  memcpy3 (pre ++ a :: b :: c :: rest) off s soff = Some (pre ++ p :: q :: r :: rest).
Proof.
  intros Hoff Hp Hq Hr. unfold memcpy3. rewrite Hp, Hq, Hr. simpl.
  rewrite (wr_middle _ _ _ _ _ Hoff). simpl.
  rewrite (wr_second _ _ _ _ _ _ Hoff). simpl.
  apply (wr_third _ _ _ _ _ _ _ Hoff).
Qed.

(** Closes the goal left by a loop lemma once both sides have the same
    shape: equal components, up to arithmetic on the cursor. *)
Ltac loop_done :=
  repeat match goal with
         | |- Some _ = Some _ => f_equal
         | |- (_, _) = (_, _) => apply (f_equal2 pair)
         | |- Buf _ = Buf _ => f_equal
         end;
  try reflexivity; cbn [length]; lia.

Lemma cells_at_tail (x : list double) (k : Z) (v : double) (l : list double) :
  cells_at x k (v :: l) -> rd x k = Some v /\ cells_at x (k + 1) l.
Proof.
  intros H. split.
  - specialize (H 0%nat v eq_refl). rewrite Z.add_0_r in H. exact H.
  - intros i w Hi. specialize (H (S i) w Hi).
    replace (k + 1 + Z.of_nat i) with (k + Z.of_nat (S i)) by lia. exact H.
Qed.

Lemma cells_at_prefix (l rest : list double) : cells_at (l ++ rest) 0 l.
Proof.
  intros i v Hi. unfold rd. rewrite Z.add_0_l.
  destruct (Z.leb_spec 0 (Z.of_nat i)); [|lia].
  rewrite Nat2Z.id. apply lookup_app_l_Some, Hi.
Qed.

Lemma cells_at_take (x : list double) (n : nat) : cells_at x 0 (take n x).
Proof.
  intros i v Hi. unfold rd. rewrite Z.add_0_l.
  destruct (Z.leb_spec 0 (Z.of_nat i)); [|lia].
  rewrite Nat2Z.id. apply lookup_take_Some in Hi as [Hi _]. exact Hi.
Qed.

(** ** Gathering atoms by mask *)

Lemma imul3_atom (s : list double) (a : Z) :
  Z.of_nat (length s) <= INT_MAX -> atom_in s a -> imul a 3 = 3 * a.
Proof.
  intros Hs [H0 H1]. unfold imul. rewrite int_wrap_id; [lia|].
  apply in_int_small. lia.
Qed.

Lemma length3 {A} (mid : list A) (n : nat) :
  length mid = (3 * S n)%nat ->
  exists a b c mid', mid = a :: b :: c :: mid' /\ length mid' = (3 * n)%nat.
Proof.
  destruct mid as [|a [|b [|c mid']]]; intros H; simpl in H; try lia.
  exists a, b, c, mid'. split; [reflexivity|lia].
Qed.

Lemma copy_X_step (s pre rest : list double) (a0 b0 c0 : double) (a : Z) :
  Z.of_nat (length s) <= INT_MAX -> atom_in s a ->
  copy_X (Buf s) (Buf (pre ++ a0 :: b0 :: c0 :: rest), Z.of_nat (length pre)) a
  = Some (Buf (pre ++ atom_cells s a ++ rest), Z.of_nat (length pre) + 3).
Proof.
  intros Hs Ha.
  destruct (atom_cells_rd s a Ha) as (p & q & r & Hc & Hp & Hq & Hr).
  unfold copy_X. cbn [cells_of mbind option_bind].
  rewrite (imul3_atom s a Hs Ha).
  rewrite (memcpy3_middle pre rest s a0 b0 c0 p q r _ _ eq_refl Hp Hq Hr).
  rewrite Hc. reflexivity.
Qed.

Lemma gather_loop (s : list double) (mask : list Z) :
  Z.of_nat (length s) <= INT_MAX ->
  Forall (atom_in s) mask ->
  forall pre mid rest,
    length mid = (3 * length mask)%nat ->
    foldlM (copy_X (Buf s)) mask (Buf (pre ++ mid ++ rest), Z.of_nat (length pre))
    = Some (Buf (pre ++ gather s mask ++ rest),
            Z.of_nat (length pre) + 3 * Z.of_nat (length mask)).
Proof.
  intros Hs Hall. induction Hall as [|a mask Ha Hall IH]; intros pre mid rest Hlen.
  - destruct mid; [|discriminate]. simpl. loop_done.
  - destruct (length3 mid _ Hlen) as (a0 & b0 & c0 & mid' & -> & Hlen').
    destruct (atom_cells_split s a Ha) as (p & q & r & srest & _ & Hc & _).
    cbn [foldlM]. rewrite <- !app_comm_cons.
    rewrite (copy_X_step s pre (mid' ++ rest) a0 b0 c0 a Hs Ha).
    cbn [mbind option_bind].
    rewrite (app_assoc pre).
    replace (Z.of_nat (length pre) + 3) with (Z.of_nat (length (pre ++ atom_cells s a)))
      by (rewrite Hc, length_app; cbn [length]; lia).
    rewrite (IH _ _ _ Hlen').
    unfold gather. rewrite bind_cons, <- !app_assoc, length_app, Hc.
    loop_done.
Qed.

Lemma rd_in (ms : list double) (a : Z) :
  mass_in ms a -> exists v, rd ms a = Some v.
Proof.
  intros [H0 H1]. unfold rd. destruct (Z.leb_spec 0 a); [|lia].
  apply lookup_lt_is_Some_2. lia.
Qed.

Lemma select_masses_cons (ms : list double) (a : Z) (mask : AtomMask) (v : double) :
  rd ms a = Some v -> select_masses ms (a :: mask) = v :: select_masses ms mask.
Proof. intros H. unfold select_masses. simpl. rewrite H. reflexivity. Qed.

Lemma copy_XM_step (F : Frame) (xs pre rest m : list double)
    (a0 b0 c0 v : double) (a : Z) :
  X_ F = Buf xs ->
  Z.of_nat (length xs) <= INT_MAX -> atom_in xs a -> rd (Mass_ F) a = Some v ->
  copy_XM F (pre ++ a0 :: b0 :: c0 :: rest, m, Z.of_nat (length pre)) a
  = Some (pre ++ atom_cells xs a ++ rest, m ++ [v], Z.of_nat (length pre) + 3).
Proof.
  intros HX Hs Ha Hv.
  destruct (atom_cells_rd xs a Ha) as (p & q & r & Hc & Hp & Hq & Hr).
  unfold copy_XM. rewrite HX. cbn [cells_of mbind option_bind].
  rewrite (imul3_atom xs a Hs Ha).
  rewrite (memcpy3_middle pre rest xs a0 b0 c0 p q r _ _ eq_refl Hp Hq Hr).
  cbn [mbind option_bind]. rewrite Hv, Hc. reflexivity.
Qed.

Lemma atom_cells_length (s : list double) (a : Z) :
  atom_in s a -> length (atom_cells s a) = 3%nat.
Proof.
  intros Ha. destruct (atom_cells_split s a Ha) as (p & q & r & srest & _ & Hc & _).
  rewrite Hc. reflexivity.
Qed.

Lemma copy_XM_loop (F : Frame) (xs : list double) (mask : list Z) :
  X_ F = Buf xs ->
  Z.of_nat (length xs) <= INT_MAX ->
  Forall (atom_in xs) mask ->
  Forall (mass_in (Mass_ F)) mask ->
  forall pre mid rest m,
    length mid = (3 * length mask)%nat ->
    foldlM (copy_XM F) mask (pre ++ mid ++ rest, m, Z.of_nat (length pre))
    = Some (pre ++ gather xs mask ++ rest, m ++ select_masses (Mass_ F) mask,
            Z.of_nat (length pre) + 3 * Z.of_nat (length mask)).
Proof.
  intros HX Hs Hall. induction Hall as [|a mask Ha Hall IH];
    intros Hm pre mid rest m Hlen.
  - destruct mid; [|discriminate]. simpl. rewrite app_nil_r. loop_done.
  - destruct (length3 mid _ Hlen) as (a0 & b0 & c0 & mid' & -> & Hlen').
    apply Forall_cons in Hm as [Hma Hm].
    destruct (rd_in _ _ Hma) as [v Hv].
    cbn [foldlM]. rewrite <- !app_comm_cons.
    rewrite (copy_XM_step F xs pre (mid' ++ rest) m a0 b0 c0 v a HX Hs Ha Hv).
    cbn [mbind option_bind]. rewrite (app_assoc pre).
    replace (Z.of_nat (length pre) + 3) with (Z.of_nat (length (pre ++ atom_cells xs a)))
      by (rewrite length_app, (atom_cells_length _ _ Ha); lia).
    rewrite (IH Hm _ _ _ _ Hlen').
    rewrite (select_masses_cons _ _ _ _ Hv).
    unfold gather. rewrite bind_cons, <- !app_assoc, length_app, (atom_cells_length _ _ Ha).
    loop_done.
Qed.

Lemma copy_XVM_step (F : Frame) (xs vs pre rest vpre vrest m : list double)
    (a0 b0 c0 d0 e0 f0 v : double) (a : Z) :
  X_ F = Buf xs -> V_ F = Buf vs ->
  Z.of_nat (length xs) <= INT_MAX -> atom_in xs a -> atom_in vs a ->
  rd (Mass_ F) a = Some v ->
  length vpre = length pre ->
  copy_XVM F (pre ++ a0 :: b0 :: c0 :: rest, vpre ++ d0 :: e0 :: f0 :: vrest, m,
              Z.of_nat (length pre)) a
  = Some (pre ++ atom_cells xs a ++ rest, vpre ++ atom_cells vs a ++ vrest, m ++ [v],
          Z.of_nat (length pre) + 3).
Proof.
  intros HX HV Hs Ha Hva Hv Hl.
  destruct (atom_cells_rd xs a Ha) as (p & q & r & Hc & Hp & Hq & Hr).
  destruct (atom_cells_rd vs a Hva) as (p' & q' & r' & Hc' & Hp' & Hq' & Hr').
  unfold copy_XVM. rewrite HX, HV. cbn [cells_of mbind option_bind].
  rewrite (imul3_atom xs a Hs Ha).
  rewrite (memcpy3_middle pre rest xs a0 b0 c0 p q r _ _ eq_refl Hp Hq Hr).
  cbn [mbind option_bind].
  assert (Hoff : Z.of_nat (length pre) = Z.of_nat (length vpre)) by (rewrite Hl; reflexivity).
  rewrite (memcpy3_middle vpre vrest vs d0 e0 f0 p' q' r' _ _ Hoff Hp' Hq' Hr').
  cbn [mbind option_bind]. rewrite Hv, Hc, Hc'. reflexivity.
Qed.

Lemma copy_XVM_loop (F : Frame) (xs vs : list double) (mask : list Z) :
  X_ F = Buf xs -> V_ F = Buf vs ->
  Z.of_nat (length xs) <= INT_MAX ->
  Forall (atom_in xs) mask ->
  Forall (atom_in vs) mask ->
  Forall (mass_in (Mass_ F)) mask ->
  forall pre mid rest vpre vmid vrest m,
    length mid = (3 * length mask)%nat ->
    length vmid = (3 * length mask)%nat ->
    length vpre = length pre ->
    foldlM (copy_XVM F) mask (pre ++ mid ++ rest, vpre ++ vmid ++ vrest, m,
                              Z.of_nat (length pre))
    = Some (pre ++ gather xs mask ++ rest, vpre ++ gather vs mask ++ vrest,
            m ++ select_masses (Mass_ F) mask,
            Z.of_nat (length pre) + 3 * Z.of_nat (length mask)).
Proof.
  intros HX HV Hs Hall. induction Hall as [|a mask Ha Hall IH];
    intros Hvall Hm pre mid rest vpre vmid vrest m Hlen Hvlen Hpre.
  - destruct mid; [|discriminate]. destruct vmid; [|discriminate].
    simpl. rewrite app_nil_r. loop_done.
  - destruct (length3 mid _ Hlen) as (a0 & b0 & c0 & mid' & -> & Hlen').
    destruct (length3 vmid _ Hvlen) as (d0 & e0 & f0 & vmid' & -> & Hvlen').
    apply Forall_cons in Hm as [Hma Hm].
    apply Forall_cons in Hvall as [Hva Hvall].
    destruct (rd_in _ _ Hma) as [v Hv].
    cbn [foldlM]. rewrite <- !app_comm_cons.
    rewrite (copy_XVM_step F xs vs pre (mid' ++ rest) vpre (vmid' ++ vrest) m
               a0 b0 c0 d0 e0 f0 v a HX HV Hs Ha Hva Hv Hpre).
    cbn [mbind option_bind]. rewrite (app_assoc pre), (app_assoc vpre).
    replace (Z.of_nat (length pre) + 3) with (Z.of_nat (length (pre ++ atom_cells xs a)))
      by (rewrite length_app, (atom_cells_length _ _ Ha); lia).
    assert (Hpre' : length (vpre ++ atom_cells vs a) = length (pre ++ atom_cells xs a))
      by (rewrite !length_app, (atom_cells_length _ _ Ha),
            (atom_cells_length _ _ Hva), Hpre; reflexivity).
    rewrite (IH Hvall Hm _ _ _ _ _ _ _ Hlen' Hvlen' Hpre').
    rewrite (select_masses_cons _ _ _ _ Hv).
    unfold gather. rewrite !bind_cons, <- !app_assoc, length_app,
      (atom_cells_length _ _ Ha).
    loop_done.
Qed.

Lemma select_masses_length (ms : list double) (mask : AtomMask) :
  Forall (mass_in ms) mask -> length (select_masses ms mask) = length mask.
Proof.
  induction 1 as [|a mask Ha _ IH]; [reflexivity|].
  destruct (rd_in _ _ Ha) as [v Hv].
  rewrite (select_masses_cons _ _ _ _ Hv). simpl. rewrite IH. reflexivity.
Qed.

Lemma select_masses_nil (mask : AtomMask) : select_masses [] mask = [].
Proof.
  induction mask as [|a mask IH]; [reflexivity|].
  unfold select_masses in *. simpl. unfold rd at 1.
  destruct (0 <=? a); rewrite ?lookup_nil; exact IH.
Qed.

Lemma new_double_some (indet : nat -> double) (n : Z) :
  0 <= n -> exists l, new_double indet n = Some l /\ length l = Z.to_nat n.
Proof.
  intros H. unfold new_double. destruct (Z.leb_spec 0 n); [|lia].
  eexists. split; [reflexivity|]. rewrite length_fmap, length_seq. reflexivity.
Qed.

(** C4 (amended): for a source frame whose coordinate array holds every atom the
    mask selects (and whose mass and velocity arrays do, where they are read),
    the masked-copy constructor returns a frame of [Nselected M] atoms whose
    coordinates are the selected atoms in mask order, with box and
    temperature copied verbatim.  For a non-empty mask masses are copied iff
    the source has masses and velocities are copied iff the source has both
    masses and velocities; for an empty mask nothing is allocated. *)
Theorem Frame_of_mask_spec (indet : nat -> double) (F : Frame) (M : AtomMask)
    (xs : list double) :
  X_ F = Buf xs ->
  Z.of_nat (length xs) <= INT_MAX ->
  3 * Nselected M <= INT_MAX ->
  Forall (atom_in xs) M ->
  (Mass_ F <> [] -> Forall (mass_in (Mass_ F)) M) ->
  velocities_readable F M ->
  Frame_of_mask indet F M = Some (masked_copy F xs M) /\
  natom_ (masked_copy F xs M) = Nselected M /\
  has_velocities (masked_copy F xs M)
    = negb (bool_decide (M = [])) && has_masses F && has_velocities F /\
  has_masses (masked_copy F xs M) = negb (bool_decide (M = [])) && has_masses F /\
  box_ (masked_copy F xs M) = box_ F /\
  T_ (masked_copy F xs M) = T_ F.
Proof.
  intros HX Hs HM Hall Hmass Hvel.
  assert (Hn : imul (Nselected M) 3 = 3 * Nselected M).
  { unfold imul. rewrite int_wrap_id; [lia|]. apply in_int_small.
    unfold Nselected in *. lia. }
  split.
  - unfold Frame_of_mask. rewrite Hn.
    destruct M as [|a M']; [reflexivity|].
    set (M := a :: M') in *.
    destruct (Z.ltb_spec 0 (3 * Nselected M)) as [Hpos|Hpos];
      [|unfold Nselected, M in Hpos; simpl in Hpos; lia].
    destruct (new_double_some indet (3 * Nselected M) ltac:(lia)) as (nx & -> & Hnx).
    cbn [mbind option_bind].
    assert (Hlen : length nx = (3 * length M)%nat) by (unfold Nselected in Hnx; lia).
    destruct (Mass_ F) as [|m0 ms] eqn:EM; cbn [vec_empty negb].
    + pose proof (gather_loop xs M Hs Hall [] nx [] ltac:(rewrite Hlen; reflexivity)) as G.
      rewrite app_nil_r in G. cbn [app length] in G; change (Z.of_nat 0) with 0 in G. rewrite HX, G.
      cbn [mbind option_bind]. rewrite ?app_nil_r.
      unfold masked_copy, M. rewrite EM, select_masses_nil. reflexivity.
    + specialize (Hmass ltac:(discriminate)).
      unfold velocities_readable in Hvel. rewrite EM in Hvel.
      destruct (V_ F) as [|vs|] eqn:EV; cbn [is_null negb]; [| |discriminate].
      * pose proof (copy_XM_loop F xs M HX Hs Hall
                      ltac:(rewrite EM; exact Hmass) [] nx [] []
                      ltac:(rewrite Hlen; reflexivity)) as G.
        rewrite app_nil_r in G. cbn [app length] in G; change (Z.of_nat 0) with 0 in G. rewrite G.
        cbn [mbind option_bind]. rewrite ?app_nil_r.
        unfold masked_copy, M. rewrite EM, EV. reflexivity.
      * cbn [mbind option_bind].
        pose proof (copy_XVM_loop F xs vs M HX EV Hs Hall Hvel
                      ltac:(rewrite EM; exact Hmass) [] nx [] [] nx [] []
                      ltac:(rewrite Hlen; reflexivity)
                      ltac:(rewrite Hlen; reflexivity) eq_refl) as G.
        rewrite !app_nil_r in G. cbn [app length] in G; change (Z.of_nat 0) with 0 in G. rewrite G.
        cbn [mbind option_bind]. rewrite ?app_nil_r.
        unfold masked_copy, M. rewrite EM, EV. reflexivity.
  - unfold masked_copy, has_velocities, has_masses.
    destruct M as [|a M']; [repeat split; reflexivity|].
    cbn [natom_ V_ Mass_ box_ T_].
    rewrite bool_decide_eq_false_2 by discriminate. cbn [negb andb].
    repeat split.
    + unfold velocities_readable in Hvel.
      destruct (Mass_ F); [reflexivity|]. destruct (V_ F); try reflexivity.
      discriminate Hvel.
    + destruct (Mass_ F) as [|m0 ms] eqn:EM.
      * rewrite select_masses_nil. reflexivity.
      * specialize (Hmass ltac:(discriminate)).
        pose proof (select_masses_length _ _ Hmass) as L.
        destruct (select_masses (m0 :: ms) (a :: M')); [discriminate L|reflexivity].
Qed.

Lemma Frame_of_mask_spec_witness :
  Frame_of_mask (fun _ => dzero) masked_src [2; 0]
  = Some (mkFrame 2 2 6 zero_box 300%float (Buf [7; 8; 9; 1; 2; 3]%float)
            (Buf [70; 80; 90; 10; 20; 30]%float) [16; 12]%float).
Proof.
  pose proof (Frame_of_mask_spec (fun _ => dzero) masked_src [2; 0]
                [1; 2; 3; 4; 5; 6; 7; 8; 9]%float eq_refl) as H.
  destruct H as [H _]; try (unfold INT_MAX, Nselected; simpl; lia).
  - repeat constructor; simpl; lia.
  - intros _. repeat constructor; simpl; lia.
  - repeat constructor; simpl; lia.
  - exact H.
Defined.

(** C4, as stated, fails: a source frame with velocities but no masses is
    copied without its velocities; and a source frame with masses and
    velocities copied through an empty mask has neither. *)
Lemma Frame_of_mask_drops_velocities :
  (has_velocities F_velocity_no_mass = true /\
   exists r, Frame_of_mask (fun _ => dzero) F_velocity_no_mass [0] = Some r /\
             natom_ r = 1 /\ X_ r = Buf [1; 2; 3]%float /\
             has_velocities r = false) /\
  (has_velocities masked_src = true /\ has_masses masked_src = true /\
   exists r, Frame_of_mask (fun _ => dzero) masked_src [] = Some r /\
             has_velocities r = false /\ has_masses r = false).
Proof.
  split.
  - split; [reflexivity|]. eexists. split; [vm_compute; reflexivity|].
    repeat split; reflexivity.
  - split; [reflexivity|]. split; [reflexivity|].
    eexists. split; [vm_compute; reflexivity|]. split; reflexivity.
Qed.

(** ** Atom maps *)

Lemma positions_from_length (mapIn : list Z) (k : Z) :
  length (positions_from k mapIn) = length (mapped mapIn).
Proof.
  revert k. induction mapIn as [|m t IH]; intros k; [reflexivity|].
  unfold mapped in *. simpl. destruct (Z.eqb_spec m (-1)) as [->|Hne].
  - rewrite filter_cons_False by (intros H; apply H; reflexivity). apply IH.
  - rewrite filter_cons_True by exact Hne. simpl. rewrite IH. reflexivity.
Qed.

Lemma mapped_length_le (mapIn : list Z) : (length (mapped mapIn) <= length mapIn)%nat.
Proof. apply length_filter. Qed.

Lemma ref_step_skip (rx : buffer) (st : buffer * Z * Z) :
  ref_step rx st (-1) = Some (st.1.1, st.1.2, st.2 + 3).
Proof. destruct st as [[d o] r]. reflexivity. Qed.

Lemma ref_step_copy (rx pre rest : list double) (a0 b0 c0 : double) (m k : Z) :
  m <> -1 -> atom_in rx k ->
  ref_step (Buf rx) (Buf (pre ++ a0 :: b0 :: c0 :: rest), Z.of_nat (length pre), 3 * k) m
  = Some (Buf (pre ++ atom_cells rx k ++ rest), Z.of_nat (length pre) + 3, 3 * k + 3).
Proof.
  intros Hm Ha. unfold ref_step.
  destruct (Z.eqb_spec m (-1)) as [|_]; [contradiction|]. cbn [negb].
  destruct (atom_cells_rd rx k Ha) as (p & q & r & Hc & Hp & Hq & Hr).
  cbn [cells_of mbind option_bind].
  rewrite (memcpy3_middle pre rest rx a0 b0 c0 p q r _ _ eq_refl Hp Hq Hr), Hc.
  reflexivity.
Qed.

Lemma ref_loop (rx : list double) (mapIn : list Z) :
  forall k pre tail,
    0 <= k ->
    3 * (k + Z.of_nat (length mapIn)) <= Z.of_nat (length rx) ->
    (3 * length (mapped mapIn) <= length tail)%nat ->
    foldlM (ref_step (Buf rx)) mapIn (Buf (pre ++ tail), Z.of_nat (length pre), 3 * k)
    = Some (Buf (pre ++ gather rx (positions_from k mapIn)
                     ++ drop (3 * length (mapped mapIn)) tail),
            Z.of_nat (length pre) + 3 * Z.of_nat (length (mapped mapIn)),
            3 * (k + Z.of_nat (length mapIn))).
Proof.
  induction mapIn as [|m t IH]; intros k pre tail Hk Hrx Htail.
  - simpl. loop_done.
  - cbn [foldlM positions_from]. unfold mapped in *.
    cbn [length] in Hrx.
    destruct (Z.eqb_spec m (-1)) as [->|Hne].
    + rewrite filter_cons_False in * by (intros H; apply H; reflexivity).
      rewrite ref_step_skip. cbn [mbind option_bind fst snd].
      replace (3 * k + 3) with (3 * (k + 1)) by lia.
      rewrite (IH (k + 1) pre tail ltac:(lia) ltac:(lia) Htail).
      loop_done.
    + rewrite filter_cons_True in * by exact Hne. cbn [length] in Htail.
      destruct tail as [|a0 [|b0 [|c0 tail']]]; try (simpl in Htail; lia).
      assert (Ha : atom_in rx k) by (unfold atom_in; lia).
      rewrite (ref_step_copy rx pre tail' a0 b0 c0 m k Hne Ha).
      cbn [mbind option_bind]. rewrite (app_assoc pre).
      replace (Z.of_nat (length pre) + 3) with (Z.of_nat (length (pre ++ atom_cells rx k)))
        by (rewrite length_app, (atom_cells_length _ _ Ha); lia).
      replace (3 * k + 3) with (3 * (k + 1)) by lia.
      rewrite (IH (k + 1) _ tail' ltac:(lia) ltac:(lia) ltac:(simpl in Htail; lia)).
      unfold gather. rewrite bind_cons, <- !app_assoc, length_app,
        (atom_cells_length _ _ Ha).
      cbn [length]. set (cnt := length (filter _ t)) in *.
      replace (3 * S cnt)%nat with (3 + 3 * cnt)%nat by lia.
      rewrite <- drop_drop. cbn [drop length app].
      loop_done.
Qed.

Lemma tgt_step_skip (tx : buffer) (st : buffer * Z) : tgt_step tx st (-1) = Some st.
Proof. reflexivity. Qed.

Lemma tgt_step_copy (tx : buffer) (st : buffer * Z) (m : Z) :
  m <> -1 -> tgt_step tx st m = copy_X tx st m.
Proof.
  intros Hm. unfold tgt_step. destruct (Z.eqb_spec m (-1)); [contradiction|reflexivity].
Qed.

Lemma tgt_loop (tx : list double) (mapIn : list Z) :
  Z.of_nat (length tx) <= INT_MAX ->
  Forall (entry_ok tx) mapIn ->
  forall pre tail,
    (3 * length (mapped mapIn) <= length tail)%nat ->
    foldlM (tgt_step (Buf tx)) mapIn (Buf (pre ++ tail), Z.of_nat (length pre))
    = Some (Buf (pre ++ gather tx (mapped mapIn)
                     ++ drop (3 * length (mapped mapIn)) tail),
            Z.of_nat (length pre) + 3 * Z.of_nat (length (mapped mapIn))).
Proof.
  intros Hs Hall. induction Hall as [|m t Hm Hall IH]; intros pre tail Htail.
  - simpl. loop_done.
  - cbn [foldlM]. unfold mapped in *.
    destruct (Z.eq_dec m (-1)) as [->|Hne].
    + rewrite filter_cons_False in * by (intros H; apply H; reflexivity).
      rewrite tgt_step_skip. cbn [mbind option_bind]. apply (IH pre tail Htail).
    + rewrite filter_cons_True in * by exact Hne. cbn [length] in Htail.
      destruct Hm as [Hm|Ha]; [contradiction|].
      destruct tail as [|a0 [|b0 [|c0 tail']]]; try (simpl in Htail; lia).
      rewrite (tgt_step_copy _ _ _ Hne), (copy_X_step tx pre tail' a0 b0 c0 m Hs Ha).
      cbn [mbind option_bind]. rewrite (app_assoc pre).
      replace (Z.of_nat (length pre) + 3) with (Z.of_nat (length (pre ++ atom_cells tx m)))
        by (rewrite length_app, (atom_cells_length _ _ Ha); lia).
      rewrite (IH _ tail' ltac:(simpl in Htail; lia)).
      unfold gather. rewrite bind_cons, <- !app_assoc, length_app,
        (atom_cells_length _ _ Ha).
      cbn [length]. set (cnt := length (filter _ t)) in *.
      replace (3 * S cnt)%nat with (3 + 3 * cnt)%nat by lia.
      rewrite <- drop_drop. cbn [drop length app].
      loop_done.
Qed.

Lemma idiv3 (n : Z) : 0 <= 3 * n <= INT_MAX -> idiv (3 * n) 3 = n.
Proof.
  intros H. unfold idiv. rewrite (Z.mul_comm 3 n), Z.quot_mul by lia.
  apply int_wrap_id, in_int_small. lia.
Qed.

(** C5: with a map as long as the source's atom count and enough capacity,
    [SetReferenceByMap] writes the source atoms at the positions whose map
    entry is not -1 into consecutive output slots, [SetTargetByMap] writes
    the source atoms named by the entries that are not -1, and both set the
    atom count to the number of entries that are not -1. *)
Theorem map_copies_spec (this src : Frame) (mapIn : list Z) (x sx : list double) :
  X_ this = Buf x ->
  X_ src = Buf sx ->
  Z.of_nat (length mapIn) = natom_ src ->
  natom_ src <= maxnatom_ this ->
  3 * maxnatom_ this <= Z.of_nat (length x) ->
  3 * natom_ src <= Z.of_nat (length sx) ->
  Z.of_nat (length x) <= INT_MAX ->
  Z.of_nat (length sx) <= INT_MAX ->
  let n := length (mapped mapIn) in
  SetReferenceByMap this src mapIn
  = Some (with_X (with_counts this (Z.of_nat n) (3 * Z.of_nat n))
            (Buf (gather sx (positions_from 0 mapIn) ++ drop (3 * n) x)), [])
  /\ (Forall (fun m => m = -1 \/ 0 <= m < natom_ src) mapIn ->
      SetTargetByMap this src mapIn
      = Some (with_X (with_counts this (Z.of_nat n) (3 * Z.of_nat n))
                (Buf (gather sx (mapped mapIn) ++ drop (3 * n) x)), [])).
Proof.
  intros HX HS Hmap Hcap Hx Hsx Hxi Hsi n.
  pose proof (mapped_length_le mapIn) as Hn. fold n in Hn.
  assert (Hlt : (maxnatom_ this <? natom_ src) = false) by (apply Z.ltb_ge; lia).
  assert (Hsz : (int_wrap (Z.of_nat (length mapIn)) =? natom_ src) = true).
  { rewrite int_wrap_id; [apply Z.eqb_eq; exact Hmap|]. apply in_int_small. lia. }
  assert (Htail : (3 * n <= length x)%nat) by lia.
  assert (Hw : int_wrap (0 + 3 * Z.of_nat n) = 3 * Z.of_nat n).
  { apply int_wrap_id, in_int_small. lia. }
  split.
  - unfold SetReferenceByMap. rewrite Hlt, Hsz, HX, HS. cbn [negb].
    pose proof (ref_loop sx mapIn 0 [] x ltac:(lia) ltac:(lia) Htail) as G.
    cbn [app length] in G. change (Z.of_nat 0) with 0 in G. change (3 * 0) with 0 in G.
    rewrite G. cbn [mbind option_bind]. fold n.
    rewrite Hw, idiv3 by lia. reflexivity.
  - intros Hall. unfold SetTargetByMap. rewrite Hlt, Hsz, HX, HS. cbn [negb].
    assert (Hok : Forall (entry_ok sx) mapIn).
    { eapply Forall_impl; [exact Hall|]. intros m [Hm|Hm]; [left; exact Hm|right].
      unfold atom_in. lia. }
    pose proof (tgt_loop sx mapIn Hsi Hok [] x Htail) as G.
    cbn [app length] in G. change (Z.of_nat 0) with 0 in G.
    rewrite G. cbn [mbind option_bind]. fold n.
    rewrite Hw, idiv3 by lia. reflexivity.
Qed.

Lemma map_copies_spec_witness :
  SetReferenceByMap map_dst map_src [2; -1; 0]
  = Some (with_X (with_counts map_dst 2 6)
            (Buf [1; 2; 3; 7; 8; 9; 0; 0; 0]%float), [])
  /\ SetTargetByMap map_dst map_src [2; -1; 0]
     = Some (with_X (with_counts map_dst 2 6)
               (Buf [7; 8; 9; 1; 2; 3; 0; 0; 0]%float), []).
Proof.
  pose proof (map_copies_spec map_dst map_src [2; -1; 0]
                (replicate 9 dzero) [1; 2; 3; 4; 5; 6; 7; 8; 9]%float
                eq_refl eq_refl eq_refl) as H.
  cbv zeta in H.
  destruct H as [H1 H2]; try (unfold INT_MAX; simpl; lia).
  split; [exact H1|]. apply H2.
  repeat constructor; simpl; lia.
Defined.

(** ** Accumulation by mask *)

Lemma add_cell_middle (s pre rest : list double) (a b : double) (xi fi : Z) :
  xi = Z.of_nat (length pre) -> rd s fi = Some b ->
  add_cell (Buf s) (Buf (pre ++ a :: rest)) xi fi
  = Some (Buf (pre ++ (a + b)%float :: rest)).
Proof.
  intros Hxi Hb. unfold add_cell. cbn [cells_of mbind option_bind].
  rewrite (rd_middle _ _ _ _ Hxi), Hb. cbn [mbind option_bind].
  rewrite (wr_middle _ _ _ _ _ Hxi). reflexivity.
Qed.

Lemma add_atom_step (s pre rest : list double) (a0 b0 c0 p q r : double) (a : Z) :
  Z.of_nat (length s) <= INT_MAX ->
  Z.of_nat (length pre) + 3 < 2 ^ 32 ->
  atom_in s a -> atom_cells s a = [p; q; r] ->
  add_atom (Buf s) (Buf (pre ++ a0 :: b0 :: c0 :: rest), Z.of_nat (length pre)) a
  = Some (Buf (pre ++ (a0 + p)%float :: (b0 + q)%float :: (c0 + r)%float :: rest),
          Z.of_nat (length pre) + 3).
Proof.
  intros Hs Hpre Ha Hc.
  destruct (atom_cells_rd s a Ha) as (p' & q' & r' & Hc' & Hp & Hq & Hr).
  rewrite Hc in Hc'. injection Hc' as <- <- <-.
  unfold add_atom, uadd. rewrite (imul3_atom s a Hs Ha).
  assert (Hf : uint_wrap (3 * a) = 3 * a).
  { apply uint_wrap_id. destruct Ha. unfold INT_MAX in Hs. lia. }
  pose proof Ha as Ha'.
  rewrite Hf.
  destruct Ha as [Ha0 Ha1]. unfold INT_MAX in Hs.
  rewrite (uint_wrap_id (3 * a + 1)), (uint_wrap_id (3 * a + 2)) by lia.
  rewrite (uint_wrap_id (Z.of_nat (length pre) + 1)),
    (uint_wrap_id (Z.of_nat (length pre) + 2)),
    (uint_wrap_id (Z.of_nat (length pre) + 3)) by lia.
  rewrite (add_cell_middle s pre _ a0 p _ _ eq_refl Hp). cbn [mbind option_bind].
  change (pre ++ (a0 + p)%float :: b0 :: c0 :: rest)
    with (pre ++ [(a0 + p)%float] ++ b0 :: c0 :: rest).
  rewrite app_assoc.
  assert (E1 : Z.of_nat (length pre) + 1 = Z.of_nat (length (pre ++ [(a0 + p)%float])))
    by (rewrite length_app; cbn [length]; lia).
  rewrite (add_cell_middle s _ _ b0 q _ _ E1 Hq).
  cbn [mbind option_bind]. rewrite <- app_assoc. cbn [app].
  change (pre ++ (a0 + p)%float :: (b0 + q)%float :: c0 :: rest)
    with (pre ++ [(a0 + p)%float; (b0 + q)%float] ++ c0 :: rest).
  rewrite app_assoc.
  assert (E2 : Z.of_nat (length pre) + 2
               = Z.of_nat (length (pre ++ [(a0 + p)%float; (b0 + q)%float])))
    by (rewrite length_app; cbn [length]; lia).
  rewrite (add_cell_middle s _ _ c0 r _ _ E2 Hr).
  cbn [mbind option_bind]. rewrite <- app_assoc. reflexivity.
Qed.

Lemma add_loop (s : list double) (mask : list Z) :
  Z.of_nat (length s) <= INT_MAX ->
  Forall (atom_in s) mask ->
  forall pre mid rest,
    length mid = (3 * length mask)%nat ->
    Z.of_nat (length pre) + 3 * Z.of_nat (length mask) < 2 ^ 32 ->
    foldlM (add_atom (Buf s)) mask (Buf (pre ++ mid ++ rest), Z.of_nat (length pre))
    = Some (Buf (pre ++ zip_with PrimFloat.add mid (gather s mask) ++ rest),
            Z.of_nat (length pre) + 3 * Z.of_nat (length mask)).
Proof.
  intros Hs Hall. induction Hall as [|a mask Ha Hall IH]; intros pre mid rest Hlen Hpre.
  - destruct mid; [|discriminate]. simpl. loop_done.
  - destruct (length3 mid _ Hlen) as (a0 & b0 & c0 & mid' & -> & Hlen').
    destruct (atom_cells_split s a Ha) as (p & q & r & srest & _ & Hc & _).
    cbn [length] in Hpre.
    cbn [foldlM]. rewrite <- !app_comm_cons.
    rewrite (add_atom_step s pre (mid' ++ rest) a0 b0 c0 p q r a Hs ltac:(lia) Ha Hc).
    cbn [mbind option_bind].
    replace (pre ++ (a0 + p)%float :: (b0 + q)%float :: (c0 + r)%float :: mid' ++ rest)
      with ((pre ++ [(a0 + p)%float; (b0 + q)%float; (c0 + r)%float]) ++ mid' ++ rest)
      by (rewrite <- app_assoc; reflexivity).
    replace (Z.of_nat (length pre) + 3)
      with (Z.of_nat (length (pre ++ [(a0 + p)%float; (b0 + q)%float; (c0 + r)%float])))
      by (rewrite length_app; cbn [length]; lia).
    rewrite (IH _ _ _ Hlen') by (rewrite length_app; cbn [length]; lia).
    unfold gather. rewrite bind_cons, Hc, <- !app_assoc, length_app.
    cbn [zip_with app]. loop_done.
Qed.

(** C10: with a mask no larger than the capacity, [AddByMask] adds the
    source's masked atoms, in mask order, to the first [mask.size()] atoms of
    this frame; later coordinates, the counts, box, temperature, masses and
    velocities are unchanged, and no error is reported. *)
Theorem AddByMask_spec (this frameIn : Frame) (maskIn : AtomMask) (x s : list double) :
  X_ this = Buf x ->
  X_ frameIn = Buf s ->
  Nselected maskIn <= maxnatom_ this ->
  3 * maxnatom_ this <= Z.of_nat (length x) ->
  Z.of_nat (length x) <= INT_MAX ->
  Z.of_nat (length s) <= INT_MAX ->
  Forall (atom_in s) maskIn ->
  let n := (3 * length maskIn)%nat in
  exists r,
    AddByMask this frameIn maskIn = Some (r, []) /\
    X_ r = Buf (zip_with PrimFloat.add (take n x) (gather s maskIn) ++ drop n x) /\
    natom_ r = natom_ this /\ maxnatom_ r = maxnatom_ this /\
    ncoord_ r = ncoord_ this /\ box_ r = box_ this /\ T_ r = T_ this /\
    Mass_ r = Mass_ this /\ V_ r = V_ this.
Proof.
  intros HX HS Hcap Hx Hxi Hsi Hall n.
  unfold Nselected in Hcap.
  assert (Hlt : (maxnatom_ this <? Nselected maskIn) = false)
    by (apply Z.ltb_ge; unfold Nselected; lia).
  unfold AddByMask. rewrite Hlt, HX, HS.
  pose proof (add_loop s maskIn Hsi Hall [] (take n x) (drop n x)
                ltac:(rewrite length_take; unfold n; lia)
                ltac:(cbn [length]; unfold INT_MAX in Hxi; lia)) as G.
  cbn [app length] in G. change (Z.of_nat 0) with 0 in G.
  rewrite take_drop in G. rewrite G. cbn [mbind option_bind].
  eexists. split; [reflexivity|]. repeat split; reflexivity.
Qed.

Lemma AddByMask_spec_witness :
  exists r,
    AddByMask add_dst map_src [2; 0] = Some (r, []) /\
    X_ r = Buf [17; 28; 39; 41; 52; 63; 70; 80; 90]%float /\
    natom_ r = 3 /\ maxnatom_ r = 3 /\ ncoord_ r = 9 /\
    box_ r = zero_box /\ T_ r = dzero /\ Mass_ r = [] /\ V_ r = NULL.
Proof.
  apply (AddByMask_spec add_dst map_src [2; 0]
           [10; 20; 30; 40; 50; 60; 70; 80; 90]%float
           [1; 2; 3; 4; 5; 6; 7; 8; 9]%float eq_refl eq_refl);
    try (unfold INT_MAX, Nselected; simpl; lia).
  repeat constructor; simpl; lia.
Defined.

(** ** The cached coordinate count *)

Lemma imul3_id (n : Z) : in_int (n * 3) -> imul n 3 = n * 3.
Proof. apply int_wrap_id. Qed.

Lemma coord_inv_counts (f : Frame) (n : Z) :
  in_int (n * 3) -> coord_inv (with_counts f n (imul n 3)).
Proof. intros H. unfold coord_inv. simpl. apply imul3_id, H. Qed.

(** Splits a successful run of a method into the successful runs of its
    parts. *)
Ltac run_cases H :=
  repeat match type of H with
         | (if ?b then _ else _) = Some _ => destruct b eqn:?
         | (match ?x with _ => _ end) = Some _ => destruct x eqn:?
         | (_ ≫= _) = Some _ =>
             let E := fresh "E" in
             apply bind_Some in H as (? & E & H)
         | (_ <$> _) = Some _ =>
             let E := fresh "E" in
             apply fmap_Some in H as (? & E & H)
         | (let '(_, _) := ?p in _) = Some _ => destruct p
         | None = Some _ => discriminate H
         end.

Lemma Frame_default_inv : coord_inv Frame_default.
Proof. reflexivity. Qed.

Lemma Frame_of_natom_inv (indet : nat -> double) (n : Z) (r : Frame) :
  in_int (n * 3) -> Frame_of_natom indet n = Some r -> coord_inv r.
Proof.
  intros Hn H. unfold Frame_of_natom in H. run_cases H.
  injection H as <-. apply imul3_id, Hn.
Qed.

Ltac inv_done :=
  simplify_eq;
  unfold coord_inv in *;
  cbn [ncoord_ natom_ with_X with_V with_Mass with_counts with_max with_box with_T
       fst snd] in *;
  try assumption; try (apply imul3_id; assumption).

Lemma in_int_atoms {A} (l : list A) :
  3 * Z.of_nat (length l) <= INT_MAX -> in_int (Z.of_nat (length l)).
Proof. intros H. apply in_int_small. lia. Qed.

Lemma in_int_atoms3 {A} (l : list A) :
  3 * Z.of_nat (length l) <= INT_MAX -> in_int (Z.of_nat (length l) * 3).
Proof. intros H. apply in_int_small. lia. Qed.

Lemma Frame_of_atoms_inv (indet : nat -> double) (atoms : list Atom) (r : Frame) :
  3 * Z.of_nat (length atoms) <= INT_MAX ->
  Frame_of_atoms indet atoms = Some r -> coord_inv r.
Proof.
  intros Hn H. unfold Frame_of_atoms in H.
  rewrite (int_wrap_id _ (in_int_atoms _ Hn)) in H.
  run_cases H; inv_done; apply imul3_id, in_int_atoms3, Hn.
Qed.

Lemma Frame_of_mask_inv (indet : nat -> double) (F : Frame) (M : AtomMask) (r : Frame) :
  3 * Nselected M <= INT_MAX ->
  Frame_of_mask indet F M = Some r -> coord_inv r.
Proof.
  intros Hn H. unfold Frame_of_mask in H.
  run_cases H; inv_done; apply imul3_id, in_int_atoms3, Hn.
Qed.

Lemma Frame_copy_inv (indet : nat -> double) (rhs r : Frame) :
  coord_inv rhs -> Frame_copy indet rhs = Some r -> coord_inv r.
Proof. intros Hi H. unfold Frame_copy in H. run_cases H. inv_done. Qed.

Lemma operator_assign_inv (indet : nat -> double) (this rhs r : Frame) :
  coord_inv rhs -> operator_assign indet this rhs = Some r -> coord_inv r.
Proof.
  intros Hi H. unfold operator_assign in H. run_cases H. inv_done.
  eapply Frame_copy_inv; eassumption.
Qed.

Lemma swap_inv (a b : Frame) :
  coord_inv a -> coord_inv b -> coord_inv (swap a b).1 /\ coord_inv (swap a b).2.
Proof. intros Ha Hb. split; assumption. Qed.

Lemma SetFromCRD_mask_inv (this : Frame) (farray : list double) (numBoxCrd : Z)
    (mask : AtomMask) (r : Frame) (l : log) :
  coord_inv this -> 3 * Nselected mask <= INT_MAX ->
  SetFromCRD_mask this farray numBoxCrd mask = Some (r, l) -> coord_inv r.
Proof.
  intros Hi Hn H. unfold SetFromCRD_mask in H.
  run_cases H; inv_done; apply imul3_id, in_int_atoms3, Hn.
Qed.

(** [SetFromCRD] keeps the invariant when the array holds whole atoms. *)
Lemma SetFromCRD_inv_whole_atoms (this : Frame) (farray : list double) (numBoxCrd : Z)
    (r : Frame) (l : log) (n : Z) :
  coord_inv this ->
  Z.of_nat (length farray) <= INT_MAX -> in_int numBoxCrd ->
  Z.of_nat (length farray) - numBoxCrd = 3 * n -> in_int (3 * n) ->
  SetFromCRD this farray numBoxCrd = Some (r, l) -> coord_inv r.
Proof.
  intros Hi Hlen Hb Hn Hr H. unfold SetFromCRD in H.
  rewrite (int_wrap_id (Z.of_nat _)) in H by (apply in_int_small; lia).
  unfold isub in H. rewrite Hn, (int_wrap_id _ Hr) in H.
  run_cases H; inv_done.
  all: unfold idiv; rewrite (Z.mul_comm 3 n), Z.quot_mul by lia;
    rewrite int_wrap_id; [lia|]; unfold in_int, INT_MIN, INT_MAX in *; lia.
Qed.

Lemma ReallocateX_counts (indet : nat -> double) (this r : Frame) :
  ReallocateX indet this = Some r ->
  natom_ r = natom_ this /\ ncoord_ r = ncoord_ this.
Proof. intros H. unfold ReallocateX in H. run_cases H; inv_done; split; reflexivity. Qed.

Lemma append_xyz_inv (indet : nat -> double) (this r : Frame) (src : list double) :
  coord_inv this -> in_int (natom_ this * 3 + 3) -> 0 <= natom_ this ->
  append_xyz indet this src = Some r -> coord_inv r.
Proof.
  intros Hi Hn H0 H. unfold append_xyz in H. unfold coord_inv in Hi.
  assert (Hc : forall f, natom_ f = natom_ this /\ ncoord_ f = ncoord_ this ->
               iadd (ncoord_ f) 3 = iadd (natom_ f) 1 * 3).
  { intros f [-> ->]. unfold iadd. rewrite Hi.
    rewrite !int_wrap_id; unfold in_int, INT_MIN, INT_MAX in *; lia. }
  run_cases H; inv_done; apply Hc.
  match goal with E : (if _ then _ else _) = Some _ |- _ => run_cases E end.
  - eapply ReallocateX_counts; eassumption.
  - inv_done. split; reflexivity.
Qed.

Lemma AddXYZ_inv (indet : nat -> double) (this r : Frame) (XYZin : buffer) :
  coord_inv this -> in_int (natom_ this * 3 + 3) -> 0 <= natom_ this ->
  AddXYZ indet this XYZin = Some r -> coord_inv r.
Proof.
  intros Hi Hn H0 H. unfold AddXYZ in H. destruct XYZin; [inv_done| |discriminate].
  eapply append_xyz_inv; eassumption.
Qed.

Lemma AddVec3_inv (indet : nat -> double) (this r : Frame) (vIn : Vec3) :
  coord_inv this -> in_int (natom_ this * 3 + 3) -> 0 <= natom_ this ->
  AddVec3 indet this vIn = Some r -> coord_inv r.
Proof. intros Hi Hn H0 H. eapply append_xyz_inv; eassumption. Qed.

Lemma grow_X_counts (indet : nat -> double) (this r : Frame) (b : bool) :
  grow_X indet this = Some (r, b) ->
  natom_ r = natom_ this /\ ncoord_ r = ncoord_ this.
Proof. intros H. unfold grow_X in H. run_cases H; inv_done; split; reflexivity. Qed.

Lemma grow_X_inv (indet : nat -> double) (this r : Frame) (b : bool) :
  coord_inv this -> grow_X indet this = Some (r, b) -> coord_inv r.
Proof.
  intros Hi H. destruct (grow_X_counts _ _ _ _ H) as [Hn Hc].
  unfold coord_inv in *. rewrite Hn, Hc. exact Hi.
Qed.

Lemma SetupFrame_inv (indet : nat -> double) (this r : Frame) (natomIn status : Z) :
  in_int (natomIn * 3) ->
  SetupFrame indet this natomIn = Some (r, status) -> coord_inv r.
Proof.
  intros Hn H. unfold SetupFrame in H. run_cases H. inv_done.
  eapply grow_X_inv; [|eassumption]. apply coord_inv_counts, Hn.
Qed.

Lemma SetupFrameM_inv (indet : nat -> double) (this r : Frame) (atoms : list Atom)
    (status : Z) :
  3 * Z.of_nat (length atoms) <= INT_MAX ->
  SetupFrameM indet this atoms = Some (r, status) -> coord_inv r.
Proof.
  intros Hn H. unfold SetupFrameM in H.
  rewrite (int_wrap_id _ (in_int_atoms _ Hn)) in H. run_cases H. inv_done.
  eapply grow_X_inv; [|eassumption]. apply coord_inv_counts, in_int_atoms3, Hn.
Qed.

Lemma SetupFrameV_inv (indet : nat -> double) (this r : Frame) (atoms : list Atom)
    (hasVelocity : bool) (status : Z) :
  3 * Z.of_nat (length atoms) <= INT_MAX ->
  SetupFrameV indet this atoms hasVelocity = Some (r, status) -> coord_inv r.
Proof.
  intros Hn H. unfold SetupFrameV in H.
  rewrite (int_wrap_id _ (in_int_atoms _ Hn)) in H. run_cases H. inv_done.
  eapply grow_X_inv; [|eassumption]. apply coord_inv_counts, in_int_atoms3, Hn.
Qed.

Lemma SetupFrameFromMask_inv (indet : nat -> double) (this r : Frame) (maskIn : AtomMask)
    (atoms : list Atom) (status : Z) :
  3 * Nselected maskIn <= INT_MAX ->
  SetupFrameFromMask indet this maskIn atoms = Some (r, status) -> coord_inv r.
Proof.
  intros Hn H. unfold SetupFrameFromMask in H. run_cases H. inv_done.
  eapply grow_X_inv; [|eassumption]. apply coord_inv_counts, in_int_atoms3, Hn.
Qed.

Lemma SetCoordinatesByMask_inv (this r : Frame) (Xin : buffer) (maskIn : AtomMask)
    (l : log) :
  coord_inv this -> 3 * Nselected maskIn <= INT_MAX ->
  SetCoordinatesByMask this Xin maskIn = Some (r, l) -> coord_inv r.
Proof.
  intros Hi Hn H. unfold SetCoordinatesByMask in H.
  run_cases H; inv_done; apply imul3_id, in_int_atoms3, Hn.
Qed.

Lemma SetCoordinates_mask_inv (this frameIn r : Frame) (maskIn : AtomMask) (l : log) :
  coord_inv this -> 3 * Nselected maskIn <= INT_MAX ->
  SetCoordinates_mask this frameIn maskIn = Some (r, l) -> coord_inv r.
Proof.
  intros Hi Hn H. unfold SetCoordinates_mask in H.
  run_cases H; inv_done; apply imul3_id, in_int_atoms3, Hn.
Qed.

Lemma SetCoordinates_inv (this frameIn r : Frame) (l : log) :
  coord_inv this -> in_int (natom_ frameIn * 3) ->
  SetCoordinates this frameIn = Some (r, l) -> coord_inv r.
Proof. intros Hi Hn H. unfold SetCoordinates in H. run_cases H; inv_done. Qed.

Lemma SetFrame_inv (this frameIn r : Frame) (maskIn : AtomMask) (l : log) :
  coord_inv this -> 3 * Nselected maskIn <= INT_MAX ->
  SetFrame this frameIn maskIn = Some (r, l) -> coord_inv r.
Proof.
  intros Hi Hn H. unfold SetFrame in H.
  run_cases H; inv_done; apply imul3_id, in_int_atoms3, Hn.
Qed.

Lemma SetCoordinatesByMap_inv (this tgtIn r : Frame) (mapIn : list Z) (l : log) :
  coord_inv this -> in_int (natom_ tgtIn * 3) ->
  SetCoordinatesByMap this tgtIn mapIn = Some (r, l) -> coord_inv r.
Proof. intros Hi Hn H. unfold SetCoordinatesByMap in H. run_cases H; inv_done. Qed.

Lemma ref_loop_offset (rx : buffer) (mapIn : list Z) :
  forall d off roff d' off' roff',
    foldlM (ref_step rx) mapIn (d, off, roff) = Some (d', off', roff') ->
    off' = off + 3 * Z.of_nat (length (mapped mapIn)).
Proof.
  induction mapIn as [|m t IH]; intros d off roff d' off' roff' H.
  - injection H as <- <- <-. simpl. lia.
  - cbn [foldlM] in H. apply bind_Some in H as ([[d1 off1] roff1] & E & H).
    apply IH in H. unfold mapped in *. unfold ref_step in E.
    destruct (Z.eqb_spec m (-1)) as [->|Hne]; cbn [negb] in E.
    + injection E as <- <- <-.
      rewrite filter_cons_False by (intros F; apply F; reflexivity). exact H.
    + rewrite filter_cons_True by exact Hne. run_cases E. inv_done.
      cbn [length]. lia.
Qed.

Lemma tgt_loop_offset (tx : buffer) (mapIn : list Z) :
  forall d off d' off',
    foldlM (tgt_step tx) mapIn (d, off) = Some (d', off') ->
    off' = off + 3 * Z.of_nat (length (mapped mapIn)).
Proof.
  induction mapIn as [|m t IH]; intros d off d' off' H.
  - injection H as <- <-. simpl. lia.
  - cbn [foldlM] in H. apply bind_Some in H as ([d1 off1] & E & H).
    apply IH in H. unfold mapped in *. unfold tgt_step in E.
    destruct (Z.eqb_spec m (-1)) as [->|Hne]; cbn [negb] in E.
    + injection E as <- <-.
      rewrite filter_cons_False by (intros F; apply F; reflexivity). exact H.
    + rewrite filter_cons_True by exact Hne. unfold copy_X in E.
      run_cases E. inv_done. cbn [length]. lia.
Qed.

Lemma counts_of_offset (this : Frame) (n : nat) :
  3 * Z.of_nat n <= INT_MAX ->
  coord_inv (with_counts this (idiv (int_wrap (0 + 3 * Z.of_nat n)) 3)
               (int_wrap (0 + 3 * Z.of_nat n))).
Proof.
  intros Hn. unfold coord_inv. cbn [ncoord_ natom_ with_counts].
  change (0 + 3 * Z.of_nat n) with (3 * Z.of_nat n).
  rewrite int_wrap_id by (apply in_int_small; lia).
  rewrite idiv3 by lia. lia.
Qed.

Lemma SetReferenceByMap_inv (this refIn r : Frame) (mapIn : list Z) (l : log) :
  coord_inv this -> 3 * Z.of_nat (length mapIn) <= INT_MAX ->
  SetReferenceByMap this refIn mapIn = Some (r, l) -> coord_inv r.
Proof.
  intros Hi Hn H. unfold SetReferenceByMap in H.
  pose proof (mapped_length_le mapIn) as Hle.
  run_cases H; inv_done.
  match goal with E : foldlM _ _ _ = Some _ |- _ => apply ref_loop_offset in E as -> end.
  apply (counts_of_offset this). lia.
Qed.

Lemma SetTargetByMap_inv (this tgtIn r : Frame) (mapIn : list Z) (l : log) :
  coord_inv this -> 3 * Z.of_nat (length mapIn) <= INT_MAX ->
  SetTargetByMap this tgtIn mapIn = Some (r, l) -> coord_inv r.
Proof.
  intros Hi Hn H. unfold SetTargetByMap in H.
  pose proof (mapped_length_le mapIn) as Hle.
  run_cases H; inv_done.
  match goal with E : foldlM _ _ _ = Some _ |- _ => apply tgt_loop_offset in E as -> end.
  apply (counts_of_offset this). lia.
Qed.

Lemma ZeroCoords_inv (this r : Frame) :
  coord_inv this -> ZeroCoords this = Some r -> coord_inv r.
Proof. intros Hi H. unfold ZeroCoords in H. run_cases H; inv_done. Qed.

Lemma elementwise_inv (op : double -> double -> double) (msg : string)
    (this rhs r : Frame) (l : log) :
  coord_inv this -> elementwise op msg this rhs = Some (r, l) -> coord_inv r.
Proof. intros Hi H. unfold elementwise in H. run_cases H; inv_done. Qed.

Lemma Divide_inv (SMALL : double) (this r : Frame) (divisor : double) (l : log) :
  coord_inv this -> Divide SMALL this divisor = Some (r, l) -> coord_inv r.
Proof. intros Hi H. unfold Divide in H. run_cases H; inv_done. Qed.

Lemma Divide_frame_inv (SMALL : double) (this dividend r : Frame) (divisor : double)
    (status : Z) (l : log) :
  coord_inv this -> Divide_frame SMALL this dividend divisor = Some (r, status, l) ->
  coord_inv r.
Proof. intros Hi H. unfold Divide_frame in H. run_cases H; inv_done. Qed.

Lemma AddByMask_inv (this frameIn r : Frame) (maskIn : AtomMask) (l : log) :
  coord_inv this -> AddByMask this frameIn maskIn = Some (r, l) -> coord_inv r.
Proof. intros Hi H. unfold AddByMask in H. run_cases H; inv_done. Qed.

Lemma SCALE_inv (this r : Frame) (maskIn : AtomMask) (sx sy sz : double) :
  coord_inv this -> SCALE this maskIn sx sy sz = Some r -> coord_inv r.
Proof. intros Hi H. unfold SCALE in H. run_cases H; inv_done. Qed.

(** C6, as stated, fails: [SetFromCRD] on an array of four floats and no box values leaves
    [ncoord_ = 4] and [natom_ = 1], so the cached coordinate count is no
    longer three times the atom count. *)
Lemma SetFromCRD_breaks_coord_inv :
  coord_inv crd_dst /\
  exists r,
    SetFromCRD crd_dst [1; 2; 3; 4]%float 0 = Some (r, []) /\
    ncoord_ r = 4 /\ natom_ r = 1 /\ ~ coord_inv r.
Proof.
  split; [reflexivity|]. eexists. split; [vm_compute; reflexivity|].
  repeat split. unfold coord_inv. simpl. lia.
Qed.

(** ** Reachable frames *)

Lemma construct_inv (indet : nat -> double) (k : construction) (f : Frame) :
  constructible k -> construct indet k = Some f -> coord_inv f.
Proof.
  destruct k; cbn [constructible construct]; intros Hk H.
  - injection H as <-. exact Frame_default_inv.
  - exact (Frame_of_natom_inv indet _ _ Hk H).
  - exact (Frame_of_atoms_inv indet _ _ Hk H).
  - exact (Frame_of_mask_inv indet _ _ _ Hk H).
  - exact (Frame_copy_inv indet _ _ Hk H).
Qed.

(** Exposes the full result of a call whose log or status [mutate] drops. *)
Ltac drop_log H :=
  lazymatch type of H with
  | (fst <$> _) = Some _ => apply fmap_Some in H as ([? ?] & H & ->)
  | (_ <$> _) = Some _ => apply fmap_Some in H as ([[? ?] ?] & H & ->)
  | _ => idtac
  end.

Lemma mutate_inv (SMALL : double) (indet : nat -> double) (m : mutation)
    (this this' : Frame) :
  coord_inv this -> admissible m this -> mutate SMALL indet m this = Some this' ->
  coord_inv this'.
Proof.
  intros Hi Ha H.
  destruct m; cbn [admissible mutate] in Ha, H; drop_log H; cbn [fst].
  - exact (operator_assign_inv indet _ _ _ Ha H).
  - destruct Ha as (Hlen & Hnb & n & Hn & Hr).
    exact (SetFromCRD_inv_whole_atoms _ _ _ _ _ n Hi Hlen Hnb Hn Hr H).
  - exact (SetFromCRD_mask_inv _ _ _ _ _ _ Hi Ha H).
  - destruct Ha as [H0 Hn]. exact (AddXYZ_inv indet _ _ _ Hi Hn H0 H).
  - destruct Ha as [H0 Hn]. exact (AddVec3_inv indet _ _ _ Hi Hn H0 H).
  - exact (SetupFrame_inv indet _ _ _ _ Ha H).
  - exact (SetupFrameM_inv indet _ _ _ _ Ha H).
  - exact (SetupFrameV_inv indet _ _ _ _ _ Ha H).
  - exact (SetupFrameFromMask_inv indet _ _ _ _ _ Ha H).
  - exact (SetCoordinatesByMask_inv _ _ _ _ _ Hi Ha H).
  - exact (SetCoordinates_mask_inv _ _ _ _ _ Hi Ha H).
  - exact (SetCoordinates_inv _ _ _ _ Hi Ha H).
  - exact (SetFrame_inv _ _ _ _ _ Hi Ha H).
  - exact (SetCoordinatesByMap_inv _ _ _ _ _ Hi Ha H).
  - exact (SetReferenceByMap_inv _ _ _ _ _ Hi Ha H).
  - exact (SetTargetByMap_inv _ _ _ _ _ Hi Ha H).
  - exact (ZeroCoords_inv _ _ Hi H).
  - exact (elementwise_inv _ _ _ _ _ _ Hi H).
  - exact (elementwise_inv _ _ _ _ _ _ Hi H).
  - exact (elementwise_inv _ _ _ _ _ _ Hi H).
  - exact (Divide_frame_inv SMALL _ _ _ _ _ _ Hi H).
  - exact (Divide_inv SMALL _ _ _ _ Hi H).
  - exact (AddByMask_inv _ _ _ _ _ Hi H).
  - exact (SCALE_inv _ _ _ _ _ _ Hi H).
Qed.

(** C6 (amended): every frame built by a constructor and changed by the
    mutating operations satisfies [ncoord_ = natom_ * 3], as long as the
    sizes involved fit an [int] and each float array given to [SetFromCRD]
    holds whole atoms. *)
Theorem reachable_coord_inv (SMALL : double) (indet : nat -> double) (f : Frame) :
  reachable SMALL indet f -> coord_inv f.
Proof.
  induction 1 as [k f Hk Hc|m f f' _ IH Ha Hm].
  - exact (construct_inv indet k f Hk Hc).
  - exact (mutate_inv SMALL indet m f f' IH Ha Hm).
Qed.

Lemma reachable_coord_inv_witness :
  coord_inv (mkFrame 2 2 6 [7; 0; 0; 0; 0; 0]%float dzero
               (Buf [1; 2; 3; 4; 5; 6]%float) NULL []).
Proof.
  apply (reachable_coord_inv SMALL_example (fun _ => dzero)).
  apply (reach_mutate _ _ (M_SetFromCRD [1; 2; 3; 4; 5; 6; 7]%float 1)
           (mkFrame 2 2 6 zero_box dzero (Buf (replicate 6 dzero)) NULL [])).
  - apply (reach_construct _ _ (K_natom 2)); [|reflexivity].
    unfold constructible, in_int, INT_MIN, INT_MAX. lia.
  - unfold admissible, in_int, INT_MIN, INT_MAX. cbn [length].
    split; [lia|]. split; [lia|]. exists 2. lia.
  - reflexivity.
Defined.

(** ** Division *)

Lemma Divide_rejects (SMALL : double) (this : Frame) (divisor : double) :
  (divisor <? SMALL)%float = true ->
  Divide SMALL this divisor
  = Some (this, ["Error: Frame::Divide(divisor): Detected divide by 0."]).
Proof. intros H. unfold Divide. rewrite H. reflexivity. Qed.

Lemma Divide_frame_rejects (SMALL : double) (this dividend : Frame) (divisor : double) :
  (divisor <? SMALL)%float = true ->
  Divide_frame SMALL this dividend divisor
  = Some (this, 1, ["Error: Frame::Divide(Frame,divisor): Detected divide by 0."]).
Proof. intros H. unfold Divide_frame. rewrite H. reflexivity. Qed.

Lemma div_cell_middle (d : double) (pre rest : list double) (a : double) (i : Z) :
  i = Z.of_nat (length pre) ->
  div_cell d (Buf (pre ++ a :: rest)) i = Some (Buf (pre ++ (a / d)%float :: rest)).
Proof.
  intros Hi. unfold div_cell. cbn [cells_of mbind option_bind].
  rewrite (rd_middle _ _ _ _ Hi). cbn [mbind option_bind].
  rewrite (wr_middle _ _ _ _ _ Hi). reflexivity.
Qed.

Lemma div_loop (d : double) (mid : list double) :
  forall pre rest,
    foldlM (div_cell d) (seqZ (Z.of_nat (length pre)) (Z.of_nat (length mid)))
      (Buf (pre ++ mid ++ rest))
    = Some (Buf (pre ++ ((fun a => a / d)%float <$> mid) ++ rest)).
Proof.
  induction mid as [|a mid IH]; intros pre rest; [reflexivity|].
  rewrite seqZ_cons by (cbn [length]; lia). cbn [foldlM].
  rewrite <- app_comm_cons, (div_cell_middle d pre (mid ++ rest) a _ eq_refl).
  cbn [mbind option_bind].
  replace (pre ++ (a / d)%float :: mid ++ rest)
    with ((pre ++ [(a / d)%float]) ++ mid ++ rest) by (rewrite <- app_assoc; reflexivity).
  replace (Z.succ (Z.of_nat (length pre)))
    with (Z.of_nat (length (pre ++ [(a / d)%float])))
    by (rewrite length_app; cbn [length]; lia).
  replace (Z.pred (Z.of_nat (length (a :: mid)))) with (Z.of_nat (length mid))
    by (cbn [length]; lia).
  rewrite IH, <- app_assoc. reflexivity.
Qed.

(** With a divisor that passes the guard, every coordinate is divided. *)
Lemma Divide_divides (SMALL : double) (this : Frame) (divisor : double)
    (x : list double) :
  (divisor <? SMALL)%float = false ->
  X_ this = Buf x ->
  0 <= ncoord_ this <= Z.of_nat (length x) ->
  let n := Z.to_nat (ncoord_ this) in
  Divide SMALL this divisor
  = Some (with_X this
            (Buf (((fun a => a / divisor)%float <$> take n x) ++ drop n x)), []).
Proof.
  intros Hd HX Hn n. unfold Divide, upto. rewrite Hd, HX.
  pose proof (div_loop divisor (take n x) [] (drop n x)) as G.
  cbn [app length] in G. change (Z.of_nat 0) with 0 in G.
  rewrite take_drop, length_take in G.
  replace (Z.of_nat (n `min` length x)) with (ncoord_ this) in G by lia.
  rewrite G. reflexivity.
Qed.

Lemma Divide_zero_and_tiny_rejected :
  Divide SMALL_example one_atom 0%float
  = Some (one_atom, ["Error: Frame::Divide(divisor): Detected divide by 0."]) /\
  Divide SMALL_example one_atom 0x1.79ca10c924223p-67%float
  = Some (one_atom, ["Error: Frame::Divide(divisor): Detected divide by 0."]).
Proof. split; vm_compute; reflexivity. Qed.

(** ** Division from another frame *)

Lemma div_from_middle (d : double) (src pre rest : list double) (a s : double) (i : Z) :
  i = Z.of_nat (length pre) -> rd src i = Some s ->
  div_from (Buf src) d (Buf (pre ++ a :: rest)) i
  = Some (Buf (pre ++ (s / d)%float :: rest)).
Proof.
  intros Hi Hs. unfold div_from. cbn [cells_of mbind option_bind].
  rewrite Hs. cbn [mbind option_bind]. rewrite (wr_middle _ _ _ _ _ Hi). reflexivity.
Qed.

Lemma div_from_loop (d : double) (src mid : list double) :
  forall pre smid rest,
    length smid = length mid ->
    cells_at src (Z.of_nat (length pre)) smid ->
    foldlM (div_from (Buf src) d) (seqZ (Z.of_nat (length pre)) (Z.of_nat (length mid)))
      (Buf (pre ++ mid ++ rest))
    = Some (Buf (pre ++ ((fun a => a / d)%float <$> smid) ++ rest)).
Proof.
  induction mid as [|a mid IH]; intros pre smid rest Hl Hs.
  - destruct smid; [reflexivity|discriminate].
  - destruct smid as [|s smid]; [discriminate|]. injection Hl as Hl.
    apply cells_at_tail in Hs as [Hs0 Hs].
    rewrite seqZ_cons by (cbn [length]; lia). cbn [foldlM].
    rewrite <- app_comm_cons, (div_from_middle d src pre (mid ++ rest) a s _ eq_refl Hs0).
    cbn [mbind option_bind].
    replace (pre ++ (s / d)%float :: mid ++ rest)
      with ((pre ++ [(s / d)%float]) ++ mid ++ rest) by (rewrite <- app_assoc; reflexivity).
    replace (Z.succ (Z.of_nat (length pre)))
      with (Z.of_nat (length (pre ++ [(s / d)%float])))
      by (rewrite length_app; cbn [length]; lia).
    replace (Z.pred (Z.of_nat (length (a :: mid)))) with (Z.of_nat (length mid))
      by (cbn [length]; lia).
    rewrite (IH _ smid rest Hl), <- app_assoc; [reflexivity|].
    rewrite length_app. cbn [length].
    replace (Z.of_nat (length pre + 1)) with (Z.of_nat (length pre) + 1) by lia.
    exact Hs.
Qed.

(** With a divisor that passes the guard and equal atom counts, every
    coordinate of the dividend is divided into this frame. *)
Lemma Divide_frame_divides (SMALL : double) (this dividend : Frame) (divisor : double)
    (x dx : list double) :
  (divisor <? SMALL)%float = false ->
  natom_ this = natom_ dividend ->
  X_ this = Buf x -> X_ dividend = Buf dx ->
  0 <= ncoord_ this <= Z.of_nat (length x) ->
  ncoord_ this <= Z.of_nat (length dx) ->
  let n := Z.to_nat (ncoord_ this) in
  Divide_frame SMALL this dividend divisor
  = Some (with_X this
            (Buf (((fun a => a / divisor)%float <$> take n dx) ++ drop n x)), 0, []).
Proof.
  intros Hd Hn HX HD Hx Hdx n. unfold Divide_frame, upto. rewrite Hd, HX, HD.
  destruct (Z.eqb_spec (natom_ this) (natom_ dividend)) as [_|Hne]; [|contradiction].
  cbn [negb].
  pose proof (div_from_loop divisor dx (take n x) [] (take n dx) (drop n x)
                ltac:(rewrite !length_take; lia) (cells_at_take dx n)) as G.
  cbn [app length] in G. change (Z.of_nat 0) with 0 in G.
  rewrite take_drop, length_take in G.
  replace (Z.of_nat (n `min` length x)) with (ncoord_ this) in G by lia.
  rewrite G. reflexivity.
Qed.

(** C7: the guards of both [Divide] overloads compare the divisor itself,
    not its magnitude, with the threshold.  A divisor of -2 is below every
    positive threshold, so both overloads report "Detected divide by 0"
    and leave the frame alone, although the divisor 2, of the same
    magnitude, passes the guard and divides every coordinate. *)
Theorem Divide_rejects_negative_divisor (SMALL : double) (this dividend : Frame)
    (x dx : list double) :
  (-2 <? SMALL)%float = true ->
  (2 <? SMALL)%float = false ->
  natom_ this = natom_ dividend ->
  X_ this = Buf x -> X_ dividend = Buf dx ->
  0 <= ncoord_ this <= Z.of_nat (length x) ->
  ncoord_ this <= Z.of_nat (length dx) ->
  let n := Z.to_nat (ncoord_ this) in
  let halves (l : list double) := (fun a => a / 2)%float <$> take n l in
  (Divide SMALL this (-2)
   = Some (this, ["Error: Frame::Divide(divisor): Detected divide by 0."]) /\
   Divide_frame SMALL this dividend (-2)
   = Some (this, 1, ["Error: Frame::Divide(Frame,divisor): Detected divide by 0."])) /\
  (Divide SMALL this 2 = Some (with_X this (Buf (halves x ++ drop n x)), []) /\
   Divide_frame SMALL this dividend 2
   = Some (with_X this (Buf (halves dx ++ drop n x)), 0, [])).
Proof.
  intros Hneg Hpos Hn HX HD Hx Hdx n halves. split; split.
  - apply Divide_rejects, Hneg.
  - apply Divide_frame_rejects, Hneg.
  - exact (Divide_divides SMALL this 2 x Hpos HX Hx).
  - exact (Divide_frame_divides SMALL this dividend 2 x dx Hpos Hn HX HD Hx Hdx).
Qed.

Lemma Divide_rejects_negative_divisor_witness :
  (SMALL_example <=? fabs (-2))%float = true /\
  (Divide SMALL_example two_atoms (-2)
   = Some (two_atoms, ["Error: Frame::Divide(divisor): Detected divide by 0."]) /\
   Divide_frame SMALL_example two_atoms two_atoms (-2)
   = Some (two_atoms, 1,
           ["Error: Frame::Divide(Frame,divisor): Detected divide by 0."])) /\
  (Divide SMALL_example two_atoms 2
   = Some (with_X two_atoms (Buf [1; 2; 3; 4; 5; 6]%float), []) /\
   Divide_frame SMALL_example two_atoms two_atoms 2
   = Some (with_X two_atoms (Buf [1; 2; 3; 4; 5; 6]%float), 0, [])).
Proof.
  split; [reflexivity|].
  refine (Divide_rejects_negative_divisor SMALL_example two_atoms two_atoms
            [2; 4; 6; 8; 10; 12]%float [2; 4; 6; 8; 10; 12]%float _ _ _ _ _ _ _).
  - reflexivity.
  - reflexivity.
  - reflexivity.
  - reflexivity.
  - reflexivity.
  - simpl. lia.
  - simpl. lia.
Defined.

(** ** Atom positions and distance RMSD *)

Lemma coords_length (atoms : list Vec3) : length (coords atoms) = (3 * length atoms)%nat.
Proof.
  induction atoms as [|v l IH]; [reflexivity|].
  unfold coords in *. rewrite bind_cons, length_app, IH. simpl. lia.
Qed.

Lemma coords_app (a b : list Vec3) : coords (a ++ b) = coords a ++ coords b.
Proof. unfold coords. apply bind_app. Qed.

Lemma atom_at_middle (pre : list Vec3) (v : Vec3) (rest : list double) :
  atom_at (coords pre ++ vx v :: vy v :: vz v :: rest) (Z.of_nat (length pre)) v.
Proof.
  assert (E : 3 * Z.of_nat (length pre) = Z.of_nat (length (coords pre)))
    by (rewrite coords_length; lia).
  unfold atom_at. rewrite E. repeat split.
  - apply rd_middle. reflexivity.
  - apply rd_second. reflexivity.
  - apply rd_third. reflexivity.
Qed.

Lemma atoms_at_coords (pre l : list Vec3) (rest : list double) :
  atoms_at (coords pre ++ coords l ++ rest) (Z.of_nat (length pre)) l.
Proof.
  revert pre. induction l as [|v l IH]; intros pre i w Hi; [discriminate|].
  destruct i as [|i]; simpl in Hi.
  - injection Hi as <-. rewrite Z.add_0_r. apply atom_at_middle.
  - specialize (IH (pre ++ [v]) i w Hi).
    rewrite coords_app, <- app_assoc, length_app in IH. cbn [length] in IH.
    replace (Z.of_nat (length pre) + Z.of_nat (S i))
      with (Z.of_nat (length pre + 1) + Z.of_nat i) by lia.
    exact IH.
Qed.

Lemma atoms_at_prefix (atoms : list Vec3) (rest : list double) :
  atoms_at (coords atoms ++ rest) 0 atoms.
Proof. exact (atoms_at_coords [] atoms rest). Qed.

Lemma atoms_at_tail (x : list double) (k : Z) (v : Vec3) (l : list Vec3) :
  atoms_at x k (v :: l) -> atom_at x k v /\ atoms_at x (k + 1) l.
Proof.
  intros H. split.
  - specialize (H 0%nat v eq_refl). rewrite Z.add_0_r in H. exact H.
  - intros i w Hi. specialize (H (S i) w Hi).
    replace (k + 1 + Z.of_nat i) with (k + Z.of_nat (S i)) by lia. exact H.
Qed.

Lemma atom_dist_at (x : list double) (i j : Z) (a b : Vec3) :
  atom_at x i a -> atom_at x j b ->
  in_int (3 * i + 2) -> in_int (3 * j + 2) ->
  atom_dist x (3 * i) (3 * j) = Some (dist a b).
Proof.
  intros (Ha0 & Ha1 & Ha2) (Hb0 & Hb1 & Hb2) Hi Hj.
  unfold atom_dist, iadd.
  rewrite !int_wrap_id by (unfold in_int, INT_MIN, INT_MAX in *; lia).
  rewrite Ha0, Hb0, Ha1, Hb1, Ha2, Hb2. reflexivity.
Qed.

Lemma distrmsd_inner_step (xs rs : list double) (i j : Z) (t r t2 r2 : Vec3)
    (acc : double) (atom2 : Z) :
  atom_at xs i t -> atom_at rs i r -> atom_at xs j t2 -> atom_at rs j r2 ->
  in_int (3 * i + 2) -> in_int (3 * j + 3) ->
  distrmsd_inner xs rs (3 * i) (acc, 3 * j) atom2
  = Some ((acc + sq_dist_diff t r (t2, r2))%float, 3 * (j + 1)).
Proof.
  intros Ht Hr Ht2 Hr2 Hi Hj. unfold distrmsd_inner.
  rewrite (atom_dist_at xs i j t t2 Ht Ht2 Hi)
    by (unfold in_int, INT_MIN, INT_MAX in *; lia).
  rewrite (atom_dist_at rs i j r r2 Hr Hr2 Hi)
    by (unfold in_int, INT_MIN, INT_MAX in *; lia).
  cbn [mbind option_bind]. unfold iadd. rewrite (int_wrap_id _ Hj).
  do 2 f_equal. lia.
Qed.

Lemma distrmsd_inner_loop (xs rs : list double) (i : Z) (t r : Vec3) :
  atom_at xs i t -> atom_at rs i r -> in_int (3 * i + 2) ->
  forall (ttl rtl : list Vec3) (idx : list Z) (j0 : Z) (acc : double),
    length rtl = length ttl -> length idx = length ttl ->
    atoms_at xs j0 ttl -> atoms_at rs j0 rtl ->
    0 <= j0 -> 3 * (j0 + Z.of_nat (length ttl)) <= INT_MAX ->
    foldlM (distrmsd_inner xs rs (3 * i)) idx (acc, 3 * j0)
    = Some (fold_left (fun s p => (s + sq_dist_diff t r p)%float) (zip ttl rtl) acc,
            3 * (j0 + Z.of_nat (length ttl))).
Proof.
  intros Ht Hr Hi. induction ttl as [|t2 ttl IH];
    intros rtl idx j0 acc Hlr Hli Hxs Hrs Hj0 Hmax.
  - destruct idx; [|discriminate]. simpl. do 2 f_equal. lia.
  - destruct rtl as [|r2 rtl]; [discriminate|]. destruct idx as [|a idx]; [discriminate|].
    apply atoms_at_tail in Hxs as [Ht2 Hxs]. apply atoms_at_tail in Hrs as [Hr2 Hrs].
    cbn [length] in *.
    cbn [foldlM].
    rewrite (distrmsd_inner_step xs rs i j0 t r t2 r2 acc a Ht Hr Ht2 Hr2 Hi)
      by (unfold in_int, INT_MIN, INT_MAX in *; lia).
    cbn [mbind option_bind].
    rewrite (IH rtl idx (j0 + 1)); try lia; try assumption.
    cbn [zip zip_with fold_left]. do 2 f_equal. lia.
Qed.

Lemma distrmsd_outer_step (xs rs : list double) (i : Z) (t r : Vec3)
    (ttl rtl : list Vec3) (acc : double) :
  atoms_at xs i (t :: ttl) -> atoms_at rs i (r :: rtl) ->
  length rtl = length ttl -> ttl <> [] ->
  0 <= i -> 3 * (i + 1 + Z.of_nat (length ttl)) <= INT_MAX ->
  distrmsd_outer (Buf xs) (Buf rs) (i + 1 + Z.of_nat (length ttl)) (acc, 3 * i) i
  = Some (fold_left (fun s p => (s + sq_dist_diff t r p)%float) (zip ttl rtl) acc,
          3 * (i + 1)).
Proof.
  intros Hxs Hrs Hlr Hne Hi Hmax.
  apply atoms_at_tail in Hxs as [Ht Hxs]. apply atoms_at_tail in Hrs as [Hr Hrs].
  assert (Hpos : (0 < length ttl)%nat) by (destruct ttl; [contradiction|simpl; lia]).
  unfold distrmsd_outer, iadd.
  rewrite !int_wrap_id by (unfold in_int, INT_MIN, INT_MAX in *; lia).
  replace (i + 1 + Z.of_nat (length ttl) - (i + 1)) with (Z.of_nat (length ttl)) by lia.
  destruct (seqZ (i + 1) (Z.of_nat (length ttl))) as [|a idx] eqn:E.
  { apply (f_equal length) in E. rewrite length_seqZ in E. simpl in E. lia. }
  cbn [cells_of mbind option_bind].
  replace (3 * i + 3) with (3 * (i + 1)) by lia.
  rewrite (distrmsd_inner_loop xs rs i t r Ht Hr
             ltac:(unfold in_int, INT_MIN, INT_MAX in *; lia)
             ttl rtl (a :: idx) (i + 1) acc Hlr); try assumption; try lia.
  - reflexivity.
  - rewrite <- E, length_seqZ. lia.
Qed.

Lemma distrmsd_outer_loop (xs rs : list double) (tgt : list Vec3) :
  forall (ref : list Vec3) (i : Z) (acc : double),
    length ref = length tgt -> tgt <> [] ->
    atoms_at xs i tgt -> atoms_at rs i ref ->
    0 <= i -> 3 * (i + Z.of_nat (length tgt)) <= INT_MAX ->
    foldlM (distrmsd_outer (Buf xs) (Buf rs) (i + Z.of_nat (length tgt)))
      (seqZ i (Z.of_nat (length tgt) - 1)) (acc, 3 * i)
    = Some (pair_sum tgt ref acc, 3 * (i + Z.of_nat (length tgt) - 1)).
Proof.
  induction tgt as [|t tgt IH]; intros ref i acc Hl Hne Hxs Hrs Hi Hmax;
    [contradiction|].
  destruct ref as [|r ref]; [discriminate|]. injection Hl as Hl.
  destruct tgt as [|t2 tgt].
  - destruct ref; [|discriminate]. simpl. do 2 f_equal. lia.
  - set (ttl := t2 :: tgt) in *.
    rewrite seqZ_cons by (unfold ttl; cbn [length]; lia). cbn [foldlM].
    replace (i + Z.of_nat (length (t :: ttl))) with (i + 1 + Z.of_nat (length ttl))
      by (cbn [length]; lia).
    rewrite (distrmsd_outer_step xs rs i t r ttl ref acc Hxs Hrs Hl
               ltac:(discriminate) Hi ltac:(cbn [length] in Hmax; lia)).
    cbn [mbind option_bind].
    apply atoms_at_tail in Hxs as [_ Hxs]. apply atoms_at_tail in Hrs as [_ Hrs].
    replace (Z.succ i) with (i + 1) by lia.
    replace (Z.pred (Z.of_nat (length (t :: ttl)) - 1)) with (Z.of_nat (length ttl) - 1)
      by (cbn [length]; lia).
    rewrite (IH ref (i + 1) _ Hl ltac:(discriminate) Hxs Hrs ltac:(lia)
               ltac:(cbn [length] in Hmax; lia)).
    cbn [pair_sum]. loop_done.
Qed.

Lemma pair_count_exact (n : Z) :
  0 <= n <= 46340 -> pair_count n = n * (n - 1) / 2.
Proof.
  intros Hn. unfold pair_count, idiv, isub, imul.
  assert (Hsq : 0 <= n * n <= INT_MAX) by (unfold INT_MAX; nia).
  rewrite (int_wrap_id (n * n)) by (apply in_int_small; lia).
  rewrite (int_wrap_id (n * n - n)) by (apply in_int_small; nia).
  rewrite Z.quot_div_nonneg by nia.
  replace (n * n - n) with (n * (n - 1)) by lia.
  apply int_wrap_id, in_int_small. split.
  - apply Z.div_pos; nia.
  - apply Z.div_le_upper_bound; nia.
Qed.

(** C8 (amended): for two frames of the same atom count [N] with
    [2 <= N <= 46340], the pair count is [N*(N-1)/2], it is not zero, and
    [DISTRMSD] returns the square root of the sum over all pairs [i < j] of
    the squared difference of the two frames' [i]-[j] distances, divided by
    the pair count. *)
Theorem DISTRMSD_spec (this Ref : Frame) (tgt ref : list Vec3) (trest rrest : list double) :
  X_ this = Buf (coords tgt ++ trest) ->
  X_ Ref = Buf (coords ref ++ rrest) ->
  natom_ this = Z.of_nat (length tgt) ->
  natom_ Ref = natom_ this ->
  length ref = length tgt ->
  2 <= natom_ this <= 46340 ->
  let N := natom_ this in
  pair_count N = N * (N - 1) / 2 /\
  pair_count N <> 0 /\
  DISTRMSD this Ref
  = Some (sqrt (pair_sum tgt ref dzero / double_of_int (N * (N - 1) / 2))%float).
Proof.
  intros HX HR Hn _ Hl Hrange N. unfold N. rewrite Hn in *.
  set (n := Z.of_nat (length tgt)).
  assert (Hc : pair_count n = n * (n - 1) / 2) by (apply pair_count_exact; lia).
  split; [exact Hc|]. split.
  - rewrite Hc. intros H0.
    assert (1 <= n * (n - 1) / 2); [|lia].
    apply Z.div_le_lower_bound; nia.
  - unfold DISTRMSD, upto, isub. rewrite HX, HR, Hn. fold n.
    change (idiv (isub (imul n n) n) 2) with (pair_count n). rewrite Hc.
    rewrite int_wrap_id by (apply in_int_small; unfold INT_MAX; lia).
    pose proof (distrmsd_outer_loop (coords tgt ++ trest) (coords ref ++ rrest) tgt ref 0
                  dzero Hl ltac:(destruct tgt; [simpl in Hrange; lia|discriminate])
                  (atoms_at_coords [] tgt trest) (atoms_at_coords [] ref rrest)
                  ltac:(lia) ltac:(unfold INT_MAX; lia)) as G.
    rewrite !Z.add_0_l in G. change (3 * 0) with 0 in G. fold n in G.
    rewrite G. reflexivity.
Qed.

(** C8, as stated, fails: with one atom the atom count is not zero but the
    pair count is, and [DISTRMSD] returns NaN. *)
Lemma DISTRMSD_single_atom_divides_by_zero :
  natom_ one_atom <> 0 /\
  pair_count (natom_ one_atom) = 0 /\
  DISTRMSD one_atom one_atom = Some nan.
Proof. split; [discriminate|]. split; vm_compute; reflexivity. Qed.

Lemma DISTRMSD_spec_witness :
  pair_count 3 = 3 /\ pair_count 3 <> 0 /\
  DISTRMSD line1 line2 = Some (sqrt 2)%float.
Proof.
  pose proof (DISTRMSD_spec line1 line2
                [mkVec3 0 0 0; mkVec3 1 0 0; mkVec3 2 0 0]%float
                [mkVec3 0 0 0; mkVec3 2 0 0; mkVec3 4 0 0]%float [] []
                eq_refl eq_refl eq_refl eq_refl eq_refl
                ltac:(simpl; lia)) as H.
  exact H.
Defined.

(** ** Centroids, translation and Kabsch sums *)

Lemma upto3_atoms (n : nat) :
  upto3 (3 * Z.of_nat n) = (fun k => 3 * k) <$> seqZ 0 (Z.of_nat n).
Proof.
  unfold upto3. do 2 f_equal.
  rewrite (Z.mul_comm 3), Z.div_add_l by lia. rewrite (Z.div_small 2 3) by lia. lia.
Qed.

Lemma atom_range3_atoms (n : nat) :
  atom_range3 0 (Z.of_nat n) = (fun k => 3 * k) <$> seqZ 0 (Z.of_nat n).
Proof. unfold atom_range3. rewrite Z.sub_0_r. reflexivity. Qed.

Lemma seqZ_atoms_cons {A} (k : Z) (v : A) (l : list A) :
  (fun j => 3 * j) <$> seqZ k (Z.of_nat (length (v :: l)))
  = 3 * k :: ((fun j => 3 * j) <$> seqZ (k + 1) (Z.of_nat (length l))).
Proof.
  rewrite seqZ_cons by (cbn [length]; lia). rewrite fmap_cons.
  do 3 f_equal; cbn [length]; lia.
Qed.

Lemma geo_step_at (x : list double) (k : Z) (v acc : Vec3) :
  atom_at x k v -> geo_step x acc (3 * k) = Some (vadd acc v).
Proof. intros (H0 & H1 & H2). unfold geo_step. rewrite H0, H1, H2. reflexivity. Qed.

Lemma geo_loop (x : list double) (l : list Vec3) :
  forall (k : Z) (acc : Vec3),
    atoms_at x k l ->
    foldlM (geo_step x) ((fun j => 3 * j) <$> seqZ k (Z.of_nat (length l))) acc
    = Some (fold_left vadd l acc).
Proof.
  induction l as [|v l IH]; intros k acc Hx; [reflexivity|].
  apply atoms_at_tail in Hx as [Hv Hx].
  rewrite seqZ_atoms_cons. cbn [foldlM]. rewrite (geo_step_at x k v acc Hv).
  cbn [mbind option_bind]. apply IH, Hx.
Qed.

Lemma mass_step_at (x masses : list double) (k mi : Z) (v acc : Vec3) (m total : double) :
  atom_at x k v -> rd masses mi = Some m ->
  mass_step x masses (total, acc, mi) (3 * k)
  = Some ((total + m)%float, vadd_scaled acc (v, m), mi + 1).
Proof.
  intros (H0 & H1 & H2) Hm. unfold mass_step. rewrite Hm, H0, H1, H2. reflexivity.
Qed.

Lemma mass_loop (x masses : list double) (l : list Vec3) :
  forall (ms : list double) (k mi : Z) (total : double) (acc : Vec3),
    length ms = length l ->
    atoms_at x k l -> cells_at masses mi ms ->
    foldlM (mass_step x masses) ((fun j => 3 * j) <$> seqZ k (Z.of_nat (length l)))
      (total, acc, mi)
    = Some (fold_left PrimFloat.add ms total, fold_left vadd_scaled (zip l ms) acc,
            mi + Z.of_nat (length l)).
Proof.
  induction l as [|v l IH]; intros ms k mi total acc Hl Hx Hm.
  - destruct ms; [|discriminate]. simpl. do 2 f_equal. lia.
  - destruct ms as [|m ms]; [discriminate|]. injection Hl as Hl.
    apply atoms_at_tail in Hx as [Hv Hx]. apply cells_at_tail in Hm as [Hm0 Hm].
    rewrite seqZ_atoms_cons. cbn [foldlM].
    rewrite (mass_step_at x masses k mi v acc m total Hv Hm0).
    cbn [mbind option_bind]. rewrite (IH ms (k + 1) (mi + 1) _ _ Hl Hx Hm).
    cbn [fold_left zip zip_with length]. do 2 f_equal. lia.
Qed.

Lemma zip_take_masses (l : list Vec3) (ms : list double) :
  zip l (take (length l) ms) = zip l ms.
Proof.
  revert ms. induction l as [|v l IH]; intros ms; [reflexivity|].
  destruct ms as [|m ms]; [reflexivity|]. cbn [length take zip zip_with].
  f_equal. apply IH.
Qed.

Lemma weight_sums_spec (this : Frame) (useMass : bool) (atoms : list Vec3)
    (rest : list double) :
  holds_atoms this atoms rest ->
  (useMass = true -> (length atoms <= length (Mass_ this))%nat) ->
  weight_sums this useMass
  = Some (total_weight useMass (Mass_ this) (length atoms),
          position_sum useMass (Mass_ this) atoms).
Proof.
  intros (HX & Hn & Hc) Hm. unfold weight_sums. rewrite Hc, upto3_atoms, HX, Hn.
  destruct atoms as [|v atoms]; [destruct useMass; reflexivity|].
  rewrite seqZ_atoms_cons. cbn [cells_of mbind option_bind].
  rewrite <- (seqZ_atoms_cons 0 v atoms).
  pose proof (atoms_at_prefix (v :: atoms) rest) as Hat.
  destruct useMass.
  - specialize (Hm eq_refl).
    rewrite (mass_loop _ (Mass_ this) (v :: atoms) (take (length (v :: atoms)) (Mass_ this))
               0 0 dzero Vec3_zero
               ltac:(rewrite length_take; lia) Hat (cells_at_take _ _)).
    cbn [mbind option_bind]. unfold total_weight, position_sum, mass_sum.
    rewrite zip_take_masses. reflexivity.
  - rewrite (geo_loop _ (v :: atoms) 0 Vec3_zero Hat). reflexivity.
Qed.

Lemma shift_atom_middle (op : double -> double -> double) (t : Vec3)
    (pre rest : list double) (a b c : double) (i : Z) :
  i = Z.of_nat (length pre) ->
  shift_atom op t (Buf (pre ++ a :: b :: c :: rest)) i
  = Some (Buf (pre ++ op a (vx t) :: op b (vy t) :: op c (vz t) :: rest)).
Proof.
  intros Hi. unfold shift_atom. cbn [cells_of mbind option_bind].
  rewrite (rd_middle _ _ _ _ Hi). cbn [mbind option_bind].
  rewrite (wr_middle _ _ _ _ _ Hi). cbn [mbind option_bind].
  rewrite (rd_second _ _ _ _ _ Hi). cbn [mbind option_bind].
  rewrite (wr_second _ _ _ _ _ _ Hi). cbn [mbind option_bind].
  rewrite (rd_third _ _ _ _ _ _ Hi). cbn [mbind option_bind].
  rewrite (wr_third _ _ _ _ _ _ _ Hi). reflexivity.
Qed.

Lemma shift_loop (op : double -> double -> double) (t : Vec3) (l : list Vec3) :
  forall (pre : list Vec3) (rest : list double),
    foldlM (shift_atom op t)
      ((fun j => 3 * j) <$> seqZ (Z.of_nat (length pre)) (Z.of_nat (length l)))
      (Buf (coords pre ++ coords l ++ rest))
    = Some (Buf (coords pre ++ coords (shift op t <$> l) ++ rest)).
Proof.
  induction l as [|v l IH]; intros pre rest; [reflexivity|].
  rewrite seqZ_atoms_cons. cbn [foldlM].
  change (coords (v :: l)) with ([vx v; vy v; vz v] ++ coords l).
  rewrite <- app_assoc. cbn [app].
  assert (Hoff : 3 * Z.of_nat (length pre) = Z.of_nat (length (coords pre)))
    by (rewrite coords_length; lia).
  rewrite (shift_atom_middle op t (coords pre) (coords l ++ rest) (vx v) (vy v) (vz v) _
             Hoff).
  cbn [mbind option_bind].
  specialize (IH (pre ++ [shift op t v]) rest).
  rewrite coords_app, <- app_assoc, length_app in IH. cbn [length] in IH.
  replace (Z.of_nat (length pre + 1)) with (Z.of_nat (length pre) + 1) in IH by lia.
  change (coords [shift op t v] ++ coords l ++ rest)
    with (op (vx v) (vx t) :: op (vy v) (vy t) :: op (vz v) (vz t) :: coords l ++ rest)
    in IH.
  rewrite IH. rewrite fmap_cons.
  change (coords (shift op t v :: (shift op t <$> l)))
    with ([op (vx v) (vx t); op (vy v) (vy t); op (vz v) (vz t)]
            ++ coords (shift op t <$> l)).
  rewrite <- !app_assoc. reflexivity.
Qed.

Lemma shift_frame (op : double -> double -> double) (t : Vec3) (f : Frame)
    (atoms : list Vec3) (rest : list double) :
  holds_atoms f atoms rest ->
  foldlM (shift_atom op t) (upto3 (ncoord_ f)) (X_ f)
  = Some (Buf (coords (shift op t <$> atoms) ++ rest)).
Proof.
  intros (HX & Hn & Hc). rewrite Hc, upto3_atoms, HX.
  exact (shift_loop op t atoms [] rest).
Qed.

Lemma Translate_spec (f : Frame) (t : Vec3) (atoms : list Vec3) (rest : list double) :
  holds_atoms f atoms rest ->
  Translate f t
  = Some (with_X f (Buf (coords (shift PrimFloat.add t <$> atoms) ++ rest))).
Proof. intros H. unfold Translate. rewrite (shift_frame _ t f atoms rest H). reflexivity. Qed.

Lemma NegTranslate_spec (f : Frame) (t : Vec3) (atoms : list Vec3) (rest : list double) :
  holds_atoms f atoms rest ->
  NegTranslate f t
  = Some (with_X f (Buf (coords (shift PrimFloat.sub t <$> atoms) ++ rest))).
Proof. intros H. unfold NegTranslate. rewrite (shift_frame _ t f atoms rest H). reflexivity. Qed.

Lemma holds_atoms_shifted (op : double -> double -> double) (t : Vec3) (f : Frame)
    (atoms : list Vec3) (rest : list double) :
  holds_atoms f atoms rest ->
  holds_atoms (with_X f (Buf (coords (shift op t <$> atoms) ++ rest)))
    (shift op t <$> atoms) rest.
Proof.
  intros (HX & Hn & Hc). unfold holds_atoms. rewrite length_fmap.
  repeat split; assumption.
Qed.

Lemma cov_step_at (x r masses : list double) (useMass : bool) (k mi : Z)
    (xa ra : Vec3) (w mwss : double) (rot : Matrix_3x3) :
  atom_at x k xa -> atom_at r k ra ->
  (if useMass then rd masses mi = Some w else w = done_) ->
  cov_step x r masses useMass (mwss, rot, mi) (3 * k)
  = Some ((cov_atom w (mwss, rot) xa ra).1, (cov_atom w (mwss, rot) xa ra).2,
          if useMass then mi + 1 else mi).
Proof.
  intros (H0 & H1 & H2) (R0 & R1 & R2) Hw. unfold cov_step.
  rewrite H0, H1, H2, R0, R1, R2. cbn [mbind option_bind].
  destruct useMass; [rewrite Hw|subst w]; reflexivity.
Qed.

Lemma cov_loop (x r masses : list double) (useMass : bool) (l : list Vec3) :
  forall (rl : list Vec3) (ws : list double) (k mi : Z) (st : double * Matrix_3x3),
    length rl = length l -> length ws = length l ->
    atoms_at x k l -> atoms_at r k rl ->
    (if useMass then cells_at masses mi ws else ws = replicate (length l) done_) ->
    exists mi',
      foldlM (cov_step x r masses useMass)
        ((fun j => 3 * j) <$> seqZ k (Z.of_nat (length l))) (st.1, st.2, mi)
      = Some ((fold_left (fun st p => cov_atom p.2 st p.1.1 p.1.2)
                 (zip (zip l rl) ws) st).1,
              (fold_left (fun st p => cov_atom p.2 st p.1.1 p.1.2)
                 (zip (zip l rl) ws) st).2, mi').
Proof.
  induction l as [|v l IH]; intros rl ws k mi st Hrl Hws Hx Hr Hw.
  - exists mi. destruct rl; [|discriminate]. destruct ws; [|discriminate]. reflexivity.
  - destruct rl as [|rv rl]; [discriminate|]. destruct ws as [|w ws]; [discriminate|].
    injection Hrl as Hrl. injection Hws as Hws.
    apply atoms_at_tail in Hx as [Hv Hx]. apply atoms_at_tail in Hr as [Hrv Hr].
    assert (Hw0 : if useMass then rd masses mi = Some w else w = done_).
    { destruct useMass; [apply cells_at_tail in Hw as [Hw _]; exact Hw|].
      cbn [length replicate] in Hw. injection Hw as -> _. reflexivity. }
    assert (Hw' : if useMass then cells_at masses (mi + 1) ws
                  else ws = replicate (length l) done_).
    { destruct useMass; [apply cells_at_tail in Hw as [_ Hw]; exact Hw|].
      cbn [length replicate] in Hw. injection Hw as _ Hw. exact Hw. }
    destruct st as [mwss rot].
    destruct (IH rl ws (k + 1) (if useMass then mi + 1 else mi)
                (cov_atom w (mwss, rot) v rv) Hrl Hws Hx Hr
                ltac:(destruct useMass; exact Hw')) as [mi' Hloop].
    exists mi'. rewrite seqZ_atoms_cons. cbn [foldlM fst snd].
    rewrite (cov_step_at x r masses useMass k mi v rv w mwss rot Hv Hrv Hw0).
    cbn [mbind option_bind]. rewrite Hloop. reflexivity.
Qed.

Lemma covariance_spec (this Ref : Frame) (useMass : bool) (atoms ratoms : list Vec3)
    (rest rrest : list double) :
  holds_atoms this atoms rest ->
  X_ Ref = Buf (coords ratoms ++ rrest) ->
  length ratoms = length atoms ->
  (useMass = true -> (length atoms <= length (Mass_ this))%nat) ->
  covariance this Ref useMass = Some (kabsch_sums useMass (Mass_ this) atoms ratoms).
Proof.
  intros (HX & Hn & Hc) HR Hl Hm. unfold covariance. rewrite Hc, upto3_atoms, HX, HR.
  destruct atoms as [|v atoms]; [reflexivity|].
  rewrite seqZ_atoms_cons. cbn [cells_of mbind option_bind].
  rewrite <- (seqZ_atoms_cons 0 v atoms).
  set (l := v :: atoms) in *.
  destruct (cov_loop (coords l ++ rest) (coords ratoms ++ rrest) (Mass_ this) useMass l
              ratoms (atom_weights useMass (Mass_ this) (length l)) 0 0
              (dzero, Matrix_zero) Hl) as [mi' Hloop].
  - unfold atom_weights. destruct useMass.
    + rewrite length_take. specialize (Hm eq_refl). lia.
    + apply length_replicate.
  - exact (atoms_at_coords [] l rest).
  - exact (atoms_at_coords [] ratoms rrest).
  - unfold atom_weights. destruct useMass; [apply cells_at_take|reflexivity].
  - cbn [fst snd] in Hloop. rewrite Hloop. cbn [mbind option_bind].
    unfold kabsch_sums. destruct (fold_left _ _ _). reflexivity.
Qed.

Section Fit.

Variable SMALL : double.
Variable TransposeMult : Matrix_3x3 -> Matrix_3x3 -> Matrix_3x3.
Variable Diagonalize_Sort : Matrix_3x3 -> Z * Matrix_3x3 * Vec3.

Lemma RMSD_CenteredRef_run (this Ref : Frame) (U : Matrix_3x3) (Trans : Vec3)
    (useMass : bool) (atoms ratoms : list Vec3) (rest rrest : list double) :
  holds_atoms this atoms rest ->
  X_ Ref = Buf (coords ratoms ++ rrest) ->
  length ratoms = length atoms ->
  (useMass = true -> (length atoms <= length (Mass_ this))%nat) ->
  (total_weight useMass (Mass_ this) (length atoms) <? SMALL)%float = false ->
  RMSD_CenteredRef SMALL TransposeMult Diagonalize_Sort this Ref U Trans useMass
  = Some (fit_outcome TransposeMult Diagonalize_Sort this U useMass atoms ratoms rest).
Proof.
  intros Hh HR Hl Hm Hw. unfold RMSD_CenteredRef.
  rewrite (weight_sums_spec this useMass atoms rest Hh Hm).
  cbn [mbind option_bind]. rewrite Hw.
  fold (centroid useMass (Mass_ this) atoms).
  rewrite (Translate_spec this _ atoms rest Hh). cbn [mbind option_bind].
  fold (centered useMass (Mass_ this) atoms).
  pose proof (holds_atoms_shifted PrimFloat.add (Neg (centroid useMass (Mass_ this) atoms))
                this atoms rest Hh) as Hh'.
  fold (centered useMass (Mass_ this) atoms) in Hh'.
  rewrite (covariance_spec _ Ref useMass (centered useMass (Mass_ this) atoms) ratoms
             rest rrest Hh' HR
             ltac:(unfold centered; rewrite length_fmap; exact Hl)
             ltac:(unfold centered; rewrite length_fmap; exact Hm)).
  cbn [mbind option_bind]. unfold fit_outcome.
  change (Mass_ (with_X this _)) with (Mass_ this).
  replace (length (centered useMass (Mass_ this) atoms)) with (length atoms)
    by (unfold centered; rewrite length_fmap; reflexivity).
  destruct (kabsch_sums _ _ _ _) as [mwss rot].
  destruct (Diagonalize_Sort _) as [[status Ev] ev].
  destruct (negb (status =? 0)); [reflexivity|].
  unfold fitted_rotation, chirality_sign, residual, rmsd_of_residual.
  destruct (b_rows _ _) as [[b1 b2] b3]. reflexivity.
Qed.

End Fit.

(** ** Best-fit RMSD *)

Lemma reference_centre_spec (Ref : Frame) (useMass : bool) (ratoms : list Vec3)
    (rrest : list double) (n : Z) :
  holds_atoms Ref ratoms rrest ->
  n = Z.of_nat (length ratoms) ->
  (useMass = true -> (length ratoms <= length (Mass_ Ref))%nat) ->
  (if useMass then VCenterOfMass Ref 0 n else VGeometricCenter Ref 0 n)
  = Some (centroid useMass (Mass_ Ref) ratoms).
Proof.
  intros (HX & Hn & Hc) -> Hm.
  pose proof (atoms_at_prefix ratoms rrest) as Hat.
  unfold centroid, position_sum, total_weight.
  destruct useMass.
  - specialize (Hm eq_refl). unfold VCenterOfMass. rewrite atom_range3_atoms, HX.
    destruct ratoms as [|v l]; [reflexivity|].
    rewrite seqZ_atoms_cons. cbn [cells_of mbind option_bind].
    rewrite <- (seqZ_atoms_cons 0 v l).
    rewrite (mass_loop _ (Mass_ Ref) (v :: l) (take (length (v :: l)) (Mass_ Ref))
               0 0 dzero Vec3_zero
               ltac:(rewrite length_take; lia) Hat (cells_at_take _ _)).
    cbn [mbind option_bind]. rewrite zip_take_masses. reflexivity.
  - unfold VGeometricCenter. rewrite atom_range3_atoms, HX, Z.sub_0_r.
    destruct ratoms as [|v l]; [reflexivity|].
    rewrite seqZ_atoms_cons. cbn [cells_of mbind option_bind].
    rewrite <- (seqZ_atoms_cons 0 v l).
    rewrite (geo_loop _ (v :: l) 0 Vec3_zero Hat). reflexivity.
Qed.

Lemma weight_sums_keeps (this : Frame) (useMass : bool) (atoms : list Vec3) :
  keeps_atoms this atoms ->
  (useMass = true -> (length atoms <= length (Mass_ this))%nat) ->
  weight_sums this useMass
  = Some (total_weight useMass (Mass_ this) (length atoms),
          position_sum useMass (Mass_ this) atoms).
Proof.
  intros (Hn & Hc & [->|[rest HX]]) Hm.
  - unfold weight_sums. rewrite Hc, Hn. destruct useMass; reflexivity.
  - exact (weight_sums_spec this useMass atoms rest (conj HX (conj Hn Hc)) Hm).
Qed.

(** Centring a reference over as many atoms as it keeps. *)
Lemma reference_centred_keeps (Ref : Frame) (useMass : bool) (ratoms : list Vec3) (n : Z) :
  keeps_atoms Ref ratoms ->
  n = Z.of_nat (length ratoms) ->
  (useMass = true -> (length ratoms <= length (Mass_ Ref))%nat) ->
  exists c Ref',
    (if useMass then VCenterOfMass Ref 0 n else VGeometricCenter Ref 0 n) = Some c /\
    NegTranslate Ref c = Some Ref'.
Proof.
  intros (Hn & Hc & [->|[rrest HX]]) -> Hm.
  - unfold NegTranslate. rewrite Hc. cbn [length].
    destruct useMass; eexists _, _; (split; [reflexivity|reflexivity]).
  - pose proof (conj HX (conj Hn Hc) : holds_atoms Ref ratoms rrest) as Hh.
    eexists _, _. split.
    + exact (reference_centre_spec Ref useMass ratoms rrest _ Hh eq_refl Hm).
    + exact (NegTranslate_spec Ref _ ratoms rrest Hh).
Qed.


Section FitClaims.

Variable SMALL : double.
Variable TransposeMult : Matrix_3x3 -> Matrix_3x3 -> Matrix_3x3.
Variable Diagonalize_Sort : Matrix_3x3 -> Z * Matrix_3x3 * Vec3.

Local Abbreviation fit := (RMSD_CenteredRef SMALL TransposeMult Diagonalize_Sort).
Local Abbreviation fit_ref := (RMSD SMALL TransposeMult Diagonalize_Sort).


(** C9: when the diagonalisation fails, [RMSD_CenteredRef] returns 0
    without reporting an error, but this frame's coordinates have already
    been moved by the negated centroid and [Trans] holds the negated
    centroid; [U] is untouched. *)
Theorem RMSD_CenteredRef_failed_diagonalisation (this Ref : Frame) (U : Matrix_3x3)
    (Trans : Vec3) (useMass : bool) (atoms ratoms : list Vec3) (rest rrest : list double)
    (status : Z) (Ev : Matrix_3x3) (ev : Vec3) :
  holds_atoms this atoms rest ->
  X_ Ref = Buf (coords ratoms ++ rrest) ->
  length ratoms = length atoms ->
  (useMass = true -> (length atoms <= length (Mass_ this))%nat) ->
  let c := centroid useMass (Mass_ this) atoms in
  let R := (kabsch_sums useMass (Mass_ this)
              (centered useMass (Mass_ this) atoms) ratoms).2 in
  (total_weight useMass (Mass_ this) (length atoms) <? SMALL)%float = false ->
  Diagonalize_Sort (TransposeMult R R) = (status, Ev, ev) ->
  status <> 0 ->
  exists r,
    fit this Ref U Trans useMass = Some r /\
    fit_rmsd r = 0%float /\
    fit_log r = [] /\
    fit_this r = with_X this (Buf (coords (shift PrimFloat.add (Neg c) <$> atoms) ++ rest)) /\
    fit_Trans r = Neg c /\
    fit_U r = U.
Proof.
  intros Hh HR Hl Hm c R Hw Hd Hs.
  exists (fit_outcome TransposeMult Diagonalize_Sort this U useMass atoms ratoms rest).
  split.
  - exact (RMSD_CenteredRef_run SMALL TransposeMult Diagonalize_Sort this Ref U Trans
             useMass atoms ratoms rest rrest Hh HR Hl Hm Hw).
  - unfold fit_outcome. subst R.
    destruct (kabsch_sums _ _ _ _) as [mwss rot]. cbn [snd] in Hd. rewrite Hd.
    destruct (Z.eqb_spec status 0) as [|_]; [contradiction|].
    cbn [negb]. repeat split; reflexivity.
Qed.

(** C3: when the total weight is below the threshold, [RMSD_CenteredRef],
    and the fitted [RMSD] built on it, report an error and return -1, and
    this frame is exactly as it was.  That holds for every frame that
    keeps its atoms, frames without atoms and without a coordinate array
    included. *)
Theorem RMSD_zero_weight (this : Frame) (useMass : bool) (atoms : list Vec3) :
  keeps_atoms this atoms ->
  (useMass = true -> (length atoms <= length (Mass_ this))%nat) ->
  (total_weight useMass (Mass_ this) (length atoms) <? SMALL)%float = true ->
  (forall Ref U Trans,
     exists r,
       fit this Ref U Trans useMass = Some r /\
       fit_rmsd r = (-1)%float /\
       fit_log r = ["Error: Frame::RMSD: Divide by zero."] /\
       fit_this r = this /\ fit_U r = U) /\
  (forall Ref U Trans refTrans ratoms,
     keeps_atoms Ref ratoms ->
     length ratoms = length atoms ->
     (useMass = true -> (length ratoms <= length (Mass_ Ref))%nat) ->
     exists r,
       fit_ref this Ref U Trans refTrans useMass = Some r /\
       fit_rmsd (rmsd_fit r) = (-1)%float /\
       fit_log (rmsd_fit r) = ["Error: Frame::RMSD: Divide by zero."] /\
       fit_this (rmsd_fit r) = this /\ fit_U (rmsd_fit r) = U).
Proof.
  intros Hk Hm Hw.
  assert (Hrej : forall Ref U Trans,
             fit this Ref U Trans useMass
             = Some (mkFit this U (position_sum useMass (Mass_ this) atoms) (-1)%float
                       ["Error: Frame::RMSD: Divide by zero."])).
  { intros Ref U Trans. unfold RMSD_CenteredRef.
    rewrite (weight_sums_keeps this useMass atoms Hk Hm).
    cbn [mbind option_bind]. rewrite Hw. reflexivity. }
  split.
  - intros Ref U Trans. eexists. split; [apply Hrej|].
    repeat split; reflexivity.
  - intros Ref U Trans refTrans ratoms HRef Hl HmR. unfold RMSD.
    destruct (reference_centred_keeps Ref useMass ratoms (natom_ this) HRef)
      as (c & Ref' & -> & HRef'); [destruct Hk as (Hn & _); lia|exact HmR|].
    cbn [mbind option_bind]. rewrite HRef'. cbn [mbind option_bind].
    rewrite (Hrej Ref' U Trans).
    cbn [mbind option_bind]. eexists. split; [reflexivity|].
    repeat split; reflexivity.
Qed.

(** C2: with equal atom counts and a total weight not below the
    threshold, the five-argument [RMSD] leaves this frame with its centroid
    subtracted from every atom and [Ref] with [Ref]'s centroid subtracted,
    returns the negated centroid of this frame in [Trans] and [Ref]'s
    centroid in [refTrans], and changes no other field of either frame. *)
Theorem RMSD_translates_both_frames (this Ref : Frame) (U : Matrix_3x3)
    (Trans refTrans : Vec3) (useMass : bool) (atoms ratoms : list Vec3)
    (rest rrest : list double) :
  holds_atoms this atoms rest ->
  holds_atoms Ref ratoms rrest ->
  natom_ Ref = natom_ this ->
  (useMass = true -> (length atoms <= length (Mass_ this))%nat) ->
  (useMass = true -> (length ratoms <= length (Mass_ Ref))%nat) ->
  (total_weight useMass (Mass_ this) (length atoms) <? SMALL)%float = false ->
  let c := centroid useMass (Mass_ this) atoms in
  let cref := centroid useMass (Mass_ Ref) ratoms in
  exists r,
    fit_ref this Ref U Trans refTrans useMass = Some r /\
    fit_this (rmsd_fit r)
    = with_X this (Buf (coords (shift PrimFloat.add (Neg c) <$> atoms) ++ rest)) /\
    rmsd_Ref r
    = with_X Ref (Buf (coords (shift PrimFloat.sub cref <$> ratoms) ++ rrest)) /\
    fit_Trans (rmsd_fit r) = Neg c /\
    rmsd_refTrans r = cref.
Proof.
  intros Hh HRef Hnat Hm HmR Hw c cref.
  assert (Hl : length ratoms = length atoms).
  { destruct Hh as (_ & Hn & _). destruct HRef as (_ & HnR & _). lia. }
  unfold RMSD.
  rewrite (reference_centre_spec Ref useMass ratoms rrest (natom_ this) HRef
             ltac:(destruct HRef as (_ & HnR & _); lia) HmR).
  cbn [mbind option_bind]. fold cref.
  rewrite (NegTranslate_spec Ref cref ratoms rrest HRef). cbn [mbind option_bind].
  rewrite (RMSD_CenteredRef_run SMALL TransposeMult Diagonalize_Sort this
             (with_X Ref (Buf (coords (shift PrimFloat.sub cref <$> ratoms) ++ rrest)))
             U Trans
             useMass atoms (shift PrimFloat.sub cref <$> ratoms) rest rrest Hh eq_refl
             ltac:(rewrite length_fmap; exact Hl) Hm Hw).
  cbn [mbind option_bind]. eexists. split; [reflexivity|].
  cbn [rmsd_fit rmsd_Ref rmsd_refTrans]. unfold fit_outcome.
  destruct (kabsch_sums _ _ _ _) as [mwss rot].
  destruct (Diagonalize_Sort _) as [[status Ev] ev].
  destruct (negb (status =? 0)); repeat split; reflexivity.
Qed.

End FitClaims.


Lemma RMSD_CenteredRef_failed_diagonalisation_witness :
  exists r,
    RMSD_CenteredRef SMALL_example transpose_product diagonalize_fails
      pair_frame pair_moved Matrix_identity Vec3_zero true = Some r /\
    fit_rmsd r = 0%float /\
    fit_log r = [] /\
    fit_this r = with_X pair_frame (Buf [-0.5; 0; 0; 0.5; 0; 0]%float) /\
    fit_Trans r = mkVec3 (-0.5) (-0) (-0) /\
    fit_U r = Matrix_identity.
Proof.
  refine (RMSD_CenteredRef_failed_diagonalisation SMALL_example transpose_product
            diagonalize_fails pair_frame pair_moved Matrix_identity Vec3_zero true
            pair_atoms pair_moved_atoms [] [] 1 _ _ _ _ _ _ _ _ _).
  - repeat split; reflexivity.
  - reflexivity.
  - reflexivity.
  - intros _. simpl. lia.
  - vm_compute. reflexivity.
  - reflexivity.
  - discriminate.
Defined.

Lemma RMSD_zero_weight_witness :
  ((exists r,
      RMSD_CenteredRef SMALL_example transpose_product diagonalize_diagonal
        massless massive Matrix_identity Vec3_zero true = Some r /\
      fit_rmsd r = (-1)%float /\
      fit_log r = ["Error: Frame::RMSD: Divide by zero."] /\
      fit_this r = massless /\ fit_U r = Matrix_identity) /\
   (exists r,
      RMSD SMALL_example transpose_product diagonalize_diagonal
        massless massive Matrix_identity Vec3_zero Vec3_zero true = Some r /\
      fit_rmsd (rmsd_fit r) = (-1)%float /\
      fit_log (rmsd_fit r) = ["Error: Frame::RMSD: Divide by zero."] /\
      fit_this (rmsd_fit r) = massless /\ fit_U (rmsd_fit r) = Matrix_identity)) /\
  ((exists r,
      RMSD_CenteredRef SMALL_example transpose_product diagonalize_diagonal
        Frame_default two_atoms Matrix_identity Vec3_zero false = Some r /\
      fit_rmsd r = (-1)%float /\
      fit_log r = ["Error: Frame::RMSD: Divide by zero."] /\
      fit_this r = Frame_default /\ fit_U r = Matrix_identity) /\
   (exists r,
      RMSD SMALL_example transpose_product diagonalize_diagonal
        Frame_default Frame_default Matrix_identity Vec3_zero Vec3_zero false = Some r /\
      fit_rmsd (rmsd_fit r) = (-1)%float /\
      fit_log (rmsd_fit r) = ["Error: Frame::RMSD: Divide by zero."] /\
      fit_this (rmsd_fit r) = Frame_default /\ fit_U (rmsd_fit r) = Matrix_identity)).
Proof.
  split.
  - destruct (RMSD_zero_weight SMALL_example transpose_product diagonalize_diagonal
                massless true [mkVec3 1 2 3]%float) as [H1 H2].
    + split; [reflexivity|]. split; [reflexivity|]. right. exists []. reflexivity.
    + intros _. simpl. lia.
    + vm_compute. reflexivity.
    + split.
      * exact (H1 massive Matrix_identity Vec3_zero).
      * refine (H2 massive Matrix_identity Vec3_zero Vec3_zero [mkVec3 4 5 6]%float _ _ _).
        -- split; [reflexivity|]. split; [reflexivity|]. right. exists []. reflexivity.
        -- reflexivity.
        -- intros _. simpl. lia.
  - destruct (RMSD_zero_weight SMALL_example transpose_product diagonalize_diagonal
                Frame_default false []) as [H1 H2].
    + split; [reflexivity|]. split; [reflexivity|]. left. reflexivity.
    + discriminate.
    + vm_compute. reflexivity.
    + split.
      * exact (H1 two_atoms Matrix_identity Vec3_zero).
      * refine (H2 Frame_default Matrix_identity Vec3_zero Vec3_zero [] _ _ _).
        -- split; [reflexivity|]. split; [reflexivity|]. left. reflexivity.
        -- reflexivity.
        -- discriminate.
Defined.

Lemma RMSD_translates_both_frames_witness :
  exists r,
    RMSD SMALL_example transpose_product diagonalize_diagonal
      pair_frame pair_moved Matrix_zero Vec3_zero Vec3_zero true = Some r /\
    fit_this (rmsd_fit r) = with_X pair_frame (Buf [-0.5; 0; 0; 0.5; 0; 0]%float) /\
    rmsd_Ref r = with_X pair_moved (Buf [-0.5; 0; 0; 0.5; 0; 0]%float) /\
    fit_Trans (rmsd_fit r) = mkVec3 (-0.5) (-0) (-0) /\
    rmsd_refTrans r = mkVec3 5.5 5 5.
Proof.
  refine (RMSD_translates_both_frames SMALL_example transpose_product
            diagonalize_diagonal pair_frame pair_moved Matrix_zero Vec3_zero Vec3_zero
            true pair_atoms pair_moved_atoms [] [] _ _ _ _ _ _).
  - repeat split; reflexivity.
  - repeat split; reflexivity.
  - reflexivity.
  - intros _. simpl. lia.
  - intros _. simpl. lia.
  - vm_compute. reflexivity.
Defined.

(** ** Float arrays *)

Lemma copy_cell_middle (farray pre rest : list double) (a v : double) (i : Z) :
  i = Z.of_nat (length pre) -> rd farray i = Some v ->
  copy_cell farray (pre ++ a :: rest) i = Some (pre ++ v :: rest).
Proof. intros Hi Hv. unfold copy_cell. rewrite Hv. apply wr_middle, Hi. Qed.

Lemma copy_cell_loop (farray mid : list double) :
  forall pre smid rest,
    length smid = length mid ->
    cells_at farray (Z.of_nat (length pre)) smid ->
    foldlM (copy_cell farray) (seqZ (Z.of_nat (length pre)) (Z.of_nat (length mid)))
      (pre ++ mid ++ rest)
    = Some (pre ++ smid ++ rest).
Proof.
  induction mid as [|a mid IH]; intros pre smid rest Hl Hs.
  - destruct smid; [reflexivity|discriminate].
  - destruct smid as [|s smid]; [discriminate|]. injection Hl as Hl.
    apply cells_at_tail in Hs as [Hs0 Hs].
    rewrite seqZ_cons by (cbn [length]; lia). cbn [foldlM].
    rewrite <- app_comm_cons, (copy_cell_middle farray pre (mid ++ rest) a s _ eq_refl Hs0).
    cbn [mbind option_bind].
    replace (pre ++ s :: mid ++ rest) with ((pre ++ [s]) ++ mid ++ rest)
      by (rewrite <- app_assoc; reflexivity).
    replace (Z.succ (Z.of_nat (length pre))) with (Z.of_nat (length (pre ++ [s])))
      by (rewrite length_app; cbn [length]; lia).
    replace (Z.pred (Z.of_nat (length (a :: mid)))) with (Z.of_nat (length mid))
      by (cbn [length]; lia).
    rewrite (IH _ smid rest Hl), <- !app_assoc; [reflexivity|].
    rewrite length_app. cbn [length].
    replace (Z.of_nat (length pre + 1)) with (Z.of_nat (length pre) + 1) by lia.
    exact Hs.
Qed.

Lemma cells_at_drop (x : list double) (n : nat) :
  cells_at x (Z.of_nat n) (drop n x).
Proof.
  intros i v Hi. unfold rd.
  destruct (Z.leb_spec 0 (Z.of_nat n + Z.of_nat i)); [|lia].
  rewrite lookup_drop in Hi. rewrite <- Hi. f_equal. lia.
Qed.

Lemma copy_box_middle (farray pre rest : list double) (f_ncoord : Z) (a v : double) (i : Z) :
  i = Z.of_nat (length pre) -> in_int (f_ncoord + i) -> rd farray (f_ncoord + i) = Some v ->
  copy_box farray f_ncoord (pre ++ a :: rest) i = Some (pre ++ v :: rest).
Proof.
  intros Hi Hin Hv. unfold copy_box, iadd. rewrite (int_wrap_id _ Hin), Hv.
  apply wr_middle, Hi.
Qed.

(** The box cells are read at [f_ncoord + ib]. *)
Lemma copy_box_loop (farray mid : list double) (f_ncoord : Z) :
  forall pre smid rest,
    length smid = length mid ->
    0 <= f_ncoord ->
    f_ncoord + Z.of_nat (length pre) + Z.of_nat (length mid) <= INT_MAX ->
    cells_at farray (f_ncoord + Z.of_nat (length pre)) smid ->
    foldlM (copy_box farray f_ncoord) (seqZ (Z.of_nat (length pre)) (Z.of_nat (length mid)))
      (pre ++ mid ++ rest)
    = Some (pre ++ smid ++ rest).
Proof.
  induction mid as [|a mid IH]; intros pre smid rest Hl H0 Hmax Hs.
  - destruct smid; [reflexivity|discriminate].
  - destruct smid as [|s smid]; [discriminate|]. injection Hl as Hl.
    apply cells_at_tail in Hs as [Hs0 Hs].
    rewrite seqZ_cons by (cbn [length]; lia). cbn [foldlM].
    rewrite <- app_comm_cons.
    rewrite (copy_box_middle farray pre (mid ++ rest) f_ncoord a s _ eq_refl)
      by (try apply in_int_small; cbn [length] in Hmax; solve [lia | exact Hs0]).
    cbn [mbind option_bind].
    replace (pre ++ s :: mid ++ rest) with ((pre ++ [s]) ++ mid ++ rest)
      by (rewrite <- app_assoc; reflexivity).
    replace (Z.succ (Z.of_nat (length pre))) with (Z.of_nat (length (pre ++ [s])))
      by (rewrite length_app; cbn [length]; lia).
    replace (Z.pred (Z.of_nat (length (a :: mid)))) with (Z.of_nat (length mid))
      by (cbn [length]; lia).
    rewrite (IH _ smid rest Hl H0), <- !app_assoc; [reflexivity| |].
    + rewrite length_app. cbn [length] in *. lia.
    + rewrite length_app. cbn [length].
      replace (f_ncoord + Z.of_nat (length pre + 1))
        with (f_ncoord + Z.of_nat (length pre) + 1) by lia.
      exact Hs.
Qed.

(** The leading [nb] box cells taken from the array cells that follow the
    first [k]. *)
Lemma box_loaded (farray b : list double) (k : nat) (nb : Z) :
  0 <= nb -> Z.of_nat k + nb = Z.of_nat (length farray) ->
  nb <= Z.of_nat (length b) -> Z.of_nat (length farray) <= INT_MAX ->
  foldlM (copy_box farray (Z.of_nat k)) (upto nb) b
  = Some (drop k farray ++ drop (Z.to_nat nb) b).
Proof.
  intros H0 Hk Hb Hmax. unfold upto.
  pose proof (copy_box_loop farray (take (Z.to_nat nb) b) (Z.of_nat k) [] (drop k farray)
                (drop (Z.to_nat nb) b)) as G.
  cbn [app length] in G. change (Z.of_nat 0) with 0 in G.
  rewrite take_drop, length_take, Z.add_0_r in G.
  replace (Z.of_nat (Z.to_nat nb `min` length b)) with nb in G by lia.
  apply G; [rewrite length_drop|..|apply cells_at_drop]; lia.
Qed.

Lemma idiv_nonneg (a b : Z) : 0 <= a <= INT_MAX -> 0 < b -> idiv a b = a `div` b.
Proof.
  intros Ha Hb. unfold idiv. rewrite Z.quot_div_nonneg by lia.
  apply int_wrap_id, in_int_small. split; [apply Z.div_pos; lia|].
  assert (a `div` b <= a) by (apply Z.div_le_upper_bound; nia). lia.
Qed.

Lemma SetFromCRD_loads (this : Frame) (x farray : list double) (nb : Z) :
  X_ this = Buf x ->
  0 <= nb <= Z.of_nat (length farray) ->
  nb <= Z.of_nat (length (box_ this)) ->
  Z.of_nat (length farray) <= INT_MAX ->
  in_int (maxnatom_ this * 3) ->
  Z.of_nat (length farray) - nb <= maxnatom_ this * 3 ->
  Z.of_nat (length farray) - nb <= Z.of_nat (length x) ->
  SetFromCRD this farray nb = Some (crd_loaded this x farray nb, []).
Proof.
  intros HX Hnb Hbox Hfa Hmax Hcap Hx.
  set (n := Z.to_nat (Z.of_nat (length farray) - nb)).
  assert (Hn : Z.of_nat n = Z.of_nat (length farray) - nb) by lia.
  unfold SetFromCRD, isub, upto.
  rewrite (int_wrap_id (Z.of_nat (length farray))) by (apply in_int_small; lia).
  rewrite (int_wrap_id (Z.of_nat (length farray) - nb)) by (apply in_int_small; lia).
  rewrite (imul3_id _ Hmax), <- Hn.
  destruct (Z.ltb_spec (maxnatom_ this * 3) (Z.of_nat n)) as [?|_]; [lia|].
  rewrite (idiv_nonneg (Z.of_nat n) 3) by lia.
  assert (EX : (match seqZ 0 (Z.of_nat n) with
                | [] => Some (X_ this)
                | ixs => x0 ← cells_of (X_ this); Buf <$> foldlM (copy_cell farray) ixs x0
                end) = Some (Buf (take n farray ++ drop n x))).
  { pose proof (copy_cell_loop farray (take n x) [] (take n farray) (drop n x)
                  ltac:(rewrite !length_take; lia) (cells_at_take farray n)) as G.
    cbn [app length] in G. change (Z.of_nat 0) with 0 in G.
    rewrite take_drop, length_take in G.
    replace (Z.of_nat (n `min` length x)) with (Z.of_nat n) in G by lia.
    destruct (seqZ 0 (Z.of_nat n)) eqn:E.
    - apply (f_equal length) in E. rewrite length_seqZ in E. cbn [length] in E.
      assert (n = 0%nat) as -> by lia. rewrite take_0, !drop_0. rewrite HX. reflexivity.
    - rewrite HX. cbn [cells_of mbind option_bind]. rewrite G. reflexivity. }
  rewrite EX. cbn [mbind option_bind].
  fold (upto nb). rewrite (box_loaded farray (box_ this) n nb) by lia. reflexivity.
Qed.

(** X1: [SetFromCRD] rejects, with one message and the frame untouched, an
    array with more coordinate cells than the capacity has room for.
    Otherwise the cells before the last [numBoxCrd] become the leading
    coordinates, the last [numBoxCrd] cells the leading box cells,
    [ncoord_] the number of coordinate cells and [natom_] a third of it,
    rounded down; capacity, temperature, velocities and masses stay. *)
Theorem SetFromCRD_spec (this : Frame) (x farray : list double) (numBoxCrd : Z) :
  X_ this = Buf x ->
  0 <= numBoxCrd <= Z.of_nat (length farray) ->
  numBoxCrd <= Z.of_nat (length (box_ this)) ->
  Z.of_nat (length farray) <= INT_MAX ->
  in_int (maxnatom_ this * 3) ->
  maxnatom_ this * 3 <= Z.of_nat (length x) ->
  SetFromCRD this farray numBoxCrd
  = if maxnatom_ this * 3 <? Z.of_nat (length farray) - numBoxCrd
    then Some (this, ["Error: Float array size (%zu) > max #coords in frame (%i)"])
    else Some (crd_loaded this x farray numBoxCrd, []).
Proof.
  intros HX Hnb Hbox Hfa Hmax Hx.
  destruct (Z.ltb_spec (maxnatom_ this * 3) (Z.of_nat (length farray) - numBoxCrd))
    as [Hbig|Hfit].
  - unfold SetFromCRD, isub.
    rewrite (int_wrap_id (Z.of_nat (length farray))) by (apply in_int_small; lia).
    rewrite (int_wrap_id (Z.of_nat (length farray) - numBoxCrd))
      by (apply in_int_small; lia).
    rewrite (imul3_id _ Hmax).
    destruct (Z.ltb_spec (maxnatom_ this * 3) (Z.of_nat (length farray) - numBoxCrd));
      [reflexivity|lia].
  - apply (SetFromCRD_loads this x farray numBoxCrd HX Hnb Hbox Hfa Hmax Hfit). lia.
Qed.

Lemma SetFromCRD_spec_witness :
  SetFromCRD crd_dst [1; 2; 3; 4; 5; 6; 7]%float 1
  = Some (mkFrame 2 2 6 [7; 0; 0; 0; 0; 0]%float dzero
            (Buf [1; 2; 3; 4; 5; 6]%float) NULL [], []) /\
  SetFromCRD crd_dst [1; 2; 3; 4; 5; 6; 7; 8]%float 1
  = Some (crd_dst, ["Error: Float array size (%zu) > max #coords in frame (%i)"]).
Proof.
  split.
  - refine (SetFromCRD_spec crd_dst (replicate 6 dzero) [1; 2; 3; 4; 5; 6; 7]%float 1
              eq_refl _ _ _ _ _);
      cbn; unfold in_int, INT_MIN, INT_MAX; lia.
  - refine (SetFromCRD_spec crd_dst (replicate 6 dzero) [1; 2; 3; 4; 5; 6; 7; 8]%float 1
              eq_refl _ _ _ _ _);
      cbn; unfold in_int, INT_MIN, INT_MAX; lia.
Defined.

Lemma copy_crd_atom_step (farray pre rest : list double) (a0 b0 c0 : double) (a : Z) :
  Z.of_nat (length farray) <= INT_MAX ->
  Z.of_nat (length pre) + 3 <= INT_MAX ->
  atom_in farray a ->
  copy_crd_atom farray (pre ++ a0 :: b0 :: c0 :: rest, Z.of_nat (length pre)) a
  = Some (pre ++ atom_cells farray a ++ rest, Z.of_nat (length pre) + 3).
Proof.
  intros Hs Hp Ha.
  destruct (atom_cells_rd farray a Ha) as (p & q & r & Hc & Hrp & Hrq & Hrr).
  pose proof Ha as [Ha0 Ha1].
  unfold copy_crd_atom, iadd. rewrite (imul3_atom farray a Hs Ha).
  rewrite !int_wrap_id by (apply in_int_small; lia).
  rewrite Hrp. cbn [mbind option_bind].
  rewrite (wr_middle _ _ _ _ _ eq_refl). cbn [mbind option_bind].
  rewrite Hrq. cbn [mbind option_bind].
  rewrite (wr_second _ _ _ _ _ _ eq_refl). cbn [mbind option_bind].
  rewrite Hrr. cbn [mbind option_bind].
  rewrite (wr_third _ _ _ _ _ _ _ eq_refl). cbn [mbind option_bind].
  rewrite Hc. reflexivity.
Qed.

Lemma copy_crd_loop (farray : list double) (mask : list Z) :
  Z.of_nat (length farray) <= INT_MAX ->
  Forall (atom_in farray) mask ->
  forall pre mid rest,
    length mid = (3 * length mask)%nat ->
    Z.of_nat (length pre) + 3 * Z.of_nat (length mask) <= INT_MAX ->
    foldlM (copy_crd_atom farray) mask (pre ++ mid ++ rest, Z.of_nat (length pre))
    = Some (pre ++ gather farray mask ++ rest,
            Z.of_nat (length pre) + 3 * Z.of_nat (length mask)).
Proof.
  intros Hs Hall. induction Hall as [|a mask Ha Hall IH]; intros pre mid rest Hlen Hmax.
  - destruct mid; [|discriminate]. simpl. loop_done.
  - destruct (length3 mid _ Hlen) as (a0 & b0 & c0 & mid' & -> & Hlen').
    cbn [foldlM]. rewrite <- !app_comm_cons.
    rewrite (copy_crd_atom_step farray pre (mid' ++ rest) a0 b0 c0 a Hs)
      by (cbn [length] in Hmax; solve [lia | exact Ha]).
    cbn [mbind option_bind].
    rewrite (app_assoc pre).
    replace (Z.of_nat (length pre) + 3)
      with (Z.of_nat (length (pre ++ atom_cells farray a)))
      by (rewrite length_app, (atom_cells_length _ _ Ha); lia).
    rewrite (IH _ _ _ Hlen')
      by (rewrite length_app, (atom_cells_length _ _ Ha); cbn [length] in Hmax; lia).
    unfold gather. rewrite bind_cons, <- !app_assoc, length_app, (atom_cells_length _ _ Ha).
    loop_done.
Qed.

(** X2: [SetFromCRD] with a mask rejects, with one message and the frame
    untouched, a selection larger than the capacity.  Otherwise the
    leading coordinates become the selected atoms of the array in mask
    order, the last [numBoxCrd] array cells the leading box cells, and the
    counts those of the mask. *)
Theorem SetFromCRD_mask_spec (this : Frame) (x farray : list double) (numBoxCrd : Z)
    (mask : AtomMask) :
  X_ this = Buf x ->
  0 <= numBoxCrd <= Z.of_nat (length farray) ->
  numBoxCrd <= Z.of_nat (length (box_ this)) ->
  Z.of_nat (length farray) <= INT_MAX ->
  3 * maxnatom_ this <= Z.of_nat (length x) ->
  Z.of_nat (length x) <= INT_MAX ->
  Forall (atom_in farray) mask ->
  SetFromCRD_mask this farray numBoxCrd mask
  = if maxnatom_ this <? Nselected mask
    then Some (this,
               ["Error: Selected # atoms in float array (%i) > max #atoms in frame (%i)"])
    else Some (crd_selected this x farray numBoxCrd mask, []).
Proof.
  intros HX Hnb Hbox Hfa Hcap Hx Hall.
  unfold SetFromCRD_mask, Nselected, isub.
  destruct (Z.ltb_spec (maxnatom_ this) (Z.of_nat (length mask))) as [?|Hsel];
    [reflexivity|].
  rewrite (int_wrap_id (Z.of_nat (length farray))) by (apply in_int_small; lia).
  rewrite (int_wrap_id (Z.of_nat (length farray) - numBoxCrd))
    by (apply in_int_small; lia).
  assert (E3 : imul (Z.of_nat (length mask)) 3 = 3 * Z.of_nat (length mask)).
  { rewrite imul3_id; [lia|]. apply in_int_small. lia. }
  rewrite E3. set (n := length mask) in *.
  assert (EX : (match mask with
                | [] => Some (X_ this)
                | _ => x0 ← cells_of (X_ this);
                       '(x1, _) ← foldlM (copy_crd_atom farray) mask (x0, 0); Some (Buf x1)
                end) = Some (Buf (gather farray mask ++ drop (3 * n) x))).
  { pose proof (copy_crd_loop farray mask Hfa Hall [] (take (3 * n) x) (drop (3 * n) x)
                  ltac:(rewrite length_take; lia) ltac:(cbn [length]; lia)) as G.
    cbn [app length] in G. change (Z.of_nat 0) with 0 in G. rewrite take_drop in G.
    destruct mask as [|a mask'] eqn:E.
    - subst n. cbn. rewrite drop_0. exact (f_equal Some HX).
    - rewrite HX. cbn [cells_of mbind option_bind]. rewrite G. reflexivity. }
  rewrite EX. cbn [mbind option_bind].
  set (k := (length farray - Z.to_nat numBoxCrd)%nat).
  replace (Z.of_nat (length farray) - numBoxCrd) with (Z.of_nat k) by lia.
  rewrite (box_loaded farray (box_ this) k numBoxCrd) by lia. reflexivity.
Qed.

Lemma SetFromCRD_mask_spec_witness :
  SetFromCRD_mask map_dst [1; 2; 3; 4; 5; 6; 7; 8; 9]%float 0 [2; 0]
  = Some (mkFrame 2 3 6 zero_box dzero
            (Buf [7; 8; 9; 1; 2; 3; 0; 0; 0]%float) NULL [], []).
Proof.
  refine (SetFromCRD_mask_spec map_dst (replicate 9 dzero)
            [1; 2; 3; 4; 5; 6; 7; 8; 9]%float 0 [2; 0] eq_refl _ _ _ _ _ _);
    try (cbn; unfold INT_MAX; lia).
  repeat constructor; cbn; lia.
Defined.

Lemma push_cell_step (src fa : list double) (i : Z) (v : double) :
  rd src i = Some v -> push_cell src fa i = Some (fa ++ [float_of_double v]).
Proof. intros H. unfold push_cell. rewrite H. reflexivity. Qed.

Lemma push_cell_loop (src l : list double) :
  forall k fa,
    cells_at src k l ->
    foldlM (push_cell src) (seqZ k (Z.of_nat (length l))) fa
    = Some (fa ++ (float_of_double <$> l)).
Proof.
  induction l as [|v l IH]; intros k fa Hs.
  - cbn. rewrite app_nil_r. reflexivity.
  - apply cells_at_tail in Hs as [Hs0 Hs].
    rewrite seqZ_cons by (cbn [length]; lia). cbn [foldlM].
    rewrite (push_cell_step _ _ _ _ Hs0). cbn [mbind option_bind].
    replace (Z.pred (Z.of_nat (length (v :: l)))) with (Z.of_nat (length l))
      by (cbn [length]; lia).
    rewrite (IH (Z.succ k) _ Hs), <- app_assoc. reflexivity.
Qed.

Lemma ConvertToCRD_converts (this : Frame) (x : list double) (nb : Z) :
  X_ this = Buf x ->
  0 <= ncoord_ this <= Z.of_nat (length x) ->
  0 <= nb <= Z.of_nat (length (box_ this)) ->
  ncoord_ this + nb <= INT_MAX ->
  ConvertToCRD this nb = Some (crd_of this x nb).
Proof.
  intros HX Hn Hnb Hmax. unfold ConvertToCRD, iadd, upto, crd_of.
  rewrite int_wrap_id by (apply in_int_small; lia).
  destruct (Z.ltb_spec (ncoord_ this + nb) 0) as [?|_]; [lia|].
  set (n := Z.to_nat (ncoord_ this)). set (b := Z.to_nat nb).
  pose proof (push_cell_loop x (take n x) 0 [] (cells_at_take x n)) as G.
  rewrite length_take in G.
  replace (Z.of_nat (n `min` length x)) with (ncoord_ this) in G by lia.
  pose proof (push_cell_loop (box_ this) (take b (box_ this)) 0
                (float_of_double <$> take n x) (cells_at_take _ b)) as B.
  rewrite length_take in B.
  replace (Z.of_nat (b `min` length (box_ this))) with nb in B by lia.
  destruct (seqZ 0 (ncoord_ this)) eqn:E.
  - apply (f_equal length) in E. rewrite length_seqZ in E. cbn [length] in E.
    assert (n = 0%nat) as Hn0 by lia. rewrite Hn0 in *. rewrite take_0 in *.
    cbn [mbind option_bind]. exact B.
  - rewrite HX. cbn [cells_of mbind option_bind]. rewrite G.
    cbn [mbind option_bind app]. exact B.
Qed.

(** X3: [ConvertToCRD] returns the frame's [ncoord_] coordinate cells
    followed by its first [numBoxCrd] box cells, each narrowed to single
    precision: an array of [ncoord_ + numBoxCrd] cells. *)
Theorem ConvertToCRD_spec (this : Frame) (x : list double) (numBoxCrd : Z) :
  X_ this = Buf x ->
  0 <= ncoord_ this <= Z.of_nat (length x) ->
  0 <= numBoxCrd <= Z.of_nat (length (box_ this)) ->
  ncoord_ this + numBoxCrd <= INT_MAX ->
  ConvertToCRD this numBoxCrd
  = Some ((float_of_double <$> take (Z.to_nat (ncoord_ this)) x)
          ++ (float_of_double <$> take (Z.to_nat numBoxCrd) (box_ this))) /\
  Z.of_nat (length (crd_of this x numBoxCrd)) = ncoord_ this + numBoxCrd.
Proof.
  intros HX Hn Hnb Hmax. split.
  - exact (ConvertToCRD_converts this x numBoxCrd HX Hn Hnb Hmax).
  - unfold crd_of. rewrite length_app, !length_fmap, !length_take. lia.
Qed.

Lemma ConvertToCRD_spec_witness :
  ConvertToCRD boxed 3
  = Some [0x1.99999ap-4; 0.5; 16777216; -1.5; 2; 3; 10; 20; 30]%float.
Proof.
  refine (proj1 (ConvertToCRD_spec boxed [0x1.999999999999ap-4; 0.5; 16777217; -1.5; 2; 3]%float 3
                   eq_refl _ _ _));
    cbn; unfold INT_MAX; lia.
Defined.

(** X4: a frame written out with [ConvertToCRD] and read back with
    [SetFromCRD] keeps its coordinate count, capacity, temperature,
    velocities and masses; its coordinates and the leading [numBoxCrd] box
    cells come back narrowed to single precision, and its atom count is a
    third of the coordinate count, rounded down. *)
Theorem CRD_round_trip (this : Frame) (x : list double) (numBoxCrd : Z) :
  X_ this = Buf x ->
  0 <= ncoord_ this <= Z.of_nat (length x) ->
  0 <= numBoxCrd <= Z.of_nat (length (box_ this)) ->
  ncoord_ this + numBoxCrd <= INT_MAX ->
  in_int (maxnatom_ this * 3) ->
  ncoord_ this <= maxnatom_ this * 3 ->
  let n := Z.to_nat (ncoord_ this) in
  let b := Z.to_nat numBoxCrd in
  (farray ← ConvertToCRD this numBoxCrd; SetFromCRD this farray numBoxCrd)
  = Some (mkFrame (ncoord_ this `div` 3) (maxnatom_ this) (ncoord_ this)
            ((float_of_double <$> take b (box_ this)) ++ drop b (box_ this)) (T_ this)
            (Buf ((float_of_double <$> take n x) ++ drop n x)) (V_ this) (Mass_ this), []).
Proof.
  intros HX Hn Hnb Hmax Hin Hcap n b.
  rewrite (ConvertToCRD_converts this x numBoxCrd HX Hn Hnb Hmax).
  cbn [mbind option_bind].
  assert (L : Z.of_nat (length (crd_of this x numBoxCrd)) = ncoord_ this + numBoxCrd).
  { unfold crd_of. rewrite length_app, !length_fmap, !length_take. lia. }
  rewrite (SetFromCRD_loads this x (crd_of this x numBoxCrd) numBoxCrd HX)
    by (try exact Hin; lia).
  unfold crd_loaded. rewrite L.
  replace (ncoord_ this + numBoxCrd - numBoxCrd) with (ncoord_ this) by lia.
  fold n. replace (Z.of_nat n) with (ncoord_ this) by lia.
  assert (Ln : length (float_of_double <$> take n x) = n)
    by (rewrite length_fmap, length_take; lia).
  unfold crd_of. fold n b.
  rewrite take_app_length' by (symmetry; exact Ln).
  rewrite drop_app_length' by (symmetry; exact Ln).
  reflexivity.
Qed.

Lemma CRD_round_trip_witness :
  (farray ← ConvertToCRD boxed 3; SetFromCRD boxed farray 3)
  = Some (mkFrame 2 2 6 [10; 20; 30; 90; 90; 90]%float dzero
            (Buf [0x1.99999ap-4; 0.5; 16777216; -1.5; 2; 3]%float) NULL [], []).
Proof.
  refine (CRD_round_trip boxed [0x1.999999999999ap-4; 0.5; 16777217; -1.5; 2; 3]%float 3 eq_refl _ _ _ _ _);
    cbn; unfold in_int, INT_MIN, INT_MAX; lia.
Defined.

(** ** Appending atoms *)

Lemma coords_snoc (atoms : list Vec3) (v : Vec3) :
  coords (atoms ++ [v]) = coords atoms ++ [vx v; vy v; vz v].
Proof. rewrite coords_app. reflexivity. Qed.

(** Writing one atom behind the atoms an array already holds. *)
Lemma memcpy3_append (atoms : list Vec3) (x src : list double) (a b c : double)
    (more : list double) :
  take (3 * length atoms) x = coords atoms ->
  (3 * length atoms + 3 <= length x)%nat ->
  src = a :: b :: c :: more ->
  exists x',
    memcpy3 x (3 * Z.of_nat (length atoms)) src 0 = Some x' /\
    take (3 * length (atoms ++ [mkVec3 a b c])) x' = coords (atoms ++ [mkVec3 a b c]) /\
    length x' = length x.
Proof.
  intros Ht Hl ->.
  assert (Hx : x = coords atoms ++ drop (3 * length atoms) x)
    by (rewrite <- Ht; symmetry; apply take_drop).
  destruct (drop (3 * length atoms) x) as [|a0 [|b0 [|c0 rest]]] eqn:E;
    try (apply (f_equal length) in E; rewrite length_drop in E; cbn [length] in E; lia).
  exists (coords atoms ++ a :: b :: c :: rest).
  assert (Hoff : 3 * Z.of_nat (length atoms) = Z.of_nat (length (coords atoms)))
    by (rewrite coords_length; lia).
  split; [|split].
  - rewrite Hx.
    apply (memcpy3_middle (coords atoms) rest (a :: b :: c :: more) a0 b0 c0 a b c _ 0 Hoff);
      reflexivity.
  - rewrite coords_snoc. cbn [vx vy vz].
    replace (3 * length (atoms ++ [mkVec3 a b c]))%nat
      with (length (coords atoms ++ [a; b; c]))
      by (rewrite !length_app, coords_length; cbn [length]; lia).
    change (coords atoms ++ a :: b :: c :: rest) with (coords atoms ++ [a; b; c] ++ rest).
    rewrite app_assoc. apply take_app_length.
  - rewrite Hx. rewrite !length_app. reflexivity.
Qed.

Lemma append_xyz_stores (indet : nat -> double) (f : Frame) (atoms : list Vec3)
    (src : list double) (a b c : double) (more : list double) :
  stores f atoms ->
  natom_ f < maxnatom_ f \/ 3 * (maxnatom_ f + 500) <= INT_MAX ->
  src = a :: b :: c :: more ->
  exists r,
    append_xyz indet f src = Some r /\
    stores r (atoms ++ [mkVec3 a b c]) /\
    maxnatom_ r = (if natom_ f <? maxnatom_ f then maxnatom_ f else maxnatom_ f + 500) /\
    box_ r = box_ f /\ T_ r = T_ f /\ V_ r = V_ f /\ Mass_ r = Mass_ f.
Proof.
  intros (Hn & Hc & Hle & Hmax & HX) Hroom Hsrc.
  unfold append_xyz.
  destruct (Z.leb_spec (maxnatom_ f) (natom_ f)) as [Hfull|Hfree].
  - (* the array is full: reallocate *)
    destruct Hroom as [?|Hroom]; [lia|].
    assert (Heq : maxnatom_ f = natom_ f) by lia.
    destruct (Z.ltb_spec (natom_ f) (maxnatom_ f)) as [?|_]; [lia|].
    unfold ReallocateX, iadd.
    assert (H0 : 0 <= maxnatom_ f) by lia.
    rewrite (int_wrap_id (maxnatom_ f + 500)) by (apply in_int_small; lia).
    rewrite imul3_id by (apply in_int_small; lia).
    destruct (new_double_some indet ((maxnatom_ f + 500) * 3) ltac:(lia))
      as (nx & -> & Hnx).
    cbn [mbind option_bind].
    assert (Hx1 : exists x1,
               match X_ f with
               | NULL => Some nx
               | Buf old => memcpy_prefix nx old (natom_ f * 3)
               | Dangling => None
               end = Some x1 /\
               take (3 * length atoms) x1 = coords atoms /\ length x1 = length nx).
    { destruct (X_ f) as [|x|]; [| |contradiction].
      - exists nx. split; [reflexivity|]. split; [|reflexivity].
        assert (length atoms = 0%nat) as L by lia.
        destruct atoms; [|discriminate L]. reflexivity.
      - destruct HX as [Ht Hl].
        exists (take (Z.to_nat (natom_ f * 3)) x ++ drop (Z.to_nat (natom_ f * 3)) nx).
        unfold memcpy_prefix.
        destruct (Z.leb_spec 0 (natom_ f * 3)); [|lia].
        destruct (Z.leb_spec (natom_ f * 3) (Z.of_nat (length x))); [|lia].
        destruct (Z.leb_spec (natom_ f * 3) (Z.of_nat (length nx))); [|lia].
        split; [reflexivity|].
        replace (Z.to_nat (natom_ f * 3)) with (3 * length atoms)%nat by lia.
        split.
        + rewrite take_app_le by (rewrite length_take; lia).
          rewrite take_take, Nat.min_id. exact Ht.
        + rewrite length_app, length_take, length_drop. lia. }
    destruct Hx1 as (x1 & -> & Ht1 & Hl1). cbn [mbind option_bind].
    cbn [with_X with_max X_ ncoord_ natom_ cells_of mbind option_bind].
    rewrite Hc.
    destruct (memcpy3_append atoms x1 src a b c more Ht1 ltac:(lia) Hsrc)
      as (x' & -> & Ht' & Hl').
    cbn [mbind option_bind]. eexists. split; [reflexivity|].
    split; [|repeat split].
    unfold stores. cbn [with_counts with_X with_max natom_ ncoord_ maxnatom_ X_].
    rewrite ?Hn, ?Hc, length_app. cbn [length]. unfold iadd.
    rewrite !int_wrap_id by (apply in_int_small; lia).
    repeat split; try lia. rewrite length_app in Ht'. exact Ht'.
  - (* room left *)
    destruct (Z.ltb_spec (natom_ f) (maxnatom_ f)) as [_|?]; [|lia].
    destruct (X_ f) as [|x|] eqn:EX; [lia| |contradiction].
    destruct HX as [Ht Hl]. cbn [mbind option_bind]. rewrite EX.
    cbn [cells_of mbind option_bind]. rewrite Hc.
    destruct (memcpy3_append atoms x src a b c more Ht ltac:(lia) Hsrc)
      as (x' & -> & Ht' & Hl').
    cbn [mbind option_bind]. eexists. split; [reflexivity|].
    split; [|repeat split].
    unfold stores. cbn [with_counts with_X natom_ ncoord_ maxnatom_ X_].
    rewrite ?Hn, ?Hc, length_app. cbn [length]. unfold iadd.
    rewrite !int_wrap_id by (apply in_int_small; lia).
    repeat split; try lia. rewrite length_app in Ht'. exact Ht'.
Qed.

Lemma Vec3_eta (v : Vec3) : mkVec3 (vx v) (vy v) (vz v) = v.
Proof. destruct v; reflexivity. Qed.

(** X5: on a frame that holds [atoms] in an array sized for its capacity,
    [AddVec3] and [AddXYZ] append one atom: the frame then holds [atoms]
    followed by the new atom; its capacity is unchanged when there was
    room and 500 atoms larger when the array was full, the atoms held
    being carried over; box, temperature, velocities and masses stay.
    [AddXYZ] of a null pointer changes nothing. *)
Theorem AddVec3_appends (indet : nat -> double) (f : Frame) (atoms : list Vec3) (v : Vec3) :
  stores f atoms ->
  natom_ f < maxnatom_ f \/ 3 * (maxnatom_ f + 500) <= INT_MAX ->
  exists r,
    AddVec3 indet f v = Some r /\
    AddXYZ indet f (Buf [vx v; vy v; vz v]) = Some r /\
    stores r (atoms ++ [v]) /\
    maxnatom_ r = (if natom_ f <? maxnatom_ f then maxnatom_ f else maxnatom_ f + 500) /\
    box_ r = box_ f /\ T_ r = T_ f /\ V_ r = V_ f /\ Mass_ r = Mass_ f /\
    AddXYZ indet f NULL = Some f.
Proof.
  intros Hs Hroom.
  destruct (append_xyz_stores indet f atoms _ (vx v) (vy v) (vz v) [] Hs Hroom eq_refl)
    as (r & Hr & Hst & Hm & Hb & HT & HV & HM).
  rewrite Vec3_eta in Hst. exists r.
  split; [exact Hr|]. split; [exact Hr|]. split; [exact Hst|]. split; [exact Hm|].
  repeat split; assumption.
Qed.

Lemma AddVec3_appends_witness :
  exists r,
    AddVec3 (fun _ => dzero) two_of_three (mkVec3 7 8 9) = Some r /\
    AddXYZ (fun _ => dzero) two_of_three (Buf [7; 8; 9]%float) = Some r /\
    stores r ([mkVec3 1 2 3; mkVec3 4 5 6] ++ [mkVec3 7 8 9])%float /\
    maxnatom_ r = 3 /\
    box_ r = zero_box /\ T_ r = dzero /\ V_ r = NULL /\ Mass_ r = [] /\
    AddXYZ (fun _ => dzero) two_of_three NULL = Some two_of_three.
Proof.
  apply (AddVec3_appends (fun _ => dzero) two_of_three
           [mkVec3 1 2 3; mkVec3 4 5 6]%float (mkVec3 7 8 9)).
  - unfold stores, INT_MAX. cbn. repeat split; lia.
  - left. cbn. lia.
Defined.

Lemma AddVec3_fold (indet : nat -> double) (vs : list Vec3) :
  forall (f : Frame) (atoms : list Vec3) (B : Z),
    stores f atoms ->
    maxnatom_ f <= B ->
    natom_ f + Z.of_nat (length vs) + 499 <= B ->
    3 * B <= INT_MAX ->
    exists r,
      foldlM (AddVec3 indet) vs f = Some r /\ stores r (atoms ++ vs) /\
      maxnatom_ r <= B /\
      box_ r = box_ f /\ T_ r = T_ f /\ V_ r = V_ f /\ Mass_ r = Mass_ f.
Proof.
  induction vs as [|v vs IH]; intros f atoms B Hs HB Hn HM.
  - exists f. rewrite app_nil_r.
    refine (conj eq_refl (conj Hs (conj HB _))). repeat split.
  - cbn [foldlM].
    change (AddVec3 indet f v) with (append_xyz indet f [vx v; vy v; vz v]).
    pose proof Hs as (Hs1 & Hs2 & Hs3 & Hs4 & _).
    destruct (append_xyz_stores indet f atoms _ (vx v) (vy v) (vz v) [] Hs
                ltac:(cbn [length] in Hn; lia) eq_refl)
      as (r1 & -> & Hr1 & Hm1 & Hb & HT & HV & HMs).
    cbn [mbind option_bind]. rewrite Vec3_eta in Hr1.
    pose proof Hr1 as (Hr1n & _).
    rewrite length_app in Hr1n. cbn [length] in Hr1n, Hn.
    destruct (IH r1 (atoms ++ [v]) B Hr1) as (r & Hr & Hst & HrB & Hb' & HT' & HV' & HMs').
    + rewrite Hm1. destruct (Z.ltb_spec (natom_ f) (maxnatom_ f)); lia.
    + lia.
    + exact HM.
    + exists r. rewrite <- app_assoc in Hst.
      refine (conj Hr (conj Hst (conj HrB _))). repeat split; congruence.
Qed.

(** X6: atoms appended one by one to an empty frame end up stored in the
    order given, whatever reallocations happen on the way; the frame has
    no velocities and no masses. *)
Theorem AddVec3_builds (indet : nat -> double) (vs : list Vec3) :
  3 * (Z.of_nat (length vs) + 499) <= INT_MAX ->
  exists r,
    foldlM (AddVec3 indet) vs Frame_default = Some r /\ stores r vs /\
    V_ r = NULL /\ Mass_ r = [] /\ box_ r = zero_box.
Proof.
  intros Hn.
  destruct (AddVec3_fold indet vs Frame_default [] (Z.of_nat (length vs) + 499))
    as (r & Hr & Hst & _ & Hb & _ & HV & HM).
  - unfold stores, INT_MAX. cbn. repeat split; lia.
  - cbn. lia.
  - cbn. lia.
  - exact Hn.
  - exists r. exact (conj Hr (conj Hst (conj HV (conj HM Hb)))).
Qed.

Lemma AddVec3_builds_witness :
  exists r,
    foldlM (AddVec3 (fun _ => dzero)) [mkVec3 1 2 3; mkVec3 4 5 6]%float Frame_default
    = Some r /\
    stores r [mkVec3 1 2 3; mkVec3 4 5 6]%float /\
    V_ r = NULL /\ Mass_ r = [] /\ box_ r = zero_box.
Proof.
  apply (AddVec3_builds (fun _ => dzero) [mkVec3 1 2 3; mkVec3 4 5 6]%float).
  unfold INT_MAX. cbn. lia.
Defined.

(** ** Copies *)

Lemma copy_buffer_copies (indet : nat -> double) (p : buffer) (natom maxnatom : Z) :
  0 <= natom <= maxnatom ->
  copyable natom p ->
  exists q, copy_buffer indet p (maxnatom * 3) natom = Some q /\ copied natom maxnatom p q.
Proof.
  intros Hn Hp. destruct p as [|src|]; [exists NULL; split; reflexivity| |contradiction].
  cbn [copyable] in Hp. cbn [copy_buffer].
  destruct (new_double_some indet (maxnatom * 3) ltac:(lia)) as (nx & -> & Hnx).
  cbn [mbind option_bind]. unfold memcpy_prefix.
  destruct (Z.leb_spec 0 (natom * 3)); [|lia].
  destruct (Z.leb_spec (natom * 3) (Z.of_nat (length src))); [|lia].
  destruct (Z.leb_spec (natom * 3) (Z.of_nat (length nx))); [|lia].
  cbn [andb fmap option_fmap option_map]. eexists. split; [reflexivity|].
  eexists. split; [reflexivity|].
  replace (Z.to_nat (natom * 3)) with (Z.to_nat (3 * natom)) by lia.
  split.
  - rewrite take_app_le by (rewrite length_take; lia).
    rewrite take_take, Nat.min_id. reflexivity.
  - rewrite length_app, length_take, length_drop. lia.
Qed.

Lemma Frame_copy_copies (indet : nat -> double) (rhs : Frame) :
  0 <= natom_ rhs <= maxnatom_ rhs ->
  3 * maxnatom_ rhs <= INT_MAX ->
  copyable (natom_ rhs) (X_ rhs) ->
  copyable (natom_ rhs) (V_ rhs) ->
  exists r,
    Frame_copy indet rhs = Some r /\
    natom_ r = natom_ rhs /\ maxnatom_ r = maxnatom_ rhs /\ ncoord_ r = ncoord_ rhs /\
    box_ r = box_ rhs /\ T_ r = T_ rhs /\ Mass_ r = Mass_ rhs /\
    copied (natom_ rhs) (maxnatom_ rhs) (X_ rhs) (X_ r) /\
    copied (natom_ rhs) (maxnatom_ rhs) (V_ rhs) (V_ r).
Proof.
  intros Hn Hmax HX HV. unfold Frame_copy.
  rewrite imul3_id by (apply in_int_small; lia).
  destruct (copy_buffer_copies indet (X_ rhs) _ _ Hn HX) as (x & -> & Hx).
  destruct (copy_buffer_copies indet (V_ rhs) _ _ Hn HV) as (v & -> & Hv).
  cbn [mbind option_bind]. eexists. split; [reflexivity|].
  cbn [natom_ maxnatom_ ncoord_ box_ T_ Mass_ X_ V_]. repeat split; assumption.
Qed.

(** X7: the copy constructor gives a frame with the counts, capacity, box,
    temperature and masses of its argument; each array the argument owns
    is copied into a new array sized for the capacity whose first
    [natom_] atoms are the argument's, and an array it does not own stays
    absent. *)
Theorem Frame_copy_spec (indet : nat -> double) (rhs : Frame) :
  0 <= natom_ rhs <= maxnatom_ rhs ->
  3 * maxnatom_ rhs <= INT_MAX ->
  copyable (natom_ rhs) (X_ rhs) ->
  copyable (natom_ rhs) (V_ rhs) ->
  exists r,
    Frame_copy indet rhs = Some r /\
    natom_ r = natom_ rhs /\ maxnatom_ r = maxnatom_ rhs /\ ncoord_ r = ncoord_ rhs /\
    box_ r = box_ rhs /\ T_ r = T_ rhs /\ Mass_ r = Mass_ rhs /\
    copied (natom_ rhs) (maxnatom_ rhs) (X_ rhs) (X_ r) /\
    copied (natom_ rhs) (maxnatom_ rhs) (V_ rhs) (V_ r).
Proof.
  intros Hn Hmax HX HV. unfold Frame_copy.
  rewrite imul3_id by (apply in_int_small; lia).
  destruct (copy_buffer_copies indet (X_ rhs) _ _ Hn HX) as (x & -> & Hx).
  destruct (copy_buffer_copies indet (V_ rhs) _ _ Hn HV) as (v & -> & Hv).
  cbn [mbind option_bind]. eexists. split; [reflexivity|].
  cbn [natom_ maxnatom_ ncoord_ box_ T_ Mass_ X_ V_]. repeat split; assumption.
Qed.

Lemma Frame_copy_spec_witness :
  exists r,
    Frame_copy (fun _ => dzero) two_of_three = Some r /\
    natom_ r = 2 /\ maxnatom_ r = 3 /\ ncoord_ r = 6 /\
    box_ r = zero_box /\ T_ r = dzero /\ Mass_ r = [] /\
    copied 2 3 (Buf [1; 2; 3; 4; 5; 6; 0; 0; 0]%float) (X_ r) /\
    copied 2 3 NULL (V_ r).
Proof.
  apply (Frame_copy_spec (fun _ => dzero) two_of_three);
    cbn; unfold INT_MAX; lia.
Defined.

(** ** Setting a frame up *)

Lemma delete_if_set_released (p : buffer) :
  p <> Dangling -> delete_if_set p = Some (released p).
Proof. destruct p; [reflexivity|reflexivity|congruence]. Qed.

Lemma grow_X_grows (indet : nat -> double) (this : Frame) (n : Z) :
  0 <= 3 * n <= INT_MAX ->
  (maxnatom_ this < n -> X_ this <> Dangling) ->
  grow_X indet (with_counts this n (imul n 3))
  = Some (mkFrame n (Z.max (maxnatom_ this) n) (3 * n) (box_ this) (T_ this)
            (grown indet this n) (V_ this) (Mass_ this),
          bool_decide (maxnatom_ this < n)).
Proof.
  intros Hn HX. unfold grow_X, grown.
  rewrite imul3_id by (apply in_int_small; lia).
  cbn [with_counts maxnatom_ natom_ ncoord_ X_].
  destruct (Z.ltb_spec (maxnatom_ this) n) as [Hlt|Hge].
  - rewrite (delete_if_set_released _ (HX Hlt)). cbn [mbind option_bind].
    unfold new_double. destruct (Z.leb_spec 0 (n * 3)); [|lia].
    cbn [mbind option_bind]. rewrite bool_decide_eq_true_2 by lia.
    unfold with_max, with_X. cbn.
    replace (Z.max (maxnatom_ this) n) with n by lia.
    replace (n * 3) with (3 * n) by lia. reflexivity.
  - rewrite bool_decide_eq_false_2 by lia.
    replace (Z.max (maxnatom_ this) n) with (maxnatom_ this) by lia.
    replace (n * 3) with (3 * n) by lia. reflexivity.
Qed.

(** X8: [SetupFrame] sets the atom count to [natomIn] and the coordinate
    count to three times that, empties the mass vector and returns 0.  The
    capacity never shrinks: the coordinate array is replaced, by one of
    exactly [3 * natomIn] uninitialised cells, only when [natomIn] exceeds
    the capacity, which then becomes [natomIn].  A velocity array is
    released; box and temperature stay. *)
Theorem SetupFrame_spec (indet : nat -> double) (this : Frame) (natomIn : Z) :
  0 <= 3 * natomIn <= INT_MAX ->
  (maxnatom_ this < natomIn -> X_ this <> Dangling) ->
  V_ this <> Dangling ->
  SetupFrame indet this natomIn
  = Some (mkFrame natomIn (Z.max (maxnatom_ this) natomIn) (3 * natomIn)
            (box_ this) (T_ this)
            (if maxnatom_ this <? natomIn
             then Buf (indet <$> seq 0 (Z.to_nat (3 * natomIn))) else X_ this)
            (released (V_ this)) [], 0).
Proof.
  intros Hn HX HV. unfold SetupFrame. rewrite (grow_X_grows indet this natomIn Hn HX).
  cbn [mbind option_bind V_]. rewrite (delete_if_set_released _ HV). reflexivity.
Qed.

Lemma SetupFrame_spec_witness :
  SetupFrame (fun _ => dzero) full3 2
  = Some (mkFrame 2 3 6 zero_box dzero (Buf [1; 2; 3; 4; 5; 6; 7; 8; 9]%float) NULL [], 0) /\
  SetupFrame (fun _ => dzero) full3 4
  = Some (mkFrame 4 4 12 zero_box dzero (Buf (replicate 12 dzero)) NULL [], 0).
Proof.
  split.
  - refine (SetupFrame_spec (fun _ => dzero) full3 2 _ _ _);
      cbn; unfold INT_MAX; solve [lia | discriminate].
  - refine (SetupFrame_spec (fun _ => dzero) full3 4 _ _ _);
      cbn; unfold INT_MAX; solve [lia | discriminate].
Defined.

(** Storing values from the start of the mass vector. *)
Lemma store_mass_middle (pre rest : list double) (a v : double) :
  store_mass (pre ++ a :: rest, Z.of_nat (length pre)) v
  = Some (pre ++ v :: rest, Z.of_nat (length pre) + 1).
Proof. unfold store_mass. rewrite (wr_middle _ _ _ _ _ eq_refl). reflexivity. Qed.

Lemma store_mass_loop (vals : list double) :
  forall pre mid rest,
    length mid = length vals ->
    foldlM store_mass vals (pre ++ mid ++ rest, Z.of_nat (length pre))
    = Some (pre ++ vals ++ rest, Z.of_nat (length pre) + Z.of_nat (length vals)).
Proof.
  induction vals as [|v vals IH]; intros pre mid rest Hl.
  - destruct mid; [|discriminate]. cbn. loop_done.
  - destruct mid as [|a mid]; [discriminate|]. injection Hl as Hl.
    cbn [foldlM]. rewrite <- app_comm_cons, store_mass_middle.
    cbn [mbind option_bind].
    replace (pre ++ v :: mid ++ rest) with ((pre ++ [v]) ++ mid ++ rest)
      by (rewrite <- app_assoc; reflexivity).
    replace (Z.of_nat (length pre) + 1) with (Z.of_nat (length (pre ++ [v])))
      by (rewrite length_app; cbn [length]; lia).
    rewrite (IH _ _ _ Hl), <- app_assoc, length_app. cbn [length app]. loop_done.
Qed.

Lemma store_masses_stores (m vals : list double) :
  (length vals <= length m)%nat ->
  store_masses m vals = Some (vals ++ drop (length vals) m).
Proof.
  intros Hl. unfold store_masses.
  pose proof (store_mass_loop vals [] (take (length vals) m) (drop (length vals) m)
                ltac:(rewrite length_take; lia)) as G.
  cbn [app length] in G. change (Z.of_nat 0) with 0 in G. rewrite take_drop in G.
  rewrite G. reflexivity.
Qed.

Lemma resized_masses_length (this : Frame) (n : Z) :
  0 <= n -> masses_fit this n ->
  (Z.to_nat n <= length (resized_masses this n))%nat.
Proof.
  intros Hn Hfit. unfold resized_masses.
  destruct (decide (maxnatom_ this < n)) as [Hlt|Hge].
  - rewrite bool_decide_eq_true_2 by exact Hlt. cbn [orb]. rewrite length_resize. lia.
  - rewrite bool_decide_eq_false_2 by exact Hge. cbn [orb].
    destruct (Mass_ this) as [|m0 ms] eqn:EM; cbn [vec_empty].
    + rewrite length_resize. lia.
    + unfold masses_fit in Hfit. rewrite EM in Hfit.
      destruct Hfit as [?|[?|?]]; [lia|congruence|lia].
Qed.

Lemma resize_masses_resizes (this : Frame) (n : Z) (x : buffer) :
  0 <= n ->
  resize_masses (mkFrame n (Z.max (maxnatom_ this) n) (3 * n) (box_ this) (T_ this)
                   x (V_ this) (Mass_ this)) (bool_decide (maxnatom_ this < n))
  = Some (resized_masses this n).
Proof.
  intros Hn. unfold resize_masses, resized_masses, vec_resize. cbn [Mass_ maxnatom_].
  destruct (bool_decide (maxnatom_ this < n) || vec_empty (Mass_ this)) eqn:E;
    [|reflexivity].
  destruct (Z.leb_spec 0 (Z.max (maxnatom_ this) n)); [reflexivity|lia].
Qed.

(** X9: [SetupFrameM] sets the counts for the atoms given and stores their
    masses, in order, at the front of the mass vector, which is first
    resized to the capacity when the coordinates are reallocated or no
    mass is held; the coordinate array is replaced only when the atoms
    exceed the capacity, and a velocity array is released. *)
Theorem SetupFrameM_spec (indet : nat -> double) (this : Frame) (atoms : list Atom) :
  let n := Z.of_nat (length atoms) in
  3 * n <= INT_MAX ->
  (maxnatom_ this < n -> X_ this <> Dangling) ->
  V_ this <> Dangling ->
  masses_fit this n ->
  SetupFrameM indet this atoms
  = Some (mkFrame n (Z.max (maxnatom_ this) n) (3 * n) (box_ this) (T_ this)
            (grown indet this n) (released (V_ this))
            ((Mass <$> atoms) ++ drop (length atoms) (resized_masses this n)), 0).
Proof.
  intros n Hn HX HV Hfit. unfold SetupFrameM.
  rewrite (int_wrap_id (Z.of_nat (length atoms))) by (apply in_int_atoms, Hn).
  fold n. rewrite (grow_X_grows indet this n ltac:(lia) HX).
  cbn [mbind option_bind]. rewrite (resize_masses_resizes this n _ ltac:(lia)).
  cbn [mbind option_bind].
  pose proof (resized_masses_length this n ltac:(lia) Hfit) as L.
  rewrite store_masses_stores by (rewrite length_fmap; lia).
  cbn [mbind option_bind V_]. rewrite (delete_if_set_released _ HV).
  rewrite length_fmap. reflexivity.
Qed.

Lemma SetupFrameM_spec_witness :
  SetupFrameM (fun _ => dzero) two_of_three three_atoms
  = Some (mkFrame 3 3 9 zero_box dzero (Buf [1; 2; 3; 4; 5; 6; 0; 0; 0]%float) NULL
            [12; 1; 16]%float, 0).
Proof.
  refine (SetupFrameM_spec (fun _ => dzero) two_of_three three_atoms _ _ _ _).
  - cbn. unfold INT_MAX. lia.
  - cbn. lia.
  - discriminate.
  - right. left. reflexivity.
Defined.

Lemma memset0_all (indet : nat -> double) (n : Z) :
  0 <= n ->
  (v0 ← new_double indet n; Buf <$> memset0 v0 n)
  = Some (Buf (replicate (Z.to_nat n) dzero)).
Proof.
  intros Hn. destruct (new_double_some indet n Hn) as (v0 & -> & L).
  cbn [mbind option_bind]. unfold memset0.
  destruct (Z.leb_spec 0 n); [|lia].
  destruct (Z.leb_spec n (Z.of_nat (length v0))); [|lia].
  cbn [andb fmap option_fmap option_map].
  rewrite drop_ge by lia. rewrite app_nil_r. reflexivity.
Qed.

(** X10: [SetupFrameV] does what [SetupFrameM] does for counts, coordinates
    and masses.  Asked for velocities, it leaves a velocity array of
    zeros sized for the capacity when the coordinates were reallocated or
    none was held, and keeps the one held otherwise; not asked for them,
    it releases the one held. *)
Theorem SetupFrameV_spec (indet : nat -> double) (this : Frame) (atoms : list Atom)
    (hasVelocity : bool) :
  let n := Z.of_nat (length atoms) in
  3 * n <= INT_MAX ->
  3 * maxnatom_ this <= INT_MAX ->
  (maxnatom_ this < n -> X_ this <> Dangling) ->
  V_ this <> Dangling ->
  masses_fit this n ->
  SetupFrameV indet this atoms hasVelocity
  = Some (mkFrame n (Z.max (maxnatom_ this) n) (3 * n) (box_ this) (T_ this)
            (grown indet this n) (setup_velocities this n hasVelocity)
            ((Mass <$> atoms) ++ drop (length atoms) (resized_masses this n)), 0).
Proof.
  intros n Hn Hmax HX HV Hfit. unfold SetupFrameV.
  rewrite (int_wrap_id (Z.of_nat (length atoms))) by (apply in_int_atoms, Hn).
  fold n. rewrite (grow_X_grows indet this n ltac:(lia) HX).
  cbn [mbind option_bind V_ maxnatom_].
  assert (EV : (if hasVelocity
                then if bool_decide (maxnatom_ this < n) || is_null (V_ this)
                     then _ ← delete_if_set (V_ this);
                          v0 ← new_double indet (imul (Z.max (maxnatom_ this) n) 3);
                          Buf <$> memset0 v0 (Z.max (maxnatom_ this) n * 3)
                     else Some (V_ this)
                else delete_if_set (V_ this))
               = Some (setup_velocities this n hasVelocity)).
  { unfold setup_velocities. destruct hasVelocity; [|apply delete_if_set_released, HV].
    destruct (bool_decide (maxnatom_ this < n) || is_null (V_ this)); [|reflexivity].
    rewrite (delete_if_set_released _ HV). cbn [mbind option_bind].
    rewrite imul3_id by (apply in_int_small; lia).
    rewrite (memset0_all indet (Z.max (maxnatom_ this) n * 3)) by lia.
    do 3 f_equal. lia. }
  rewrite EV. cbn [mbind option_bind].
  rewrite (resize_masses_resizes this n _ ltac:(lia)).
  cbn [mbind option_bind].
  pose proof (resized_masses_length this n ltac:(lia) Hfit) as L.
  rewrite store_masses_stores by (rewrite length_fmap; lia).
  cbn [mbind option_bind]. rewrite length_fmap. reflexivity.
Qed.

Lemma SetupFrameV_spec_witness :
  SetupFrameV (fun _ => dzero) two_of_three three_atoms true
  = Some (mkFrame 3 3 9 zero_box dzero (Buf [1; 2; 3; 4; 5; 6; 0; 0; 0]%float)
            (Buf (replicate 9 dzero)) [12; 1; 16]%float, 0).
Proof.
  refine (SetupFrameV_spec (fun _ => dzero) two_of_three three_atoms true _ _ _ _ _).
  - cbn. unfold INT_MAX. lia.
  - cbn. unfold INT_MAX. lia.
  - cbn. lia.
  - discriminate.
  - right. left. reflexivity.
Defined.

Lemma atom_mass_at_in (atoms : list Atom) (a : Z) :
  names_atom atoms a -> exists v, atom_mass_at atoms a = Some v.
Proof.
  intros [H0 H1]. unfold atom_mass_at. destruct (Z.leb_spec 0 a); [|lia].
  destruct (lookup_lt_is_Some_2 atoms (Z.to_nat a) ltac:(lia)) as [x Hx].
  rewrite Hx. eexists. reflexivity.
Qed.

Lemma mask_mass_loop (atoms : list Atom) (mask : AtomMask) :
  Forall (names_atom atoms) mask ->
  forall pre mid rest,
    length mid = length mask ->
    foldlM (fun '(m0, i) atom => v ← atom_mass_at atoms atom; store_mass (m0, i) v)
      mask (pre ++ mid ++ rest, Z.of_nat (length pre))
    = Some (pre ++ mask_masses atoms mask ++ rest,
            Z.of_nat (length pre) + Z.of_nat (length mask)).
Proof.
  induction 1 as [|a mask Ha _ IH]; intros pre mid rest Hl.
  - destruct mid; [|discriminate]. cbn. loop_done.
  - destruct mid as [|c mid]; [discriminate|]. injection Hl as Hl.
    destruct (atom_mass_at_in _ _ Ha) as [v Hv].
    cbn [foldlM]. rewrite Hv. cbn [mbind option_bind].
    rewrite <- app_comm_cons, store_mass_middle. cbn [mbind option_bind].
    replace (pre ++ v :: mid ++ rest) with ((pre ++ [v]) ++ mid ++ rest)
      by (rewrite <- app_assoc; reflexivity).
    replace (Z.of_nat (length pre) + 1) with (Z.of_nat (length (pre ++ [v])))
      by (rewrite length_app; cbn [length]; lia).
    rewrite (IH _ _ _ Hl), <- app_assoc, length_app.
    unfold mask_masses. cbn [omap list_omap]. rewrite Hv. cbn [length app]. loop_done.
Qed.

(** X11: [SetupFrameFromMask] sets the counts for the selected atoms and
    stores, in mask order, the masses the atom array gives for them at the
    front of the mass vector, resized as in [SetupFrameM]; the coordinate
    array is replaced only when the selection exceeds the capacity.  The
    velocity array is left as it is. *)
Theorem SetupFrameFromMask_spec (indet : nat -> double) (this : Frame) (maskIn : AtomMask)
    (atoms : list Atom) :
  let n := Nselected maskIn in
  3 * n <= INT_MAX ->
  (maxnatom_ this < n -> X_ this <> Dangling) ->
  masses_fit this n ->
  Forall (names_atom atoms) maskIn ->
  SetupFrameFromMask indet this maskIn atoms
  = Some (mkFrame n (Z.max (maxnatom_ this) n) (3 * n) (box_ this) (T_ this)
            (grown indet this n) (V_ this)
            (mask_masses atoms maskIn ++ drop (length maskIn) (resized_masses this n)), 0).
Proof.
  intros n Hn HX Hfit Hall. unfold SetupFrameFromMask. fold n.
  assert (H0 : 0 <= n) by (unfold n, Nselected; lia).
  rewrite (grow_X_grows indet this n ltac:(lia) HX).
  cbn [mbind option_bind]. rewrite (resize_masses_resizes this n _ H0).
  cbn [mbind option_bind].
  pose proof (resized_masses_length this n H0 Hfit) as L.
  assert (Lt : length (take (length maskIn) (resized_masses this n)) = length maskIn)
    by (assert (Z.to_nat n = length maskIn) by (unfold n, Nselected; lia);
        rewrite length_take; lia).
  pose proof (mask_mass_loop atoms maskIn Hall [] _
                (drop (length maskIn) (resized_masses this n)) Lt) as G.
  cbn [app length] in G. change (Z.of_nat 0) with 0 in G. rewrite take_drop in G.
  rewrite G. reflexivity.
Qed.

Lemma SetupFrameFromMask_spec_witness :
  SetupFrameFromMask (fun _ => dzero) setup_src [2; 0] three_atoms
  = Some (mkFrame 2 3 6 zero_box dzero (Buf [1; 2; 3; 4; 5; 6; 7; 8; 9]%float)
            (Buf (replicate 9 dzero)) [16; 12; 1]%float, 0).
Proof.
  refine (SetupFrameFromMask_spec (fun _ => dzero) setup_src [2; 0] three_atoms _ _ _ _).
  - unfold Nselected, INT_MAX. cbn. lia.
  - unfold Nselected. cbn. lia.
  - right. right. unfold Nselected. cbn. lia.
  - repeat constructor; cbn; lia.
Defined.

Lemma grow_X_keeps_V (indet : nat -> double) (this r : Frame) (b : bool) :
  grow_X indet this = Some (r, b) -> V_ r = V_ this.
Proof. intros H. unfold grow_X in H. run_cases H; simplify_eq; reflexivity. Qed.

Lemma SetupFrame_dangling (indet : nat -> double) (r : Frame) (n : Z) :
  V_ r = Dangling -> SetupFrame indet r n = None.
Proof.
  intros HV. unfold SetupFrame.
  destruct (grow_X indet _) as [[t b]|] eqn:E; [|reflexivity].
  cbn [mbind option_bind]. rewrite (grow_X_keeps_V _ _ _ _ E). cbn [with_counts V_].
  rewrite HV. reflexivity.
Qed.

Lemma SetupFrameM_dangling (indet : nat -> double) (r : Frame) (atoms : list Atom) :
  V_ r = Dangling -> SetupFrameM indet r atoms = None.
Proof.
  intros HV. unfold SetupFrameM.
  destruct (grow_X indet _) as [[t b]|] eqn:E; [|reflexivity].
  cbn [mbind option_bind].
  destruct (resize_masses t b) as [m|]; [|reflexivity]. cbn [mbind option_bind].
  destruct (store_masses m _) as [m'|]; [|reflexivity]. cbn [mbind option_bind].
  rewrite (grow_X_keeps_V _ _ _ _ E). cbn [with_counts V_]. rewrite HV. reflexivity.
Qed.

Lemma SetupFrameV_dangling (indet : nat -> double) (r : Frame) (atoms : list Atom) :
  V_ r = Dangling -> SetupFrameV indet r atoms false = None.
Proof.
  intros HV. unfold SetupFrameV.
  destruct (grow_X indet _) as [[t b]|] eqn:E; [|reflexivity].
  cbn [mbind option_bind].
  rewrite (grow_X_keeps_V _ _ _ _ E). cbn [with_counts V_]. rewrite HV. reflexivity.
Qed.

Lemma Frame_copy_dangling (indet : nat -> double) (r : Frame) :
  V_ r = Dangling -> Frame_copy indet r = None.
Proof.
  intros HV. unfold Frame_copy.
  destruct (copy_buffer indet (X_ r) _ _); [|reflexivity].
  cbn [mbind option_bind]. rewrite HV. reflexivity.
Qed.

Lemma Frame_destructor_dangling (r : Frame) :
  V_ r = Dangling -> Frame_destructor r = None.
Proof.
  intros HV. unfold Frame_destructor. rewrite HV.
  destruct (delete_if_set (X_ r)); reflexivity.
Qed.

(** The setup calls that release the velocity array. *)
Lemma setup_releases (indet : nat -> double) (this r : Frame) (n st : Z)
    (atoms : list Atom) :
  SetupFrame indet this n = Some (r, st) \/
  SetupFrameM indet this atoms = Some (r, st) \/
  SetupFrameV indet this atoms false = Some (r, st) ->
  V_ r = released (V_ this).
Proof.
  intros [H|[H|H]].
  - unfold SetupFrame in H. apply bind_Some in H as ([t b] & E & H).
    apply bind_Some in H as (v & Ev & H). injection H as <- _.
    rewrite (grow_X_keeps_V _ _ _ _ E) in Ev. cbn [with_counts V_] in Ev.
    cbn [with_Mass with_V V_]. revert Ev. destruct (V_ this); cbn; congruence.
  - unfold SetupFrameM in H. apply bind_Some in H as ([t b] & E & H).
    apply bind_Some in H as (m & _ & H). apply bind_Some in H as (m' & _ & H).
    apply bind_Some in H as (v & Ev & H). injection H as <- _.
    rewrite (grow_X_keeps_V _ _ _ _ E) in Ev. cbn [with_counts V_] in Ev.
    cbn [with_Mass with_V V_]. revert Ev. destruct (V_ this); cbn; congruence.
  - unfold SetupFrameV in H. apply bind_Some in H as ([t b] & E & H).
    apply bind_Some in H as (v & Ev & H).
    apply bind_Some in H as (m & _ & H). apply bind_Some in H as (m' & _ & H).
    injection H as <- _.
    rewrite (grow_X_keeps_V _ _ _ _ E) in Ev. cbn [with_counts V_] in Ev.
    cbn [with_Mass with_V V_]. revert Ev. destruct (V_ this); cbn; congruence.
Qed.

(** X12: [SetupFrame], [SetupFrameM] and [SetupFrameV] without velocities
    free a velocity array the frame owns but do not reset the pointer:
    the frame still tests as having velocities, and a further setup call,
    a copy of the frame or its destruction frees or reads the freed array,
    which has no defined behaviour. *)
Theorem setup_keeps_released_pointer (indet : nat -> double) (this r : Frame) (n st : Z)
    (atoms : list Atom) (v : list double) :
  V_ this = Buf v ->
  SetupFrame indet this n = Some (r, st) \/
  SetupFrameM indet this atoms = Some (r, st) \/
  SetupFrameV indet this atoms false = Some (r, st) ->
  V_ r = Dangling /\ has_velocities r = true /\
  (forall m, SetupFrame indet r m = None) /\
  (forall l, SetupFrameM indet r l = None) /\
  (forall l, SetupFrameV indet r l false = None) /\
  Frame_copy indet r = None /\
  Frame_destructor r = None.
Proof.
  intros HV H.
  assert (HD : V_ r = Dangling).
  { rewrite (setup_releases indet this r n st atoms H), HV. reflexivity. }
  split; [exact HD|]. split; [unfold has_velocities; rewrite HD; reflexivity|].
  split; [intros m; apply SetupFrame_dangling, HD|].
  split; [intros l; apply SetupFrameM_dangling, HD|].
  split; [intros l; apply SetupFrameV_dangling, HD|].
  split; [apply Frame_copy_dangling, HD|apply Frame_destructor_dangling, HD].
Qed.

Lemma setup_keeps_released_pointer_witness :
  SetupFrame (fun _ => dzero) setup_src 2
  = Some (mkFrame 2 3 6 zero_box dzero (Buf [1; 2; 3; 4; 5; 6; 7; 8; 9]%float)
            Dangling [], 0) /\
  Frame_destructor (mkFrame 2 3 6 zero_box dzero (Buf [1; 2; 3; 4; 5; 6; 7; 8; 9]%float)
                      Dangling []) = None.
Proof.
  split; [reflexivity|].
  exact (proj2 (proj2 (proj2 (proj2 (proj2 (proj2
           (setup_keeps_released_pointer (fun _ => dzero) setup_src _ 2 0 []
              (replicate 9 dzero) eq_refl (or_introl eq_refl)))))))).
Defined.

(** ** Setting coordinates from another frame *)

Lemma gather_X_gathers (x s : list double) (mask : list Z) :
  Z.of_nat (length s) <= INT_MAX ->
  Forall (atom_in s) mask ->
  (3 * length mask <= length x)%nat ->
  gather_X (Buf x) (Buf s) mask
  = Some (Buf (gather s mask ++ drop (3 * length mask) x)).
Proof.
  intros Hs Hall Hx. unfold gather_X.
  assert (Lt : length (take (3 * length mask) x) = (3 * length mask)%nat)
    by (rewrite length_take; lia).
  pose proof (gather_loop s mask Hs Hall [] _ (drop (3 * length mask) x) Lt) as G.
  cbn [app length] in G. change (Z.of_nat 0) with 0 in G. rewrite take_drop in G.
  rewrite G. reflexivity.
Qed.

Lemma imul3_len {A} (l : list A) (B : Z) :
  Z.of_nat (length l) <= B -> 3 * B <= INT_MAX ->
  imul (Z.of_nat (length l)) 3 = 3 * Z.of_nat (length l).
Proof. intros H1 H2. rewrite imul3_id; [lia|]. apply in_int_small. lia. Qed.

Lemma SetCoordinatesByMask_gathers (this : Frame) (x s : list double) (maskIn : AtomMask) :
  X_ this = Buf x ->
  3 * maxnatom_ this <= Z.of_nat (length x) ->
  Z.of_nat (length x) <= INT_MAX ->
  Z.of_nat (length s) <= INT_MAX ->
  Forall (atom_in s) maskIn ->
  Nselected maskIn <= maxnatom_ this ->
  SetCoordinatesByMask this (Buf s) maskIn
  = Some (front_set this x (gather s maskIn) (length maskIn), []).
Proof.
  intros HX Hcap Hx Hs Hall Hsel. unfold SetCoordinatesByMask, Nselected in *.
  cbn [is_null].
  destruct (Z.ltb_spec (maxnatom_ this) (Z.of_nat (length maskIn))) as [?|_]; [lia|].
  rewrite HX, (gather_X_gathers x s maskIn Hs Hall) by lia.
  cbn [mbind option_bind].
  rewrite (imul3_len maskIn (maxnatom_ this)) by lia. reflexivity.
Qed.

Lemma SetCoordinates_mask_gathers (this frameIn : Frame) (x s : list double)
    (maskIn : AtomMask) :
  X_ this = Buf x -> X_ frameIn = Buf s ->
  3 * maxnatom_ this <= Z.of_nat (length x) ->
  Z.of_nat (length x) <= INT_MAX ->
  Z.of_nat (length s) <= INT_MAX ->
  Forall (atom_in s) maskIn ->
  Nselected maskIn <= maxnatom_ this ->
  SetCoordinates_mask this frameIn maskIn
  = Some (with_T (with_box (front_set this x (gather s maskIn) (length maskIn))
                    (box_ frameIn)) (T_ frameIn), []).
Proof.
  intros HX HS Hcap Hx Hs Hall Hsel. unfold SetCoordinates_mask, Nselected in *.
  destruct (Z.ltb_spec (maxnatom_ this) (Z.of_nat (length maskIn))) as [?|_]; [lia|].
  rewrite HX, HS, (gather_X_gathers x s maskIn Hs Hall) by lia.
  cbn [mbind option_bind].
  rewrite (imul3_len maskIn (maxnatom_ this)) by lia. reflexivity.
Qed.

(** X13: [SetCoordinatesByMask] and [SetCoordinates] with a mask store the
    coordinates of the selected atoms, in mask order, at the front of the
    coordinate array and set the atom count to the selection size; cells
    behind the selection and the capacity stay, and the frame version also
    takes over box and temperature.  A selection larger than the capacity,
    or a null input pointer, leaves the frame as it was and reports an
    error. *)
Theorem mask_setters_spec (this frameIn : Frame) (x s : list double) (maskIn : AtomMask) :
  X_ this = Buf x -> X_ frameIn = Buf s ->
  3 * maxnatom_ this <= Z.of_nat (length x) ->
  Z.of_nat (length x) <= INT_MAX ->
  Z.of_nat (length s) <= INT_MAX ->
  Forall (atom_in s) maskIn ->
  SetCoordinatesByMask this NULL maskIn
  = Some (this, ["Internal Error: SetCoordinatesByMask called with NULL pointer."]) /\
  SetCoordinatesByMask this (X_ frameIn) maskIn
  = (if maxnatom_ this <? Nselected maskIn
     then Some (this, ["Internal Error: SetCoordinatesByMask: Selected=%i, maxnatom = %i"])
     else Some (front_set this x (gather s maskIn) (length maskIn), [])) /\
  SetCoordinates_mask this frameIn maskIn
  = (if maxnatom_ this <? Nselected maskIn
     then Some (this, ["Error: SetCoordinates: Mask [%s] selected (%i) > max natom (%i)"])
     else Some (with_T (with_box (front_set this x (gather s maskIn) (length maskIn))
                          (box_ frameIn)) (T_ frameIn), [])).
Proof.
  intros HX HS Hcap Hx Hs Hall. split; [reflexivity|].
  destruct (Z.ltb_spec (maxnatom_ this) (Nselected maskIn)) as [Hlt|Hge].
  - unfold SetCoordinatesByMask, SetCoordinates_mask. rewrite HS. cbn [is_null].
    destruct (Z.ltb_spec (maxnatom_ this) (Nselected maskIn)); [|lia].
    split; reflexivity.
  - split.
    + rewrite HS. apply SetCoordinatesByMask_gathers; assumption.
    + apply (SetCoordinates_mask_gathers this frameIn x s); assumption.
Qed.

Lemma mask_setters_spec_witness :
  SetCoordinatesByMask map_dst (X_ full3) [2; 0]
  = Some (mkFrame 2 3 6 zero_box dzero (Buf [7; 8; 9; 1; 2; 3; 0; 0; 0]%float) NULL [], []) /\
  SetCoordinatesByMask crd_dst (X_ full3) [2; 0; 1]
  = Some (crd_dst, ["Internal Error: SetCoordinatesByMask: Selected=%i, maxnatom = %i"]).
Proof.
  split.
  - refine (proj1 (proj2 (mask_setters_spec map_dst full3 _ _ [2; 0]
                            eq_refl eq_refl _ _ _ _))).
    + cbn. lia.
    + cbn. unfold INT_MAX. lia.
    + cbn. unfold INT_MAX. lia.
    + repeat constructor; unfold atom_in; cbn; lia.
  - refine (proj1 (proj2 (mask_setters_spec crd_dst full3 _ _ [2; 0; 1]
                            eq_refl eq_refl _ _ _ _))).
    + cbn. lia.
    + cbn. unfold INT_MAX. lia.
    + cbn. unfold INT_MAX. lia.
    + repeat constructor; unfold atom_in; cbn; lia.
Defined.


Lemma SetCoordinates_copies (this frameIn : Frame) (x s : list double) :
  X_ this = Buf x -> X_ frameIn = Buf s ->
  3 * maxnatom_ this <= Z.of_nat (length x) ->
  Z.of_nat (length x) <= INT_MAX ->
  0 <= natom_ frameIn <= maxnatom_ this ->
  3 * natom_ frameIn <= Z.of_nat (length s) ->
  let n := Z.to_nat (natom_ frameIn) in
  SetCoordinates this frameIn
  = Some (front_set this x (take (3 * n) s) n, []).
Proof.
  intros HX HS Hcap Hx Hn Hs n. unfold SetCoordinates.
  destruct (Z.ltb_spec (maxnatom_ this) (natom_ frameIn)) as [?|_]; [lia|].
  unfold memcpy_atoms. rewrite HX, HS.
  rewrite imul3_id by (apply in_int_small; lia).
  unfold front_set. replace (Z.of_nat n) with (natom_ frameIn) by lia.
  destruct (Z.eqb_spec (natom_ frameIn) 0) as [E0|Hne].
  - cbn [mbind option_bind]. assert (n = 0%nat) as -> by lia.
    rewrite take_0, drop_0. cbn [app]. do 3 f_equal. unfold with_counts. f_equal; lia.
  - cbn [cells_of mbind option_bind]. unfold memcpy_prefix.
    destruct (Z.leb_spec 0 (natom_ frameIn * 3)); [|lia].
    destruct (Z.leb_spec (natom_ frameIn * 3) (Z.of_nat (length s))); [|lia].
    destruct (Z.leb_spec (natom_ frameIn * 3) (Z.of_nat (length x))); [|lia].
    cbn [andb fmap option_fmap option_map mbind option_bind].
    replace (Z.to_nat (natom_ frameIn * 3)) with (3 * n)%nat by lia.
    do 3 f_equal. unfold with_counts. f_equal; lia.
Qed.

(** X14: [SetCoordinates] from a frame copies the coordinates of all the
    atoms of the input frame to the front of the coordinate array and takes
    over its atom count; cells behind them, box, temperature, velocities
    and masses stay.  An input frame with more atoms than the capacity
    leaves the frame as it was and reports an error. *)
Theorem SetCoordinates_spec (this frameIn : Frame) (x s : list double) :
  X_ this = Buf x -> X_ frameIn = Buf s ->
  3 * maxnatom_ this <= Z.of_nat (length x) ->
  Z.of_nat (length x) <= INT_MAX ->
  0 <= natom_ frameIn ->
  3 * natom_ frameIn <= Z.of_nat (length s) ->
  SetCoordinates this frameIn
  = if maxnatom_ this <? natom_ frameIn
    then Some (this, ["Error: Frame::SetCoordinates: Input frame atoms (%i) > max natom (%i)"])
    else Some (front_set this x (take (3 * Z.to_nat (natom_ frameIn)) s)
                 (Z.to_nat (natom_ frameIn)), []).
Proof.
  intros HX HS Hcap Hx Hn Hs.
  destruct (Z.ltb_spec (maxnatom_ this) (natom_ frameIn)) as [Hlt|Hge].
  - unfold SetCoordinates.
    destruct (Z.ltb_spec (maxnatom_ this) (natom_ frameIn)); [reflexivity|lia].
  - apply SetCoordinates_copies; try assumption. lia.
Qed.

Lemma SetCoordinates_spec_witness :
  SetCoordinates map_dst two_of_three
  = Some (mkFrame 2 3 6 zero_box dzero (Buf [1; 2; 3; 4; 5; 6; 0; 0; 0]%float) NULL [], []).
Proof.
  refine (SetCoordinates_spec map_dst two_of_three _ _ eq_refl eq_refl _ _ _ _);
    cbn; unfold INT_MAX; lia.
Defined.


Lemma set_XM_step (F : Frame) (xs pre rest mpre mrest : list double)
    (a0 b0 c0 m0 v : double) (a : Z) :
  X_ F = Buf xs ->
  Z.of_nat (length xs) <= INT_MAX -> atom_in xs a -> rd (Mass_ F) a = Some v ->
  set_XM F (Buf (pre ++ a0 :: b0 :: c0 :: rest), mpre ++ m0 :: mrest,
            Z.of_nat (length pre), Z.of_nat (length mpre)) a
  = Some (Buf (pre ++ atom_cells xs a ++ rest), mpre ++ v :: mrest,
          Z.of_nat (length pre) + 3, Z.of_nat (length mpre) + 1).
Proof.
  intros HX Hs Ha Hv.
  destruct (atom_cells_rd xs a Ha) as (p & q & r & Hc & Hp & Hq & Hr).
  unfold set_XM. rewrite HX. cbn [cells_of mbind option_bind].
  rewrite (imul3_atom xs a Hs Ha).
  rewrite (memcpy3_middle pre rest xs a0 b0 c0 p q r _ _ eq_refl Hp Hq Hr).
  cbn [mbind option_bind]. rewrite Hv. cbn [mbind option_bind].
  rewrite (wr_middle _ _ _ _ _ eq_refl). cbn [mbind option_bind].
  rewrite Hc. reflexivity.
Qed.

Lemma set_XM_loop (F : Frame) (xs : list double) (mask : list Z) :
  X_ F = Buf xs ->
  Z.of_nat (length xs) <= INT_MAX ->
  Forall (atom_in xs) mask ->
  Forall (mass_in (Mass_ F)) mask ->
  forall pre mid rest mpre mmid mrest,
    length mid = (3 * length mask)%nat ->
    length mmid = length mask ->
    foldlM (set_XM F) mask (Buf (pre ++ mid ++ rest), mpre ++ mmid ++ mrest,
                            Z.of_nat (length pre), Z.of_nat (length mpre))
    = Some (Buf (pre ++ gather xs mask ++ rest),
            mpre ++ select_masses (Mass_ F) mask ++ mrest,
            Z.of_nat (length pre) + 3 * Z.of_nat (length mask),
            Z.of_nat (length mpre) + Z.of_nat (length mask)).
Proof.
  intros HX Hs Hall. induction Hall as [|a mask Ha Hall IH];
    intros Hm pre mid rest mpre mmid mrest Hlen Hmlen.
  - destruct mid; [|discriminate]. destruct mmid; [|discriminate]. simpl. loop_done.
  - destruct (length3 mid _ Hlen) as (a0 & b0 & c0 & mid' & -> & Hlen').
    destruct mmid as [|m0 mmid]; [discriminate|]. injection Hmlen as Hmlen.
    apply Forall_cons in Hm as [Hma Hm].
    destruct (rd_in _ _ Hma) as [v Hv].
    cbn [foldlM]. rewrite <- !app_comm_cons.
    rewrite (set_XM_step F xs pre (mid' ++ rest) mpre (mmid ++ mrest)
               a0 b0 c0 m0 v a HX Hs Ha Hv).
    cbn [mbind option_bind]. rewrite (app_assoc pre).
    replace (mpre ++ v :: mmid ++ mrest) with ((mpre ++ [v]) ++ mmid ++ mrest)
      by (rewrite <- app_assoc; reflexivity).
    replace (Z.of_nat (length pre) + 3) with (Z.of_nat (length (pre ++ atom_cells xs a)))
      by (rewrite length_app, (atom_cells_length _ _ Ha); lia).
    replace (Z.of_nat (length mpre) + 1) with (Z.of_nat (length (mpre ++ [v])))
      by (rewrite length_app; cbn [length]; lia).
    rewrite (IH Hm _ _ _ _ _ _ Hlen' Hmlen).
    rewrite (select_masses_cons _ _ _ _ Hv).
    unfold gather. rewrite bind_cons, <- !app_assoc, !length_app,
      (atom_cells_length _ _ Ha).
    cbn [app length]. loop_done.
Qed.

Lemma set_XVM_step (F : Frame) (xs vs pre rest vpre vrest mpre mrest : list double)
    (a0 b0 c0 d0 e0 f0 m0 v : double) (a : Z) :
  X_ F = Buf xs -> V_ F = Buf vs ->
  Z.of_nat (length xs) <= INT_MAX -> atom_in xs a -> atom_in vs a ->
  rd (Mass_ F) a = Some v ->
  length vpre = length pre ->
  set_XVM F (Buf (pre ++ a0 :: b0 :: c0 :: rest), Buf (vpre ++ d0 :: e0 :: f0 :: vrest),
             mpre ++ m0 :: mrest, Z.of_nat (length pre), Z.of_nat (length mpre)) a
  = Some (Buf (pre ++ atom_cells xs a ++ rest), Buf (vpre ++ atom_cells vs a ++ vrest),
          mpre ++ v :: mrest, Z.of_nat (length pre) + 3, Z.of_nat (length mpre) + 1).
Proof.
  intros HX HV Hs Ha Hva Hv Hl.
  destruct (atom_cells_rd xs a Ha) as (p & q & r & Hc & Hp & Hq & Hr).
  destruct (atom_cells_rd vs a Hva) as (p' & q' & r' & Hc' & Hp' & Hq' & Hr').
  unfold set_XVM. rewrite HX, HV. cbn [cells_of mbind option_bind].
  rewrite (imul3_atom xs a Hs Ha).
  rewrite (memcpy3_middle pre rest xs a0 b0 c0 p q r _ _ eq_refl Hp Hq Hr).
  cbn [mbind option_bind].
  assert (Hoff : Z.of_nat (length pre) = Z.of_nat (length vpre)) by (rewrite Hl; reflexivity).
  rewrite (memcpy3_middle vpre vrest vs d0 e0 f0 p' q' r' _ _ Hoff Hp' Hq' Hr').
  cbn [mbind option_bind]. rewrite Hv. cbn [mbind option_bind].
  rewrite (wr_middle _ _ _ _ _ eq_refl). cbn [mbind option_bind].
  rewrite Hc, Hc'. reflexivity.
Qed.

Lemma set_XVM_loop (F : Frame) (xs vs : list double) (mask : list Z) :
  X_ F = Buf xs -> V_ F = Buf vs ->
  Z.of_nat (length xs) <= INT_MAX ->
  Forall (atom_in xs) mask ->
  Forall (atom_in vs) mask ->
  Forall (mass_in (Mass_ F)) mask ->
  forall pre mid rest vpre vmid vrest mpre mmid mrest,
    length mid = (3 * length mask)%nat ->
    length vmid = (3 * length mask)%nat ->
    length vpre = length pre ->
    length mmid = length mask ->
    foldlM (set_XVM F) mask
      (Buf (pre ++ mid ++ rest), Buf (vpre ++ vmid ++ vrest), mpre ++ mmid ++ mrest,
       Z.of_nat (length pre), Z.of_nat (length mpre))
    = Some (Buf (pre ++ gather xs mask ++ rest), Buf (vpre ++ gather vs mask ++ vrest),
            mpre ++ select_masses (Mass_ F) mask ++ mrest,
            Z.of_nat (length pre) + 3 * Z.of_nat (length mask),
            Z.of_nat (length mpre) + Z.of_nat (length mask)).
Proof.
  intros HX HV Hs Hall. induction Hall as [|a mask Ha Hall IH];
    intros Hvall Hm pre mid rest vpre vmid vrest mpre mmid mrest Hlen Hvlen Hpre Hmlen.
  - destruct mid; [|discriminate]. destruct vmid; [|discriminate].
    destruct mmid; [|discriminate]. simpl. loop_done.
  - destruct (length3 mid _ Hlen) as (a0 & b0 & c0 & mid' & -> & Hlen').
    destruct (length3 vmid _ Hvlen) as (d0 & e0 & f0 & vmid' & -> & Hvlen').
    destruct mmid as [|m0 mmid]; [discriminate|]. injection Hmlen as Hmlen.
    apply Forall_cons in Hm as [Hma Hm].
    apply Forall_cons in Hvall as [Hva Hvall].
    destruct (rd_in _ _ Hma) as [v Hv].
    cbn [foldlM]. rewrite <- !app_comm_cons.
    rewrite (set_XVM_step F xs vs pre (mid' ++ rest) vpre (vmid' ++ vrest)
               mpre (mmid ++ mrest) a0 b0 c0 d0 e0 f0 m0 v a HX HV Hs Ha Hva Hv Hpre).
    cbn [mbind option_bind]. rewrite (app_assoc pre), (app_assoc vpre).
    replace (mpre ++ v :: mmid ++ mrest) with ((mpre ++ [v]) ++ mmid ++ mrest)
      by (rewrite <- app_assoc; reflexivity).
    replace (Z.of_nat (length pre) + 3) with (Z.of_nat (length (pre ++ atom_cells xs a)))
      by (rewrite length_app, (atom_cells_length _ _ Ha); lia).
    replace (Z.of_nat (length mpre) + 1) with (Z.of_nat (length (mpre ++ [v])))
      by (rewrite length_app; cbn [length]; lia).
    assert (Hpre' : length (vpre ++ atom_cells vs a) = length (pre ++ atom_cells xs a))
      by (rewrite !length_app, (atom_cells_length _ _ Ha),
            (atom_cells_length _ _ Hva), Hpre; reflexivity).
    rewrite (IH Hvall Hm _ _ _ _ _ _ _ _ _ Hlen' Hvlen' Hpre' Hmlen).
    rewrite (select_masses_cons _ _ _ _ Hv).
    unfold gather. rewrite !bind_cons, <- !app_assoc, !length_app,
      (atom_cells_length _ _ Ha).
    cbn [app length]. loop_done.
Qed.

Lemma SetFrame_sets (this frameIn : Frame) (x s : list double) (maskIn : AtomMask) :
  X_ this = Buf x -> X_ frameIn = Buf s ->
  3 * maxnatom_ this <= Z.of_nat (length x) ->
  Z.of_nat (length x) <= INT_MAX ->
  Z.of_nat (length s) <= INT_MAX ->
  Nselected maskIn <= maxnatom_ this ->
  Forall (atom_in s) maskIn ->
  Forall (mass_in (Mass_ frameIn)) maskIn ->
  (length maskIn <= length (Mass_ this))%nat ->
  velocities_settable this frameIn maskIn ->
  let n := length maskIn in
  SetFrame this frameIn maskIn
  = Some (mkFrame (Z.of_nat n) (maxnatom_ this) (3 * Z.of_nat n) (box_ frameIn) (T_ frameIn)
            (Buf (gather s maskIn ++ drop (3 * n) x))
            (set_velocities this frameIn maskIn)
            (select_masses (Mass_ frameIn) maskIn ++ drop n (Mass_ this)), []).
Proof.
  intros HX HS Hcap Hx Hs Hsel Hall Hmall Hml Hv n. unfold SetFrame, Nselected in *.
  fold n in Hsel, Hml |- *.
  destruct (Z.ltb_spec (maxnatom_ this) (Z.of_nat n)) as [?|_]; [lia|].
  rewrite (imul3_id (Z.of_nat n)) by (apply in_int_small; lia).
  replace (Z.of_nat n * 3) with (3 * Z.of_nat n) by lia.
  assert (Lx : length (take (3 * n) x) = (3 * length maskIn)%nat)
    by (rewrite length_take; unfold n in *; lia).
  assert (Lm : length (take n (Mass_ this)) = length maskIn)
    by (rewrite length_take; unfold n in *; lia).
  unfold velocities_settable, set_velocities in *.
  destruct (V_ frameIn) as [|vs|] eqn:EVS; destruct (V_ this) as [|v|] eqn:EV;
    cbn [is_null negb andb]; try contradiction.
  1-4, 6: (pose proof (set_XM_loop frameIn s maskIn HS Hs Hall Hmall [] _ (drop (3 * n) x)
                    [] _ (drop n (Mass_ this)) Lx Lm) as G;
        cbn [app length] in G; change (Z.of_nat 0) with 0 in G;
        rewrite !take_drop in G; rewrite HX, G; reflexivity).
  destruct Hv as [Hvall Hvl].
  assert (Lv : length (take (3 * n) v) = (3 * length maskIn)%nat)
    by (rewrite length_take; unfold n in *; lia).
  pose proof (set_XVM_loop frameIn s vs maskIn HS EVS Hs Hall Hvall Hmall
                [] _ (drop (3 * n) x) [] _ (drop (3 * n) v) [] _ (drop n (Mass_ this))
                Lx Lv eq_refl Lm) as G.
  cbn [app length] in G. change (Z.of_nat 0) with 0 in G.
  rewrite !take_drop in G. rewrite HX, G. reflexivity.
Qed.

(** X15: [SetFrame] stores the coordinates and the masses of the selected
    atoms of the input frame, in mask order, at the front of the coordinate
    array and of the mass vector, sets the atom count to the selection size
    and takes over box and temperature.  The selected velocities are stored
    as well when both frames hold velocities; otherwise the velocity array
    is left as it was.  A selection larger than the capacity leaves the
    frame as it was and reports an error. *)
Theorem SetFrame_spec (this frameIn : Frame) (x s : list double) (maskIn : AtomMask) :
  X_ this = Buf x -> X_ frameIn = Buf s ->
  3 * maxnatom_ this <= Z.of_nat (length x) ->
  Z.of_nat (length x) <= INT_MAX ->
  Z.of_nat (length s) <= INT_MAX ->
  Forall (atom_in s) maskIn ->
  Forall (mass_in (Mass_ frameIn)) maskIn ->
  (length maskIn <= length (Mass_ this))%nat ->
  velocities_settable this frameIn maskIn ->
  SetFrame this frameIn maskIn
  = if maxnatom_ this <? Nselected maskIn
    then Some (this, ["Error: SetFrame: Mask [%s] selected (%i) > max natom (%i)"])
    else Some (mkFrame (Z.of_nat (length maskIn)) (maxnatom_ this)
                 (3 * Z.of_nat (length maskIn)) (box_ frameIn) (T_ frameIn)
                 (Buf (gather s maskIn ++ drop (3 * length maskIn) x))
                 (set_velocities this frameIn maskIn)
                 (select_masses (Mass_ frameIn) maskIn ++ drop (length maskIn) (Mass_ this)),
               []).
Proof.
  intros HX HS Hcap Hx Hs Hall Hmall Hml Hv.
  destruct (Z.ltb_spec (maxnatom_ this) (Nselected maskIn)) as [Hlt|Hge].
  - unfold SetFrame.
    destruct (Z.ltb_spec (maxnatom_ this) (Nselected maskIn)); [reflexivity|lia].
  - apply (SetFrame_sets this frameIn x s); assumption.
Qed.

Lemma SetFrame_spec_witness :
  SetFrame setup_src masked_src [2]
  = Some (mkFrame 1 3 3 zero_box 300%float
            (Buf [7; 8; 9; 4; 5; 6; 7; 8; 9]%float)
            (Buf [70; 80; 90; 0; 0; 0; 0; 0; 0]%float)
            [16; 1; 1]%float, []).
Proof.
  refine (SetFrame_spec setup_src masked_src _ _ [2] eq_refl eq_refl _ _ _ _ _ _ _).
  - cbn. lia.
  - cbn. unfold INT_MAX. lia.
  - cbn. unfold INT_MAX. lia.
  - repeat constructor; unfold atom_in; cbn; lia.
  - repeat constructor; unfold mass_in; cbn; lia.
  - cbn. lia.
  - unfold velocities_settable. cbn. repeat constructor; unfold atom_in; cbn; lia.
Defined.


(** ** Setting coordinates through an atom map *)


Lemma SetCoordinatesByMap_gathers (this tgtIn : Frame) (x s : list double) (mapIn : list Z) :
  X_ this = Buf x -> X_ tgtIn = Buf s ->
  3 * maxnatom_ this <= Z.of_nat (length x) ->
  Z.of_nat (length x) <= INT_MAX ->
  Z.of_nat (length s) <= INT_MAX ->
  Forall (atom_in s) mapIn ->
  natom_ tgtIn <= maxnatom_ this ->
  Z.of_nat (length mapIn) = natom_ tgtIn ->
  SetCoordinatesByMap this tgtIn mapIn
  = Some (front_set this x (gather s mapIn) (length mapIn), []).
Proof.
  intros HX HS Hcap Hx Hs Hall Hn Hmap. unfold SetCoordinatesByMap.
  destruct (Z.ltb_spec (maxnatom_ this) (natom_ tgtIn)) as [?|_]; [lia|].
  rewrite (int_wrap_id (Z.of_nat (length mapIn))) by (apply in_int_small; lia).
  destruct (Z.eqb_spec (Z.of_nat (length mapIn)) (natom_ tgtIn)) as [_|?]; [|lia].
  cbn [negb].
  rewrite HX, HS, (gather_X_gathers x s mapIn Hs Hall) by lia.
  cbn [mbind option_bind]. rewrite <- Hmap.
  rewrite (imul3_len mapIn (maxnatom_ this)) by lia. reflexivity.
Qed.

(** X16: [SetCoordinatesByMap] stores, for each map position in turn, the
    coordinates of the input atom the map names there, and takes over the
    atom count of the input frame.  An input frame with more atoms than
    the capacity, or a map whose size is not that atom count, leaves the
    frame as it was and reports an error. *)
Theorem SetCoordinatesByMap_spec (this tgtIn : Frame) (x s : list double) (mapIn : list Z) :
  X_ this = Buf x -> X_ tgtIn = Buf s ->
  3 * maxnatom_ this <= Z.of_nat (length x) ->
  Z.of_nat (length x) <= INT_MAX ->
  Z.of_nat (length s) <= INT_MAX ->
  Z.of_nat (length mapIn) <= INT_MAX ->
  Forall (atom_in s) mapIn ->
  SetCoordinatesByMap this tgtIn mapIn
  = if maxnatom_ this <? natom_ tgtIn
    then Some (this,
           ["Error: SetCoordinatesByMap: # Input map frame atoms (%i) > max atoms (%i)"])
    else if Z.of_nat (length mapIn) =? natom_ tgtIn
    then Some (front_set this x (gather s mapIn) (length mapIn), [])
    else Some (this,
           ["Error: SetCoordinatesByMap: Input map size (%zu) != input frame natom (%i)"]).
Proof.
  intros HX HS Hcap Hx Hs Hm Hall.
  destruct (Z.ltb_spec (maxnatom_ this) (natom_ tgtIn)) as [Hlt|Hge].
  - unfold SetCoordinatesByMap.
    destruct (Z.ltb_spec (maxnatom_ this) (natom_ tgtIn)); [reflexivity|lia].
  - destruct (Z.eqb_spec (Z.of_nat (length mapIn)) (natom_ tgtIn)) as [E|Hne].
    + apply (SetCoordinatesByMap_gathers this tgtIn x s); assumption.
    + unfold SetCoordinatesByMap.
      destruct (Z.ltb_spec (maxnatom_ this) (natom_ tgtIn)); [lia|].
      rewrite (int_wrap_id (Z.of_nat (length mapIn))) by (apply in_int_small; lia).
      destruct (Z.eqb_spec (Z.of_nat (length mapIn)) (natom_ tgtIn)); [lia|].
      reflexivity.
Qed.

Lemma SetCoordinatesByMap_spec_witness :
  SetCoordinatesByMap map_dst two_of_three [1; 0]
  = Some (mkFrame 2 3 6 zero_box dzero (Buf [4; 5; 6; 1; 2; 3; 0; 0; 0]%float) NULL [], []) /\
  SetCoordinatesByMap map_dst two_of_three [1]
  = Some (map_dst,
      ["Error: SetCoordinatesByMap: Input map size (%zu) != input frame natom (%i)"]).
Proof.
  split.
  - refine (SetCoordinatesByMap_spec map_dst two_of_three _ _ [1; 0]
              eq_refl eq_refl _ _ _ _ _).
    + cbn. lia.
    + cbn. unfold INT_MAX. lia.
    + cbn. unfold INT_MAX. lia.
    + cbn. unfold INT_MAX. lia.
    + repeat constructor; unfold atom_in; cbn; lia.
  - refine (SetCoordinatesByMap_spec map_dst two_of_three _ _ [1]
              eq_refl eq_refl _ _ _ _ _).
    + cbn. lia.
    + cbn. unfold INT_MAX. lia.
    + cbn. unfold INT_MAX. lia.
    + cbn. unfold INT_MAX. lia.
    + repeat constructor; unfold atom_in; cbn; lia.
Defined.


(** For a map without unmapped entries [SetTargetByMap] and
    [SetCoordinatesByMap] run the same copy loop. *)
Lemma tgt_loop_complete (tx : buffer) (mapIn : list Z) :
  Forall (fun m => m <> -1) mapIn ->
  forall st, foldlM (tgt_step tx) mapIn st = foldlM (copy_X tx) mapIn st.
Proof.
  induction 1 as [|m t Hm _ IH]; intros st; [reflexivity|].
  cbn [foldlM]. rewrite (tgt_step_copy tx st m Hm).
  destruct (copy_X tx st m); [apply IH|reflexivity].
Qed.

Lemma mapped_complete (mapIn : list Z) :
  Forall (fun m => m <> -1) mapIn -> mapped mapIn = mapIn.
Proof.
  induction 1 as [|m t Hm _ IH]; [reflexivity|].
  unfold mapped in *. rewrite filter_cons_True by exact Hm. rewrite IH. reflexivity.
Qed.

(** X17: when the map leaves no atom unmapped (no entry is -1),
    [SetTargetByMap] leaves exactly the frame [SetCoordinatesByMap] leaves,
    in every case, errors and undefined behaviour included; only the text
    of the error message differs. *)
Theorem SetTargetByMap_complete (this tgtIn : Frame) (mapIn : list Z) :
  Forall (fun m => m <> -1) mapIn ->
  3 * Z.of_nat (length mapIn) <= INT_MAX ->
  fst <$> SetTargetByMap this tgtIn mapIn = fst <$> SetCoordinatesByMap this tgtIn mapIn.
Proof.
  intros Hc Hl. unfold SetTargetByMap, SetCoordinatesByMap, gather_X.
  destruct (maxnatom_ this <? natom_ tgtIn); [reflexivity|].
  rewrite (int_wrap_id (Z.of_nat (length mapIn))) by (apply in_int_small; lia).
  destruct (Z.eqb_spec (Z.of_nat (length mapIn)) (natom_ tgtIn)) as [E|?];
    [|reflexivity].
  cbn [negb]. rewrite (tgt_loop_complete _ _ Hc).
  destruct (foldlM (copy_X (X_ tgtIn)) mapIn (X_ this, 0)) as [[d off]|] eqn:EL;
    [|reflexivity].
  cbn [mbind option_bind fmap option_fmap option_map fst].
  pose proof EL as EO. rewrite <- (tgt_loop_complete _ _ Hc) in EO.
  apply tgt_loop_offset in EO. rewrite (mapped_complete _ Hc) in EO.
  subst off. rewrite Z.add_0_l.
  rewrite (int_wrap_id (3 * Z.of_nat (length mapIn))) by (apply in_int_small; lia).
  rewrite idiv3 by lia. rewrite <- E.
  rewrite imul3_id by (apply in_int_small; lia).
  replace (Z.of_nat (length mapIn) * 3) with (3 * Z.of_nat (length mapIn)) by lia.
  reflexivity.
Qed.


Lemma SetTargetByMap_complete_witness :
  fst <$> SetTargetByMap map_dst two_of_three [1; 0]
  = Some (mkFrame 2 3 6 zero_box dzero (Buf [4; 5; 6; 1; 2; 3; 0; 0; 0]%float) NULL []).
Proof.
  refine (eq_trans (SetTargetByMap_complete map_dst two_of_three [1; 0] _ _) eq_refl).
  - repeat constructor; lia.
  - cbn. unfold INT_MAX. lia.
Defined.

(** ** Arithmetic on the coordinates *)

Lemma cell_op_middle (op : double -> double -> double) (r pre rest : list double)
    (a b : double) (i : Z) :
  i = Z.of_nat (length pre) -> rd r i = Some b ->
  cell_op op (Buf r) (Buf (pre ++ a :: rest)) i = Some (Buf (pre ++ op a b :: rest)).
Proof.
  intros Hi Hb. unfold cell_op. cbn [cells_of mbind option_bind].
  rewrite (rd_middle _ _ _ _ Hi). cbn [mbind option_bind]. rewrite Hb.
  cbn [mbind option_bind]. rewrite (wr_middle _ _ _ _ _ Hi). reflexivity.
Qed.

Lemma cell_op_loop (op : double -> double -> double) (r mid : list double) :
  forall pre rmid rest,
    length rmid = length mid ->
    cells_at r (Z.of_nat (length pre)) rmid ->
    foldlM (cell_op op (Buf r)) (seqZ (Z.of_nat (length pre)) (Z.of_nat (length mid)))
      (Buf (pre ++ mid ++ rest))
    = Some (Buf (pre ++ zip_with op mid rmid ++ rest)).
Proof.
  induction mid as [|a mid IH]; intros pre rmid rest Hl Hs.
  - destruct rmid; [reflexivity|discriminate].
  - destruct rmid as [|b rmid]; [discriminate|]. injection Hl as Hl.
    apply cells_at_tail in Hs as [Hs0 Hs].
    rewrite seqZ_cons by (cbn [length]; lia). cbn [foldlM].
    rewrite <- app_comm_cons, (cell_op_middle op r pre (mid ++ rest) a b _ eq_refl Hs0).
    cbn [mbind option_bind].
    replace (pre ++ op a b :: mid ++ rest) with ((pre ++ [op a b]) ++ mid ++ rest)
      by (rewrite <- app_assoc; reflexivity).
    replace (Z.succ (Z.of_nat (length pre))) with (Z.of_nat (length (pre ++ [op a b])))
      by (rewrite length_app; cbn [length]; lia).
    replace (Z.pred (Z.of_nat (length (a :: mid)))) with (Z.of_nat (length mid))
      by (cbn [length]; lia).
    rewrite (IH _ rmid rest Hl), <- app_assoc; [reflexivity|].
    rewrite length_app. cbn [length].
    replace (Z.of_nat (length pre + 1)) with (Z.of_nat (length pre) + 1) by lia.
    exact Hs.
Qed.

Lemma elementwise_combines (op : double -> double -> double) (msg : string)
    (this rhs : Frame) (x r : list double) :
  X_ this = Buf x -> X_ rhs = Buf r ->
  natom_ this = natom_ rhs ->
  0 <= ncoord_ this <= Z.of_nat (length x) ->
  ncoord_ this <= Z.of_nat (length r) ->
  elementwise op msg this rhs
  = Some (with_X this (Buf (combined op (Z.to_nat (ncoord_ this)) x r)), []).
Proof.
  intros HX HR Hn Hx Hr. unfold elementwise, upto, combined.
  destruct (Z.eqb_spec (natom_ this) (natom_ rhs)) as [_|?]; [|contradiction].
  cbn [negb]. set (n := Z.to_nat (ncoord_ this)).
  assert (L : length (take n r) = length (take n x)) by (rewrite !length_take; lia).
  pose proof (cell_op_loop op r (take n x) [] (take n r) (drop n x) L (cells_at_take r n))
    as G.
  cbn [app length] in G. change (Z.of_nat 0) with 0 in G.
  rewrite take_drop, length_take in G.
  replace (Z.of_nat (n `min` length x)) with (ncoord_ this) in G by lia.
  rewrite HX, HR, G. reflexivity.
Qed.

Lemma elementwise_rejects (op : double -> double -> double) (msg : string)
    (this rhs : Frame) :
  natom_ this <> natom_ rhs -> elementwise op msg this rhs = Some (this, [msg]).
Proof.
  intros Hn. unfold elementwise.
  destruct (Z.eqb_spec (natom_ this) (natom_ rhs)) as [?|_]; [contradiction|reflexivity].
Qed.

Lemma take_combined (op : double -> double -> double) (n : nat) (x r : list double) :
  (n <= length x)%nat -> (n <= length r)%nat ->
  take n (combined op n x r) = zip_with op (take n x) (take n r).
Proof.
  intros Hx Hr. unfold combined. rewrite take_app_length'; [reflexivity|].
  rewrite length_zip_with, !length_take. lia.
Qed.

(** X18: [operator+=], [operator-=] and [operator*=] combine each of the
    first [ncoord_] coordinates with the coordinate of the right-hand frame
    at the same index and leave everything else of the frame, the cells
    behind them included, as it was.  When the atom counts differ the
    frame is left unchanged and an error is reported. *)
Theorem elementwise_operators_spec (this rhs : Frame) (x r : list double) :
  X_ this = Buf x -> X_ rhs = Buf r ->
  0 <= ncoord_ this <= Z.of_nat (length x) ->
  ncoord_ this <= Z.of_nat (length r) ->
  let n := Z.to_nat (ncoord_ this) in
  let same := natom_ this =? natom_ rhs in
  operator_add_assign this rhs
  = (if same then Some (with_X this (Buf (combined PrimFloat.add n x r)), [])
     else Some (this, ["Error: Frame::operator+=: Frames have different natom."])) /\
  operator_sub_assign this rhs
  = (if same then Some (with_X this (Buf (combined PrimFloat.sub n x r)), [])
     else Some (this, ["Error: Frame::operator-=: Frames have different natom."])) /\
  operator_mul_assign this rhs
  = (if same then Some (with_X this (Buf (combined PrimFloat.mul n x r)), [])
     else Some (this, ["Error: Frame::operator*=: Frames have different natom."])).
Proof.
  intros HX HR Hx Hr n same. unfold same, n.
  unfold operator_add_assign, operator_sub_assign, operator_mul_assign.
  destruct (Z.eqb_spec (natom_ this) (natom_ rhs)) as [E|Hne].
  - rewrite !(elementwise_combines _ _ this rhs x r HX HR E Hx Hr). auto.
  - rewrite !(elementwise_rejects _ _ this rhs Hne). auto.
Qed.

Lemma elementwise_operators_spec_witness :
  operator_sub_assign two_of_three full3
  = Some (two_of_three, ["Error: Frame::operator-=: Frames have different natom."]) /\
  operator_mul_assign two_of_three two_of_three
  = Some (mkFrame 2 3 6 zero_box dzero (Buf [1; 4; 9; 16; 25; 36; 0; 0; 0]%float) NULL [],
          []).
Proof.
  split.
  - refine (proj1 (proj2 (elementwise_operators_spec two_of_three full3 _ _
                            eq_refl eq_refl _ _))); cbn; lia.
  - refine (proj2 (proj2 (elementwise_operators_spec two_of_three two_of_three _ _
                            eq_refl eq_refl _ _))); cbn; lia.
Defined.


Lemma length_combined (op : double -> double -> double) (n : nat) (x r : list double) :
  (n <= length x)%nat -> (n <= length r)%nat -> length (combined op n x r) = length x.
Proof.
  intros Hx Hr. unfold combined.
  rewrite length_app, length_zip_with, !length_take, length_drop. lia.
Qed.

Lemma operator_mul_multiplies (indet : nat -> double) (this rhs : Frame)
    (x r : list double) :
  X_ this = Buf x -> X_ rhs = Buf r ->
  copyable (natom_ this) (V_ this) ->
  coord_inv this ->
  0 <= natom_ this <= maxnatom_ this ->
  3 * maxnatom_ this <= INT_MAX ->
  3 * natom_ this <= Z.of_nat (length x) ->
  3 * natom_ this <= Z.of_nat (length r) ->
  let n := Z.to_nat (3 * natom_ this) in
  exists p y,
    operator_mul indet this rhs
    = Some (p, if natom_ this =? natom_ rhs then []
               else ["Error: Frame::operator*=: Frames have different natom."]) /\
    X_ p = Buf y /\ Z.of_nat (length y) = 3 * maxnatom_ this /\
    take n y = (if natom_ this =? natom_ rhs
                then zip_with PrimFloat.mul (take n x) (take n r) else take n x) /\
    copied (natom_ this) (maxnatom_ this) (V_ this) (V_ p) /\
    natom_ p = natom_ this /\ maxnatom_ p = maxnatom_ this /\ ncoord_ p = ncoord_ this /\
    box_ p = box_ this /\ T_ p = T_ this /\ Mass_ p = Mass_ this.
Proof.
  intros HX HR HV Hi Hcap Hmax Hx Hr n. unfold coord_inv in Hi. unfold operator_mul.
  destruct (Frame_copy_copies indet this Hcap Hmax)
    as (c & -> & E1 & E2 & E3 & E4 & E5 & E6 & Hc & Hcv).
  { rewrite HX. cbn. lia. } { exact HV. }
  cbn [mbind option_bind]. rewrite HX in Hc. cbn [copied] in Hc.
  destruct Hc as (cx & Hcx & Hct & Hcl). fold n in Hct.
  unfold operator_mul_assign.
  destruct (Z.eqb_spec (natom_ this) (natom_ rhs)) as [En|Hne].
  - rewrite (elementwise_combines _ _ c rhs cx r Hcx HR) by lia.
    eexists _, _. split; [reflexivity|].
    cbn [X_ V_ with_X natom_ maxnatom_ ncoord_ box_ T_ Mass_].
    split; [reflexivity|].
    replace (Z.to_nat (ncoord_ c)) with n by lia.
    split; [rewrite length_combined by lia; exact Hcl|].
    rewrite take_combined by lia. rewrite Hct.
    repeat split; assumption.
  - rewrite (elementwise_rejects _ _ c rhs) by lia.
    eexists _, _. split; [reflexivity|]. split; [exact Hcx|].
    repeat split; assumption.
Qed.

(** X19: [operator*] leaves both operands alone and returns a frame whose
    first [3 * natom_] coordinates are the products of those of the left
    frame with those of the right frame; counts, capacity, box,
    temperature and masses are those of the left frame.  When the atom
    counts differ the frame returned is a copy of the left frame and an
    error is reported. *)
Theorem operator_mul_spec (indet : nat -> double) (this rhs : Frame)
    (x r : list double) :
  X_ this = Buf x -> X_ rhs = Buf r ->
  copyable (natom_ this) (V_ this) ->
  coord_inv this ->
  0 <= natom_ this <= maxnatom_ this ->
  3 * maxnatom_ this <= INT_MAX ->
  3 * natom_ this <= Z.of_nat (length x) ->
  3 * natom_ this <= Z.of_nat (length r) ->
  exists p y,
    operator_mul_result indet this rhs
    = Some (p, if natom_ this =? natom_ rhs then []
               else ["Error: Frame::operator*=: Frames have different natom."]) /\
    X_ p = Buf y /\
    take (Z.to_nat (3 * natom_ this)) y
    = (if natom_ this =? natom_ rhs
       then zip_with PrimFloat.mul (take (Z.to_nat (3 * natom_ this)) x)
              (take (Z.to_nat (3 * natom_ this)) r)
       else take (Z.to_nat (3 * natom_ this)) x) /\
    natom_ p = natom_ this /\ maxnatom_ p = maxnatom_ this /\ ncoord_ p = ncoord_ this /\
    box_ p = box_ this /\ T_ p = T_ this /\ Mass_ p = Mass_ this.
Proof.
  intros HX HR HV Hi Hcap Hmax Hx Hr.
  destruct (operator_mul_multiplies indet this rhs x r HX HR HV Hi Hcap Hmax Hx Hr)
    as (t & y & Ht & Hy & Hyl & Hyt & Hv & F1 & F2 & F3 & F4 & F5 & F6).
  unfold operator_mul_result. rewrite Ht. cbn [mbind option_bind].
  destruct (Frame_copy_copies indet t) as (p & -> & G1 & G2 & G3 & G4 & G5 & G6 & Hc & _).
  { lia. } { lia. }
  { rewrite Hy. cbn [copyable]. lia. }
  { destruct (V_ this) as [|vs|]; cbn [copied copyable] in Hv, HV |- *;
      [rewrite Hv; exact I| |contradiction].
    destruct Hv as (new & -> & _ & Hl). cbn [copyable]. lia. }
  cbn [mbind option_bind].
  assert (Hd : Frame_destructor t = Some tt).
  { unfold Frame_destructor. rewrite Hy. cbn [delete_if_set mbind option_bind].
    destruct (V_ this) as [|vs|]; cbn [copied] in Hv; [rewrite Hv; reflexivity| |contradiction].
    destruct Hv as (new & -> & _). reflexivity. }
  rewrite Hd. cbn [mbind option_bind].
  rewrite Hy in Hc. cbn [copied] in Hc. destruct Hc as (z & Hz & Hzt & _).
  rewrite F1 in Hzt.
  exists p, z. split; [reflexivity|]. split; [exact Hz|].
  split; [rewrite Hzt; exact Hyt|].
  repeat split; congruence.
Qed.

Lemma operator_mul_spec_witness :
  exists p y,
    operator_mul_result (fun _ => dzero) two_of_three two_of_three = Some (p, []) /\
    X_ p = Buf y /\ take 6 y = [1; 4; 9; 16; 25; 36]%float.
Proof.
  destruct (operator_mul_spec (fun _ => dzero) two_of_three two_of_three _ _
              eq_refl eq_refl) as (p & y & E & Hy & Ht & _).
  - exact I.
  - reflexivity.
  - cbn. lia.
  - cbn. unfold INT_MAX. lia.
  - cbn. lia.
  - cbn. lia.
  - exists p, y. split; [exact E|]. split; [exact Hy|exact Ht].
Defined.


Lemma ZeroCoords_zeroes (this : Frame) (x : list double) :
  X_ this = Buf x ->
  0 <= 3 * natom_ this <= Z.of_nat (length x) ->
  let n := Z.to_nat (3 * natom_ this) in
  ZeroCoords this = Some (with_X this (Buf (replicate n dzero ++ drop n x))).
Proof.
  intros HX Hn n. unfold ZeroCoords. rewrite HX.
  destruct (Z.eqb_spec (natom_ this) 0) as [E|_].
  - assert (n = 0%nat) as -> by lia. cbn [replicate app]. rewrite drop_0.
    destruct this; cbn in *; subst; reflexivity.
  - cbn [cells_of mbind option_bind]. unfold memset0.
    destruct (Z.leb_spec 0 (natom_ this * 3)); [|lia].
    destruct (Z.leb_spec (natom_ this * 3) (Z.of_nat (length x))); [|lia].
    cbn [andb mbind option_bind].
    replace (Z.to_nat (natom_ this * 3)) with n by lia. reflexivity.
Qed.

(** X20: a frame constructed for [natomIn] atoms and then zeroed, as the
    coordinate-fluctuation analysis sets up its sums, holds [natomIn]
    atoms whose coordinates are all 0, whatever the fresh allocation
    held; it has no velocities and no masses. *)
Theorem zeroed_frame_spec (indet : nat -> double) (natomIn : Z) :
  0 < natomIn -> 3 * natomIn <= INT_MAX ->
  Frame_of_natom indet natomIn ≫= ZeroCoords
  = Some (mkFrame natomIn natomIn (3 * natomIn) zero_box dzero
            (Buf (replicate (Z.to_nat (3 * natomIn)) dzero)) NULL []).
Proof.
  intros Hpos Hn. unfold Frame_of_natom. rewrite imul3_id by (apply in_int_small; lia).
  destruct (Z.ltb_spec 0 (natomIn * 3)) as [_|?]; [|lia].
  destruct (new_double_some indet (natomIn * 3) ltac:(lia)) as (nx & E & L).
  rewrite E. cbn [fmap option_fmap option_map mbind option_bind].
  rewrite (ZeroCoords_zeroes
             (mkFrame natomIn natomIn (natomIn * 3) zero_box dzero (Buf nx) NULL []) nx
             eq_refl) by (cbn [natom_]; lia).
  cbn [natom_]. rewrite drop_ge by lia. rewrite app_nil_r.
  unfold with_X. cbn. do 2 f_equal; lia.
Qed.

Lemma zeroed_frame_spec_witness :
  Frame_of_natom (fun _ => 7%float) 2 ≫= ZeroCoords
  = Some (mkFrame 2 2 6 zero_box dzero (Buf (replicate 6 dzero)) NULL []).
Proof.
  refine (zeroed_frame_spec (fun _ => 7%float) 2 _ _);
    unfold INT_MAX; lia.
Defined.


(** ** Scaling selected atoms *)


Lemma scale_cell_middle (s : double) (pre rest : list double) (a : double) (i : Z) :
  i = Z.of_nat (length pre) ->
  scale_cell s (Buf (pre ++ a :: rest)) i = Some (Buf (pre ++ (a * s)%float :: rest)).
Proof.
  intros Hi. unfold scale_cell. cbn [cells_of mbind option_bind].
  rewrite (rd_middle _ _ _ _ Hi). cbn [mbind option_bind].
  rewrite (wr_middle _ _ _ _ _ Hi). reflexivity.
Qed.

Lemma scale_atom_middle (sx sy sz : double) (pre rest : list double) (a b c : double)
    (k : Z) :
  3 * k = Z.of_nat (length pre) -> 3 * k + 3 <= INT_MAX ->
  scale_atom sx sy sz (Buf (pre ++ a :: b :: c :: rest)) k
  = Some (Buf (pre ++ (a * sx)%float :: (b * sy)%float :: (c * sz)%float :: rest)).
Proof.
  intros Hk Hmax. unfold scale_atom, uadd.
  rewrite imul3_id by (apply in_int_small; lia).
  assert (H32 : INT_MAX < 2 ^ 32) by (unfold INT_MAX; lia).
  rewrite (uint_wrap_id (k * 3)) by lia.
  rewrite !uint_wrap_id by lia.
  assert (Hi : k * 3 = Z.of_nat (length pre)) by lia.
  rewrite (scale_cell_middle sx pre _ a _ Hi). cbn [mbind option_bind].
  change (pre ++ (a * sx)%float :: b :: c :: rest)
    with (pre ++ [(a * sx)%float] ++ b :: c :: rest).
  rewrite app_assoc.
  rewrite (scale_cell_middle sy _ _ b) by (rewrite length_app; cbn [length]; lia).
  cbn [mbind option_bind]. rewrite <- app_assoc. cbn [app].
  change (pre ++ (a * sx)%float :: (b * sy)%float :: c :: rest)
    with (pre ++ [(a * sx)%float; (b * sy)%float] ++ c :: rest).
  rewrite app_assoc.
  rewrite (scale_cell_middle sz _ _ c) by (rewrite length_app; cbn [length]; lia).
  rewrite <- app_assoc. reflexivity.
Qed.

Lemma coords_middle (atoms : list Vec3) (k : nat) (v : Vec3) :
  atoms !! k = Some v ->
  coords atoms = coords (take k atoms) ++ vx v :: vy v :: vz v :: coords (drop (S k) atoms).
Proof.
  intros Hk. rewrite <- (take_drop_middle atoms k v Hk) at 1.
  rewrite coords_app. reflexivity.
Qed.

Lemma scale_atom_alter (sx sy sz : double) (atoms : list Vec3) (rest : list double)
    (a : Z) :
  0 <= a < Z.of_nat (length atoms) ->
  3 * Z.of_nat (length atoms) <= INT_MAX ->
  scale_atom sx sy sz (Buf (coords atoms ++ rest)) a
  = Some (Buf (coords (alter (scale_vec sx sy sz) (Z.to_nat a) atoms) ++ rest)).
Proof.
  intros Ha Hmax.
  destruct (lookup_lt_is_Some_2 atoms (Z.to_nat a) ltac:(lia)) as [v Hv].
  rewrite (coords_middle atoms _ v Hv), <- app_assoc. cbn [app].
  rewrite (scale_atom_middle sx sy sz) by (rewrite ?coords_length, ?length_take; lia).
  rewrite (coords_middle (alter (scale_vec sx sy sz) (Z.to_nat a) atoms) (Z.to_nat a)
             (scale_vec sx sy sz v))
    by (rewrite list_lookup_alter_eq, Hv; reflexivity).
  rewrite take_alter, drop_alter.
  destruct (decide (Z.to_nat a < Z.to_nat a)%nat); [lia|].
  destruct (decide (S (Z.to_nat a) <= Z.to_nat a)%nat); [lia|].
  rewrite <- app_assoc. reflexivity.
Qed.

Lemma scale_loop (sx sy sz : double) (mask : AtomMask) :
  forall (atoms : list Vec3) (rest : list double),
    Forall (fun a => 0 <= a < Z.of_nat (length atoms)) mask ->
    3 * Z.of_nat (length atoms) <= INT_MAX ->
    foldlM (scale_atom sx sy sz) mask (Buf (coords atoms ++ rest))
    = Some (Buf (coords (scale_walk sx sy sz mask atoms) ++ rest)).
Proof.
  induction mask as [|a mask IH]; intros atoms rest Hall Hmax; [reflexivity|].
  apply Forall_cons in Hall as [Ha Hall].
  cbn [foldlM]. rewrite (scale_atom_alter sx sy sz atoms rest a Ha Hmax).
  cbn [mbind option_bind].
  rewrite IH by (rewrite ?length_alter; assumption). reflexivity.
Qed.

Lemma scale_walk_once (sx sy sz : double) (mask : AtomMask) :
  forall atoms : list Vec3,
    NoDup mask -> Forall (fun a => 0 <= a) mask ->
    scale_walk sx sy sz mask atoms = scaled sx sy sz mask atoms.
Proof.
  induction mask as [|a mask IH]; intros atoms Hnd Hpos.
  - unfold scaled. cbn. symmetry. apply list_eq. intros k.
    rewrite list_lookup_imap. destruct (atoms !! k); [|reflexivity].
    cbn. rewrite bool_decide_eq_false_2 by (apply not_elem_of_nil). reflexivity.
  - apply NoDup_cons in Hnd as [Hna Hnd]. apply Forall_cons in Hpos as [Ha Hpos].
    change (scale_walk sx sy sz (a :: mask) atoms)
      with (scale_walk sx sy sz mask (alter (scale_vec sx sy sz) (Z.to_nat a) atoms)).
    rewrite (IH _ Hnd Hpos). unfold scaled. apply list_eq. intros k.
    rewrite !list_lookup_imap.
    destruct (decide (k = Z.to_nat a)) as [->|Hne].
    + rewrite list_lookup_alter_eq. destruct (atoms !! Z.to_nat a); [|reflexivity].
      cbn. rewrite Z2Nat.id by lia.
      rewrite bool_decide_eq_false_2 by exact Hna.
      rewrite bool_decide_eq_true_2 by (apply elem_of_cons; left; reflexivity). reflexivity.
    + rewrite list_lookup_alter_ne by congruence.
      destruct (atoms !! k); [|reflexivity]. cbn.
      destruct (decide (Z.of_nat k ∈ mask)) as [Hin|Hnin].
      * rewrite !bool_decide_eq_true_2; [reflexivity| |exact Hin].
        apply elem_of_cons; right; exact Hin.
      * rewrite !bool_decide_eq_false_2; [reflexivity| |exact Hnin].
        intros Hin. apply elem_of_cons in Hin as [E|Hin]; [lia|contradiction].
Qed.

(** X21: [SCALE] multiplies the three coordinates of an atom by [sx], [sy]
    and [sz] once for every time the mask names it, and leaves every other
    coordinate as it was; for a mask without repetitions each selected
    atom is scaled exactly once. *)
Theorem SCALE_spec (this : Frame) (maskIn : AtomMask) (sx sy sz : double)
    (atoms : list Vec3) (rest : list double) :
  X_ this = Buf (coords atoms ++ rest) ->
  3 * Z.of_nat (length atoms) <= INT_MAX ->
  Forall (fun a => 0 <= a < Z.of_nat (length atoms)) maskIn ->
  SCALE this maskIn sx sy sz
  = Some (with_X this (Buf (coords (scale_walk sx sy sz maskIn atoms) ++ rest))) /\
  (NoDup maskIn -> scale_walk sx sy sz maskIn atoms = scaled sx sy sz maskIn atoms).
Proof.
  intros HX Hmax Hall. split.
  - unfold SCALE. rewrite HX.
    rewrite (scale_loop sx sy sz maskIn atoms rest Hall Hmax). reflexivity.
  - intros Hnd. apply (scale_walk_once sx sy sz maskIn atoms Hnd).
    eapply Forall_impl; [exact Hall|]. cbn. intros. lia.
Qed.

Lemma SCALE_spec_witness :
  SCALE full3 [2; 0; 2] 2 3 4
  = Some (mkFrame 3 3 9 zero_box dzero (Buf [2; 6; 12; 4; 5; 6; 28; 72; 144]%float) NULL []).
Proof.
  refine (proj1 (SCALE_spec full3 [2; 0; 2] 2 3 4
                   [mkVec3 1 2 3; mkVec3 4 5 6; mkVec3 7 8 9]%float [] eq_refl _ _)).
  - cbn. unfold INT_MAX. lia.
  - repeat constructor; cbn; lia.
Defined.

(** ** RMSD without fitting, and centring *)

Lemma nofit_step_at (x r masses : list double) (useMass : bool) (k mi : Z)
    (xa ra : Vec3) (w s total : double) :
  atom_at x k xa -> atom_at r k ra ->
  (if useMass then rd masses mi = Some w else w = done_) ->
  nofit_step x r masses useMass (s, total, mi) (3 * k)
  = Some ((nofit_atom w (s, total) xa ra).1, (nofit_atom w (s, total) xa ra).2,
          if useMass then mi + 1 else mi).
Proof.
  intros (H0 & H1 & H2) (R0 & R1 & R2) Hw. unfold nofit_step.
  rewrite H0, H1, H2, R0, R1, R2. cbn [mbind option_bind].
  destruct useMass; [rewrite Hw|subst w]; reflexivity.
Qed.

Lemma nofit_loop (x r masses : list double) (useMass : bool) (l : list Vec3) :
  forall (rl : list Vec3) (ws : list double) (k mi : Z) (st : double * double),
    length rl = length l -> length ws = length l ->
    atoms_at x k l -> atoms_at r k rl ->
    (if useMass then cells_at masses mi ws else ws = replicate (length l) done_) ->
    exists mi',
      foldlM (nofit_step x r masses useMass)
        ((fun j => 3 * j) <$> seqZ k (Z.of_nat (length l))) (st.1, st.2, mi)
      = Some ((fold_left (fun st p => nofit_atom p.2 st p.1.1 p.1.2)
                 (zip (zip l rl) ws) st).1,
              (fold_left (fun st p => nofit_atom p.2 st p.1.1 p.1.2)
                 (zip (zip l rl) ws) st).2, mi').
Proof.
  induction l as [|v l IH]; intros rl ws k mi st Hrl Hws Hx Hr Hw.
  - exists mi. destruct rl; [|discriminate]. destruct ws; [|discriminate]. reflexivity.
  - destruct rl as [|rv rl]; [discriminate|]. destruct ws as [|w ws]; [discriminate|].
    injection Hrl as Hrl. injection Hws as Hws.
    apply atoms_at_tail in Hx as [Hv Hx]. apply atoms_at_tail in Hr as [Hrv Hr].
    assert (Hw0 : if useMass then rd masses mi = Some w else w = done_).
    { destruct useMass; [apply cells_at_tail in Hw as [Hw _]; exact Hw|].
      cbn [length replicate] in Hw. injection Hw as -> _. reflexivity. }
    assert (Hw' : if useMass then cells_at masses (mi + 1) ws
                  else ws = replicate (length l) done_).
    { destruct useMass; [apply cells_at_tail in Hw as [_ Hw]; exact Hw|].
      cbn [length replicate] in Hw. injection Hw as _ Hw. exact Hw. }
    destruct st as [s total].
    assert (Hw'' : if useMass
                   then cells_at masses (if useMass then mi + 1 else mi) ws
                   else ws = replicate (length l) done_)
      by (destruct useMass; exact Hw').
    destruct (IH rl ws (k + 1) (if useMass then mi + 1 else mi)
                (nofit_atom w (s, total) v rv) Hrl Hws Hx Hr Hw'') as [mi' Hloop].
    exists mi'. rewrite seqZ_atoms_cons. cbn [foldlM fst snd].
    rewrite (nofit_step_at x r masses useMass k mi v rv w s total Hv Hrv Hw0).
    cbn [mbind option_bind]. rewrite Hloop. reflexivity.
Qed.

(** X22: [RMSD_NoFit] returns the square root of the weighted sum of
    squared distances between corresponding atoms of the two frames over
    the sum of the weights, the weights being the masses of this frame or
    1 for every atom; it changes neither frame.  A weight sum below the
    threshold gives an error and -1, and a negative sum of squares gives
    0. *)
Theorem RMSD_NoFit_spec (SMALL : double) (this Ref : Frame) (useMass : bool)
    (atoms ratoms : list Vec3) (rest rrest : list double) :
  holds_atoms this atoms rest ->
  X_ Ref = Buf (coords ratoms ++ rrest) ->
  length ratoms = length atoms ->
  (useMass = true -> (length atoms <= length (Mass_ this))%nat) ->
  RMSD_NoFit SMALL this Ref useMass
  = let '(sum, total) := nofit_sums useMass (Mass_ this) atoms ratoms in
    if (total <? SMALL)%float
    then Some ((-1)%float, ["Error: no-fit RMSD: Divide by zero."])
    else if (sum <? 0)%float then Some (0%float, [])
    else Some (sqrt (sum / total)%float, []).
Proof.
  intros (HX & Hn & Hc) HR Hl Hm.
  destruct (nofit_sums useMass (Mass_ this) atoms ratoms) as [sum total] eqn:ES.
  unfold RMSD_NoFit. rewrite Hc, upto3_atoms, HX, HR.
  destruct atoms as [|v atoms].
  - cbn in ES. injection ES as <- <-. reflexivity.
  - rewrite seqZ_atoms_cons. cbn [cells_of mbind option_bind].
    rewrite <- (seqZ_atoms_cons 0 v atoms).
    set (l := v :: atoms) in *.
    destruct (nofit_loop (coords l ++ rest) (coords ratoms ++ rrest) (Mass_ this) useMass l
                ratoms (atom_weights useMass (Mass_ this) (length l)) 0 0
                (dzero, dzero) Hl) as [mi' Hloop].
    + unfold atom_weights. destruct useMass.
      * rewrite length_take. specialize (Hm eq_refl). lia.
      * apply length_replicate.
    + exact (atoms_at_coords [] l rest).
    + exact (atoms_at_coords [] ratoms rrest).
    + unfold atom_weights. destruct useMass; [apply cells_at_take|reflexivity].
    + cbn [fst snd] in Hloop. rewrite Hloop. cbn [mbind option_bind].
      unfold nofit_sums in ES. rewrite ES. reflexivity.
Qed.

Lemma RMSD_NoFit_spec_witness :
  RMSD_NoFit SMALL_example line1 line2 false = Some (sqrt (5 / 3)%float, []) /\
  RMSD_NoFit SMALL_example massless massive true
  = Some ((-1)%float, ["Error: no-fit RMSD: Divide by zero."]).
Proof.
  split.
  - refine (RMSD_NoFit_spec SMALL_example line1 line2 false
              [mkVec3 0 0 0; mkVec3 1 0 0; mkVec3 2 0 0]%float
              [mkVec3 0 0 0; mkVec3 2 0 0; mkVec3 4 0 0]%float [] [] _ _ _ _).
    + repeat split; reflexivity.
    + reflexivity.
    + reflexivity.
    + discriminate.
  - refine (RMSD_NoFit_spec SMALL_example massless massive true
              [mkVec3 1 2 3]%float [mkVec3 4 5 6]%float [] [] _ _ _ _).
    + repeat split; reflexivity.
    + reflexivity.
    + reflexivity.
    + intros _. simpl. lia.
Defined.

(** X23: [CenterReference] subtracts the centre of the frame, of mass or
    geometric as asked, from every atom and returns that centre;
    [ShiftToGeometricCenter] leaves the frame [CenterReference] leaves
    when asked for the geometric centre.  Cells behind the atoms and
    the rest of the frame stay. *)
Theorem CenterReference_spec (this : Frame) (useMass : bool) (atoms : list Vec3)
    (rest : list double) :
  holds_atoms this atoms rest ->
  (useMass = true -> (length atoms <= length (Mass_ this))%nat) ->
  CenterReference this useMass
  = Some (with_X this
            (Buf (coords (shift PrimFloat.sub (centroid useMass (Mass_ this) atoms)
                            <$> atoms) ++ rest)),
          centroid useMass (Mass_ this) atoms) /\
  ShiftToGeometricCenter this
  = Some (with_X this
            (Buf (coords (shift PrimFloat.sub (centroid false (Mass_ this) atoms)
                            <$> atoms) ++ rest))).
Proof.
  intros Hh Hm. pose proof Hh as (_ & Hn & _).
  unfold ShiftToGeometricCenter, CenterReference. split.
  - rewrite (reference_centre_spec this useMass atoms rest (natom_ this) Hh Hn Hm).
    cbn [mbind option_bind].
    rewrite (NegTranslate_spec this _ atoms rest Hh). reflexivity.
  - pose proof (reference_centre_spec this false atoms rest (natom_ this) Hh Hn
                  ltac:(discriminate)) as E.
    cbn beta iota in E. rewrite E. cbn [mbind option_bind].
    apply (NegTranslate_spec this _ atoms rest Hh).
Qed.

Lemma CenterReference_spec_witness :
  CenterReference pair_moved true
  = Some (with_X pair_moved (Buf [-0.5; 0; 0; 0.5; 0; 0]%float), mkVec3 5.5 5 5) /\
  ShiftToGeometricCenter line1
  = Some (with_X line1 (Buf [-1; 0; 0; 0; 0; 0; 1; 0; 0]%float)).
Proof.
  split.
  - refine (proj1 (CenterReference_spec pair_moved true pair_moved_atoms [] _ _)).
    + repeat split; reflexivity.
    + intros _. simpl. lia.
  - refine (proj2 (CenterReference_spec line1 false
                     [mkVec3 0 0 0; mkVec3 1 0 0; mkVec3 2 0 0]%float [] _ _)).
    + repeat split; reflexivity.
    + discriminate.
Defined.

(** X24: for frames with the same atom count the five-argument [RMSD] is
    [CenterReference] on the reference followed by [RMSD_CenteredRef]
    against the centred reference: the reference it leaves and the
    translation it reports are those of [CenterReference]. *)
Theorem RMSD_by_centring (SMALL : double)
    (TransposeMult : Matrix_3x3 -> Matrix_3x3 -> Matrix_3x3)
    (Diagonalize_Sort : Matrix_3x3 -> Z * Matrix_3x3 * Vec3)
    (this Ref : Frame) (U : Matrix_3x3) (Trans refTrans : Vec3) (useMass : bool) :
  natom_ this = natom_ Ref ->
  RMSD SMALL TransposeMult Diagonalize_Sort this Ref U Trans refTrans useMass
  = '(Ref', c) ← CenterReference Ref useMass;
    r ← RMSD_CenteredRef SMALL TransposeMult Diagonalize_Sort this Ref' U Trans useMass;
    Some (mkRmsd r Ref' c).
Proof.
  intros Hn. unfold RMSD, CenterReference. rewrite Hn.
  destruct (if useMass then _ else _) as [c|]; [|reflexivity].
  cbn [mbind option_bind]. destruct (NegTranslate Ref c); reflexivity.
Qed.

Lemma RMSD_by_centring_witness :
  RMSD SMALL_example transpose_product diagonalize_diagonal
    pair_frame pair_moved Matrix_zero Vec3_zero Vec3_zero true
  = RMSD_CenteredRef SMALL_example transpose_product diagonalize_diagonal pair_frame
      (with_X pair_moved (Buf [-0.5; 0; 0; 0.5; 0; 0]%float)) Matrix_zero Vec3_zero true
    ≫= fun r => Some (mkRmsd r (with_X pair_moved (Buf [-0.5; 0; 0; 0.5; 0; 0]%float))
                        (mkVec3 5.5 5 5)).
Proof.
  refine (eq_trans (RMSD_by_centring SMALL_example transpose_product diagonalize_diagonal
                      pair_frame pair_moved Matrix_zero Vec3_zero Vec3_zero true eq_refl)
            _).
  vm_compute. reflexivity.
Defined.

(** ** Errors and capacity across the mutating calls *)

Lemma quiet_silent {A} (r : option A) (a : A) (l : log) :
  quiet r = Some (a, l) -> l = [].
Proof.
  unfold quiet. intros H. apply fmap_Some in H as (? & _ & H). congruence.
Qed.

Ltac silent H :=
  solve [ exfalso; run_cases H; simplify_eq; congruence
        | run_cases H; simplify_eq; try reflexivity; congruence ].


(** X25: whenever a mutating call of a frame reports an error, it leaves
    the frame exactly as it was: no count, array, box, temperature or
    mass is touched on any error path. *)
Theorem error_leaves_frame_unchanged (SMALL : double) (indet : nat -> double) (m : mutation)
    (this r : Frame) (l : log) :
  report SMALL indet m this = Some (r, l) -> l <> [] -> r = this.
Proof.
  intros H Hl.
  destruct m; cbn [report] in H;
    try (apply quiet_silent in H; contradiction).
  - unfold SetFromCRD in H. silent H.
  - unfold SetFromCRD_mask in H. silent H.
  - unfold SetCoordinatesByMask in H. silent H.
  - unfold SetCoordinates_mask in H. silent H.
  - unfold SetCoordinates in H. silent H.
  - unfold SetFrame in H. silent H.
  - unfold SetCoordinatesByMap in H. silent H.
  - unfold SetReferenceByMap in H. silent H.
  - unfold SetTargetByMap in H. silent H.
  - unfold operator_add_assign, elementwise in H. silent H.
  - unfold operator_sub_assign, elementwise in H. silent H.
  - unfold operator_mul_assign, elementwise in H. silent H.
  - apply fmap_Some in H as ([[f s] l'] & H & E). cbn in E. simplify_eq.
    unfold Divide_frame in H. silent H.
  - unfold Divide in H. silent H.
  - unfold AddByMask in H. silent H.
Qed.


Lemma error_leaves_frame_unchanged_witness :
  report SMALL_example (fun _ => dzero) (M_Divide 0) two_atoms
  = Some (two_atoms, ["Error: Frame::Divide(divisor): Detected divide by 0."]) /\
  two_atoms = two_atoms.
Proof.
  split; [reflexivity|].
  refine (error_leaves_frame_unchanged SMALL_example (fun _ => dzero) (M_Divide 0)
            two_atoms two_atoms
            ["Error: Frame::Divide(divisor): Detected divide by 0."] eq_refl _).
  discriminate.
Defined.


Lemma construct_within_capacity (indet : nat -> double) (k : construction) (f : Frame) :
  roomy k -> construct indet k = Some f -> within_capacity f.
Proof.
  unfold within_capacity.
  destruct k; cbn [roomy construct]; intros Hk H.
  - injection H as <-. reflexivity.
  - unfold Frame_of_natom in H. run_cases H; simplify_eq; reflexivity.
  - unfold Frame_of_atoms in H. run_cases H; simplify_eq; reflexivity.
  - unfold Frame_of_mask in H. run_cases H; simplify_eq; reflexivity.
  - unfold Frame_copy in H. run_cases H; simplify_eq; exact Hk.
Qed.

Lemma int_wrap_range (z : Z) : in_int (int_wrap z).
Proof.
  unfold in_int, int_wrap, INT_MIN, INT_MAX.
  pose proof (Z.mod_pos_bound (z + 2 ^ 31) (2 ^ 32) ltac:(lia)). lia.
Qed.

Lemma idiv3_le (a b : Z) : in_int a -> a <= b * 3 -> idiv a 3 <= b.
Proof.
  intros Ha Hab. unfold idiv, in_int, INT_MIN, INT_MAX in *.
  assert (Hq : a ÷ 3 <= b).
  { destruct (Z.le_gt_cases 0 a) as [H0|H0].
    - rewrite Z.quot_div_nonneg by lia. apply Z.div_le_upper_bound; lia.
    - pose proof (Z.quot_opp_l a 3 ltac:(lia)) as E.
      pose proof (Z.quot_pos (- a) 3 ltac:(lia) ltac:(lia)).
      destruct (Z.le_gt_cases 0 b); [lia|].
      assert (- a ÷ 3 >= - b); [|lia].
      rewrite Z.quot_div_nonneg by lia.
      apply Z.le_ge, Z.div_le_lower_bound; lia. }
  assert (Hr : INT_MIN <= a ÷ 3 <= INT_MAX).
  { unfold INT_MIN, INT_MAX.
    destruct (Z.le_gt_cases 0 a) as [H0|H0].
    - rewrite Z.quot_div_nonneg by lia.
      pose proof (Z.div_pos a 3 H0 ltac:(lia)).
      assert (a `div` 3 <= a) by (apply Z.div_le_upper_bound; lia). lia.
    - pose proof (Z.quot_opp_l a 3 ltac:(lia)) as E.
      rewrite Z.quot_div_nonneg in E by lia.
      pose proof (Z.div_pos (- a) 3 ltac:(lia) ltac:(lia)).
      assert ((- a) `div` 3 <= - a) by (apply Z.div_le_upper_bound; lia). lia. }
  rewrite int_wrap_id by exact Hr. exact Hq.
Qed.

Lemma append_xyz_within_capacity (indet : nat -> double) (this r : Frame)
    (src : list double) :
  within_capacity this ->
  in_int (natom_ this) -> maxnatom_ this + 500 <= INT_MAX ->
  append_xyz indet this src = Some r -> within_capacity r.
Proof.
  unfold within_capacity, in_int, INT_MIN. intros Hw Hn Hm H.
  unfold append_xyz in H.
  destruct (Z.leb_spec (maxnatom_ this) (natom_ this)) as [Hfull|Hfree].
  - apply bind_Some in H as (this1 & E1 & H). unfold ReallocateX in E1.
    run_cases E1. run_cases H. simplify_eq.
    cbn [with_counts with_X with_max natom_ maxnatom_]. unfold iadd.
    rewrite !int_wrap_id by (unfold in_int, INT_MIN; lia). lia.
  - cbn [mbind option_bind] in H. run_cases H. simplify_eq.
    cbn [with_counts with_X natom_ maxnatom_]. unfold iadd.
    rewrite int_wrap_id by (unfold in_int, INT_MIN; lia). lia.
Qed.

Lemma grow_X_within_capacity (indet : nat -> double) (this r : Frame) (b : bool) :
  grow_X indet this = Some (r, b) -> within_capacity r.
Proof.
  unfold within_capacity, grow_X. intros H.
  destruct (Z.ltb_spec (maxnatom_ this) (natom_ this)).
  - run_cases H. simplify_eq. cbn. lia.
  - simplify_eq. assumption.
Qed.

Ltac split_guard H :=
  match type of H with
  | (if ?a <? ?b then _ else _) = _ => destruct (Z.ltb_spec a b)
  end.


Ltac capacity_done :=
  simplify_eq;
  cbn [natom_ maxnatom_ with_X with_V with_Mass with_counts with_max with_box with_T
       fst snd] in *;
  unfold Nselected in *; try lia.


Lemma mutate_within_capacity (SMALL : double) (indet : nat -> double) (m : mutation)
    (this this' : Frame) :
  within_capacity this -> fits m this -> mutate SMALL indet m this = Some this' ->
  within_capacity this'.
Proof.
  intros Hw Hf H.
  destruct m; cbn [fits mutate] in Hf, H; drop_log H; cbn [fst].
  - unfold operator_assign in H. apply bind_Some in H as (tmp & E & H).
    injection H as <-. cbn [swap fst].
    exact (construct_within_capacity indet (K_copy rhs) tmp Hf E).
  - unfold within_capacity in *. unfold SetFromCRD in H.
    match type of H with
    | (if ?a <? ?b then _ else _) = _ => destruct (Z.ltb_spec a b) as [?|Hle]
    end.
    + capacity_done.
    + run_cases H; capacity_done;
        (apply idiv3_le; [apply int_wrap_range|];
         rewrite imul3_id in Hle by exact Hf; exact Hle).
  - unfold within_capacity in *. unfold SetFromCRD_mask in H.
    split_guard H; run_cases H; capacity_done.
  - destruct Hf as [Hn Hm]. unfold AddXYZ in H.
    match type of H with match ?p with _ => _ end = _ => destruct p end;
      [congruence| |discriminate].
    exact (append_xyz_within_capacity indet _ _ _ Hw Hn Hm H).
  - destruct Hf as [Hn Hm].
    exact (append_xyz_within_capacity indet _ _ _ Hw Hn Hm H).
  - unfold SetupFrame in H. run_cases H. simplify_eq.
    match goal with E : grow_X _ _ = Some _ |- _ =>
      apply grow_X_within_capacity in E; exact E end.
  - unfold SetupFrameM in H. run_cases H. simplify_eq.
    match goal with E : grow_X _ _ = Some _ |- _ =>
      apply grow_X_within_capacity in E; exact E end.
  - unfold SetupFrameV in H.
    apply bind_Some in H as ([this2 re] & E & H).
    apply grow_X_within_capacity in E.
    run_cases H; simplify_eq; exact E.
  - unfold SetupFrameFromMask in H.
    apply bind_Some in H as ([this2 re] & E & H).
    apply grow_X_within_capacity in E.
    run_cases H; simplify_eq; exact E.
  - unfold within_capacity in *. unfold SetCoordinatesByMask in H.
    match type of H with (if ?b then _ else _) = _ => destruct b end; [capacity_done|].
    split_guard H; run_cases H; capacity_done.
  - unfold within_capacity in *. unfold SetCoordinates_mask in H.
    split_guard H; run_cases H; capacity_done.
  - unfold within_capacity in *. unfold SetCoordinates in H.
    split_guard H; run_cases H; capacity_done.
  - unfold within_capacity in *. unfold SetFrame in H.
    split_guard H; run_cases H; capacity_done.
  - unfold within_capacity in *. unfold SetCoordinatesByMap in H.
    split_guard H; run_cases H; capacity_done.
  - unfold within_capacity in *. unfold SetReferenceByMap in H.
    split_guard H; [capacity_done|].
    rewrite (int_wrap_id (Z.of_nat (length mapIn))) in H by (apply in_int_small; lia).
    match type of H with context [?a =? ?b] => destruct (Z.eqb_spec a b) as [En|?] end;
      cbn [negb] in H; [|capacity_done].
    apply bind_Some in H as ([[d off] roff] & E & H). injection H as <- <-.
    apply ref_loop_offset in E. subst off. pose proof (mapped_length_le mapIn).
    cbn [with_counts with_X natom_ maxnatom_]. rewrite Z.add_0_l.
    rewrite int_wrap_id by (apply in_int_small; lia). rewrite idiv3 by lia. lia.
  - unfold within_capacity in *. unfold SetTargetByMap in H.
    split_guard H; [capacity_done|].
    rewrite (int_wrap_id (Z.of_nat (length mapIn))) in H by (apply in_int_small; lia).
    match type of H with context [?a =? ?b] => destruct (Z.eqb_spec a b) as [En|?] end;
      cbn [negb] in H; [|capacity_done].
    apply bind_Some in H as ([d off] & E & H). injection H as <- <-.
    apply tgt_loop_offset in E. subst off. pose proof (mapped_length_le mapIn).
    cbn [with_counts with_X natom_ maxnatom_]. rewrite Z.add_0_l.
    rewrite int_wrap_id by (apply in_int_small; lia). rewrite idiv3 by lia. lia.
  - unfold within_capacity in *. unfold ZeroCoords in H. run_cases H; capacity_done.
  - unfold within_capacity in *. unfold operator_add_assign, elementwise in H.
    run_cases H; capacity_done.
  - unfold within_capacity in *. unfold operator_sub_assign, elementwise in H.
    run_cases H; capacity_done.
  - unfold within_capacity in *. unfold operator_mul_assign, elementwise in H.
    run_cases H; capacity_done.
  - unfold within_capacity in *. unfold Divide_frame in H. run_cases H; capacity_done.
  - unfold within_capacity in *. unfold Divide in H. run_cases H; capacity_done.
  - unfold within_capacity in *. unfold AddByMask in H. run_cases H; capacity_done.
  - unfold within_capacity in *. unfold SCALE in H. run_cases H; capacity_done.
Qed.

(** X26: the atom count never exceeds the capacity.  Every constructor
    leaves [natom_ <= maxnatom_], and every mutating call keeps it, given
    that a frame copied or assigned from satisfies it and that the counts
    involved fit an [int]. *)
Theorem capacity_bounds_atoms (SMALL : double) (indet : nat -> double)
    (k : construction) (m : mutation) (f this this' : Frame) :
  (roomy k -> construct indet k = Some f -> within_capacity f) /\
  (within_capacity this -> fits m this -> mutate SMALL indet m this = Some this' ->
   within_capacity this').
Proof.
  split.
  - apply construct_within_capacity.
  - apply mutate_within_capacity.
Qed.

Lemma capacity_bounds_atoms_witness :
  within_capacity (mkFrame 2 2 6 zero_box dzero (Buf (replicate 6 dzero)) NULL []) /\
  within_capacity (mkFrame 1 2 3 zero_box dzero (Buf (replicate 6 dzero)) NULL []).
Proof.
  split.
  - refine (proj1 (capacity_bounds_atoms SMALL_example (fun _ => dzero) (K_natom 2)
                     M_ZeroCoords _ crd_dst crd_dst) I eq_refl).
  - refine (proj2 (capacity_bounds_atoms SMALL_example (fun _ => dzero) (K_natom 2)
                     (M_SetupFrame 1) crd_dst
                     (mkFrame 2 2 6 zero_box dzero (Buf (replicate 6 dzero)) NULL []) _)
              _ I eq_refl).
    unfold within_capacity. cbn. lia.
Defined.

(** ** The moments of the coordinate-fluctuation analysis *)

Lemma take_fmap_app (f : double -> double) (n : nat) (x : list double) :
  (n <= length x)%nat -> take n ((f <$> take n x) ++ drop n x) = f <$> take n x.
Proof.
  intros Hx. rewrite take_app_length'; [reflexivity|].
  rewrite length_fmap, length_take. lia.
Qed.

Lemma zip_with_fmap2 (f g : double -> double) (op : double -> double -> double)
    (l k : list double) :
  zip_with op (f <$> l) (g <$> k) = zip_with (fun a b => op (f a) (g b)) l k.
Proof.
  revert k. induction l as [|a l IH]; intros [|b k]; cbn; try reflexivity.
  rewrite IH. reflexivity.
Qed.

Lemma zip_with_diag (op : double -> double -> double) (l : list double) :
  zip_with op l l = (fun a => op a a) <$> l.
Proof. induction l as [|a l IH]; cbn; [reflexivity|]. rewrite IH. reflexivity. Qed.

(** X27: from the sums of the coordinates and of their squares over
    [Nsets] frames, [CalcBfactors] arrives, for every coordinate, at the
    mean of the squares minus the square of the mean.  The frames
    passed in are not changed, the work being done on copies.  When
    [Nsets] is below the threshold both divisions are refused with an
    error and the subtraction is carried out on the undivided sums. *)
Theorem CalcBfactors_moments_spec (SMALL : double) (indet : nat -> double)
    (S S2 : Frame) (N : double) (x x2 : list double) :
  X_ S = Buf x -> X_ S2 = Buf x2 ->
  V_ S = NULL -> V_ S2 = NULL ->
  natom_ S = natom_ S2 ->
  coord_inv S -> coord_inv S2 ->
  0 <= natom_ S <= maxnatom_ S -> natom_ S2 <= maxnatom_ S2 ->
  3 * maxnatom_ S <= INT_MAX -> 3 * maxnatom_ S2 <= INT_MAX ->
  3 * natom_ S <= Z.of_nat (length x) -> 3 * natom_ S <= Z.of_nat (length x2) ->
  let n := Z.to_nat (3 * natom_ S) in
  exists r y,
    CalcBfactors_moments SMALL indet S S2 N
    = Some (r, if (N <? SMALL)%float
               then ["Error: Frame::Divide(divisor): Detected divide by 0.";
                     "Error: Frame::Divide(divisor): Detected divide by 0."]
               else []) /\
    X_ r = Buf y /\
    take n y = zip_with (if (N <? SMALL)%float then fluctuation_undivided
                         else fluctuation N) (take n x2) (take n x).
Proof.
  intros HX HX2 HV HV2 Hn Hi Hi2 Hcap Hcap2 Hmax Hmax2 Hx Hx2 n.
  unfold coord_inv in Hi, Hi2. unfold CalcBfactors_moments.
  destruct (Frame_copy_copies indet S Hcap Hmax) as (s & -> & Es1 & Es2 & Es3 & _ & _ & _ & Hs & _).
  { rewrite HX. cbn. lia. } { rewrite HV. exact I. }
  destruct (Frame_copy_copies indet S2 ltac:(lia) Hmax2)
    as (s2 & -> & Et1 & Et2 & Et3 & _ & _ & _ & Ht & _).
  { rewrite HX2. cbn. lia. } { rewrite HV2. exact I. }
  cbn [mbind option_bind].
  rewrite HX in Hs. rewrite HX2 in Ht. cbn [copied] in Hs, Ht.
  destruct Hs as (c & Hc & Hct & Hcl). destruct Ht as (c2 & Hc2 & Hct2 & Hcl2).
  rewrite <- Hn in Hct2. fold n in Hct, Hct2.
  assert (Hnc : Z.to_nat (ncoord_ s) = n) by lia.
  assert (Hnc2 : Z.to_nat (ncoord_ s2) = n) by lia.
  assert (Lc : (n <= length c)%nat) by lia.
  assert (Lc2 : (n <= length c2)%nat) by lia.
  destruct (N <? SMALL)%float eqn:EN.
  - rewrite (Divide_rejects SMALL s N EN). cbn [mbind option_bind].
    rewrite (Divide_rejects SMALL s2 N EN). cbn [mbind option_bind].
    unfold operator_mul_assign.
    rewrite (elementwise_combines _ _ s s c c Hc Hc eq_refl) by lia.
    cbn [mbind option_bind]. rewrite Hnc.
    set (sq := combined PrimFloat.mul n c c).
    assert (Lsq : (n <= length sq)%nat).
    { unfold sq, combined. rewrite length_app, length_zip_with, !length_take, length_drop.
      lia. }
    unfold operator_sub_assign.
    rewrite (elementwise_combines _ _ s2 (with_X s (Buf sq)) c2 sq Hc2 eq_refl)
      by (cbn [natom_ with_X]; lia).
    cbn [mbind option_bind]. rewrite Hnc2. eexists _, _. split; [reflexivity|].
    split; [reflexivity|].
    rewrite take_combined by assumption. unfold sq. rewrite take_combined by assumption.
    rewrite Hct, Hct2, zip_with_diag.
    rewrite <- (list_fmap_id (take n x2)) at 1.
    rewrite zip_with_fmap2. reflexivity.
  - rewrite (Divide_divides SMALL s N c EN Hc) by lia. cbn [mbind option_bind].
    rewrite (Divide_divides SMALL s2 N c2 EN Hc2) by lia. cbn [mbind option_bind].
    rewrite Hnc, Hnc2, Hct, Hct2.
    set (dv := fun a : double => (a / N)%float).
    set (m := (dv <$> take n x) ++ drop n c).
    set (m2 := (dv <$> take n x2) ++ drop n c2).
    assert (Lm : (n <= length m)%nat).
    { unfold m. rewrite length_app, length_fmap, length_take, length_drop. lia. }
    assert (Lm2 : (n <= length m2)%nat).
    { unfold m2. rewrite length_app, length_fmap, length_take, length_drop. lia. }
    unfold operator_mul_assign.
    rewrite (elementwise_combines _ _ (with_X s (Buf m)) (with_X s (Buf m)) m m
               eq_refl eq_refl eq_refl) by (cbn [ncoord_ with_X]; lia).
    cbn [mbind option_bind ncoord_ with_X]. rewrite Hnc.
    set (sq := combined PrimFloat.mul n m m).
    assert (Lsq : (n <= length sq)%nat).
    { unfold sq, combined. rewrite length_app, length_zip_with, !length_take, length_drop.
      lia. }
    unfold operator_sub_assign.
    rewrite (elementwise_combines _ _ (with_X s2 (Buf m2))
               (with_X (with_X s (Buf m)) (Buf sq)) m2 sq eq_refl eq_refl)
      by (cbn [natom_ ncoord_ with_X]; lia).
    cbn [mbind option_bind ncoord_ with_X]. rewrite Hnc2.
    eexists _, _. split; [reflexivity|]. split; [reflexivity|].
    rewrite take_combined by assumption. unfold sq. rewrite take_combined by assumption.
    unfold m, m2. rewrite !take_app_length' by (rewrite length_fmap, length_take; lia).
    rewrite zip_with_diag, <- list_fmap_compose, zip_with_fmap2. reflexivity.
Qed.


Lemma CalcBfactors_moments_spec_witness :
  exists r y,
    CalcBfactors_moments SMALL_example (fun _ => dzero) sum_x sum_x2 2 = Some (r, []) /\
    X_ r = Buf y /\ take 3 y = [1; 0; 1]%float.
Proof.
  destruct (CalcBfactors_moments_spec SMALL_example (fun _ => dzero) sum_x sum_x2 2 _ _
              eq_refl eq_refl eq_refl eq_refl eq_refl eq_refl eq_refl)
    as (r & y & E & Hy & Ht).
  - cbn. lia.
  - cbn. lia.
  - cbn. unfold INT_MAX. lia.
  - cbn. unfold INT_MAX. lia.
  - cbn. lia.
  - cbn. lia.
  - exists r, y. split; [exact E|]. split; [exact Hy|exact Ht].
Defined.

(** ** Atom look-ups in the topology *)

Lemma rdi_some (l : list Z) (i : Z) :
  0 <= i < Z.of_nat (length l) -> exists v, rdi l i = Some v.
Proof.
  intros H. unfold rdi. destruct (Z.leb_spec 0 i); [|lia].
  apply lookup_lt_is_Some_2. lia.
Qed.

Lemma residue_scan_finds (rs : list Z) (atom : Z) (n : nat) :
  forall k : Z,
    0 <= k -> k + Z.of_nat n < Z.of_nat (length rs) -> Z.of_nat (length rs) <= INT_MAX ->
    exists r,
      residue_scan rs atom (seqZ k (Z.of_nat n)) = Some r /\
      ((r = -1 /\ forall i, k <= i < k + Z.of_nat n -> ~ in_residue rs i atom) \/
       (k <= r < k + Z.of_nat n /\ in_residue rs r atom /\
        forall i, k <= i < r -> ~ in_residue rs i atom)).
Proof.
  induction n as [|n IH]; intros k Hk Hlen Hmax.
  - exists (-1). split; [reflexivity|]. left. split; [reflexivity|]. intros i Hi. lia.
  - rewrite seqZ_cons by lia. cbn [residue_scan].
    replace (Z.pred (Z.of_nat (S n))) with (Z.of_nat n) by lia.
    destruct (rdi_some rs k ltac:(lia)) as [lo Hlo].
    destruct (rdi_some rs (k + 1) ltac:(lia)) as [hi Hhi].
    unfold iadd. rewrite (int_wrap_id (k + 1)) by (apply in_int_small; lia).
    rewrite Hlo, Hhi. cbn [mbind option_bind].
    assert (Hrest : ~ in_residue rs k atom ->
              exists r,
                residue_scan rs atom (seqZ (Z.succ k) (Z.of_nat n)) = Some r /\
                ((r = -1 /\ forall i, k <= i < k + Z.of_nat (S n) -> ~ in_residue rs i atom) \/
                 (k <= r < k + Z.of_nat (S n) /\ in_residue rs r atom /\
                  forall i, k <= i < r -> ~ in_residue rs i atom))).
    { intros Hnot. destruct (IH (Z.succ k) ltac:(lia) ltac:(lia) Hmax) as (r & Hr & Hcase).
      exists r. split; [exact Hr|].
      destruct Hcase as [[-> Hnone]|(Hrange & Hin & Hbefore)].
      - left. split; [reflexivity|]. intros i Hi.
        destruct (decide (i = k)) as [->|?]; [exact Hnot|]. apply Hnone. lia.
      - right. split; [lia|]. split; [exact Hin|]. intros i Hi.
        destruct (decide (i = k)) as [->|?]; [exact Hnot|]. apply Hbefore. lia. }
    destruct (Z.leb_spec lo atom) as [Hle|Hgt].
    + destruct (Z.ltb_spec atom hi) as [Hlt|Hge].
      * exists k. split; [reflexivity|]. right. split; [lia|]. split.
        -- exists lo, hi. repeat split; assumption || lia.
        -- intros i Hi. lia.
      * apply Hrest. intros (lo' & hi' & E1 & E2 & Hb). simplify_eq. lia.
    + apply Hrest. intros (lo' & hi' & E1 & E2 & Hb). simplify_eq. lia.
Qed.

Lemma in_residue_unique (rs : list Z) (i j atom : Z) :
  ascending rs -> 0 <= i < j -> in_residue rs i atom -> ~ in_residue rs j atom.
Proof.
  intros Hasc Hij (lo & hi & _ & Hhi & Hb) (lo' & hi' & Hlo' & _ & Hb').
  unfold rdi in *.
  destruct (Z.leb_spec 0 (i + 1)); [|lia]. destruct (Z.leb_spec 0 j); [|lia].
  pose proof (Hasc (Z.to_nat (i + 1)) (Z.to_nat j) hi lo' ltac:(lia) Hhi Hlo'). lia.
Qed.

Lemma atomToResidue_finds (p : AmberParm) (atom : Z) :
  table_ok p ->
  exists r,
    atomToResidue p atom = Some r /\
    ((r = -1 /\ forall i, 0 <= i < nres p -> ~ in_residue (resnums p) i atom) \/
     (0 <= r < nres p /\ in_residue (resnums p) r atom /\
      forall i, 0 <= i < r -> ~ in_residue (resnums p) i atom)).
Proof.
  intros (H0 & Hlen & Hmax). unfold atomToResidue, upto.
  destruct (residue_scan_finds (resnums p) atom (Z.to_nat (nres p)) 0)
    as (r & Hr & Hcase); [lia|lia|lia|].
  rewrite Z2Nat.id in Hr, Hcase by lia. rewrite Z.add_0_l in Hcase.
  exists r. split; [exact Hr|exact Hcase].
Qed.

(** X28: [atomToResidue] returns the first residue whose atom range, from
    its entry of the residue table up to the next entry, holds the atom,
    and -1 exactly when no residue holds it. *)
Theorem atomToResidue_spec (p : AmberParm) (atom : Z) :
  table_ok p ->
  exists r,
    atomToResidue p atom = Some r /\
    ((r = -1 /\ forall i, 0 <= i < nres p -> ~ in_residue (resnums p) i atom) \/
     (0 <= r < nres p /\ in_residue (resnums p) r atom /\
      forall i, 0 <= i < r -> ~ in_residue (resnums p) i atom)).
Proof.
  intros (H0 & Hlen & Hmax). unfold atomToResidue, upto.
  destruct (residue_scan_finds (resnums p) atom (Z.to_nat (nres p)) 0)
    as (r & Hr & Hcase); [lia|lia|lia|].
  rewrite Z2Nat.id in Hr, Hcase by lia. rewrite Z.add_0_l in Hcase.
  exists r. split; [exact Hr|exact Hcase].
Qed.

Lemma atomToResidue_spec_witness :
  exists r,
    atomToResidue small_parm 4 = Some r /\
    ((r = -1 /\ forall i, 0 <= i < 3 -> ~ in_residue [0; 2; 5; 6] i 4) \/
     (0 <= r < 3 /\ in_residue [0; 2; 5; 6] r 4 /\
      forall i, 0 <= i < r -> ~ in_residue [0; 2; 5; 6] i 4)).
Proof.
  refine (atomToResidue_spec small_parm 4 _).
  unfold table_ok, INT_MAX. cbn. lia.
Defined.


Lemma name_scan_found (ns : list string) (atname : string) (ats : list Z) (a : Z) :
  name_scan ns atname ats = Some a -> a <> -1 ->
  a ∈ ats /\ ns !! Z.to_nat a = Some atname.
Proof.
  induction ats as [|b ats IH]; cbn [name_scan]; intros H Hne.
  - congruence.
  - apply bind_Some in H as (n & En & H).
    destruct (String.eqb_spec n atname) as [->|Hnn].
    + injection H as <-. split; [apply elem_of_cons; left; reflexivity|].
      unfold name_at in En. destruct (0 <=? b); [exact En|discriminate].
    + destruct (IH H Hne) as [Hin Hname]. split; [|exact Hname].
      apply elem_of_cons. right. exact Hin.
Qed.

Lemma FindAtomInResidue_in_residue (p : AmberParm) (res a : Z) (atname : string) :
  table_ok p ->
  FindAtomInResidue p res atname = Some a -> a <> -1 ->
  0 <= res < nres p /\ in_residue (resnums p) res a /\
  names p !! Z.to_nat a = Some atname.
Proof.
  intros (H0 & Hlen & Hmax) H Hne. unfold FindAtomInResidue in H.
  destruct (Z.ltb_spec res 0); cbn [orb] in H; [congruence|].
  destruct (Z.leb_spec (nres p) res); [congruence|].
  apply bind_Some in H as (lo & Elo & H). apply bind_Some in H as (hi & Ehi & H).
  unfold iadd in Ehi. rewrite int_wrap_id in Ehi by (apply in_int_small; lia).
  destruct (name_scan_found _ _ _ _ H Hne) as [Hin Hname].
  apply elem_of_seqZ in Hin.
  split; [lia|]. split; [|exact Hname]. exists lo, hi. repeat split; assumption || lia.
Qed.

(** X29: an atom number that [FindAtomInResidue] returns lies in the atom
    range of the residue asked for and carries the name asked for; and
    when the residue table does not decrease, [atomToResidue] maps that
    atom back to the residue. *)
Theorem FindAtomInResidue_spec (p : AmberParm) (res a : Z) (atname : string) :
  table_ok p -> ascending (resnums p) ->
  FindAtomInResidue p res atname = Some a -> a <> -1 ->
  0 <= res < nres p /\ in_residue (resnums p) res a /\
  names p !! Z.to_nat a = Some atname /\
  atomToResidue p a = Some res.
Proof.
  intros Hok Hasc H Hne.
  destruct (FindAtomInResidue_in_residue p res a atname Hok H Hne) as (Hres & Hin & Hname).
  split; [exact Hres|]. split; [exact Hin|]. split; [exact Hname|].
  destruct (atomToResidue_finds p a Hok) as (r & Hr & [[-> Hnone]|(Hrange & Hrin & Hfirst)]).
  - exfalso. exact (Hnone res Hres Hin).
  - rewrite Hr. f_equal.
    destruct (Z.lt_trichotomy r res) as [Hlt|[E|Hgt]]; [|exact E|].
    + exfalso. exact (in_residue_unique _ r res a Hasc ltac:(lia) Hrin Hin).
    + exfalso. exact (Hfirst res ltac:(lia) Hin).
Qed.

Lemma FindAtomInResidue_spec_witness :
  FindAtomInResidue small_parm 1 "CA" = Some 3 /\
  (0 <= 1 < 3 /\ in_residue [0; 2; 5; 6] 1 3 /\
   ["N"; "CA"; "N"; "CA"; "C"; "O"] !! 3%nat = Some "CA" /\
   atomToResidue small_parm 3 = Some 1).
Proof.
  split; [reflexivity|].
  refine (FindAtomInResidue_spec small_parm 1 3 "CA" _ _ eq_refl _).
  - unfold table_ok, INT_MAX. cbn. lia.
  - intros i j x y Hij Hi Hj.
    do 4 (destruct i as [|i]; [do 4 (destruct j as [|j]; [cbn in *; simplify_eq; lia|]);
                                 discriminate|]).
    discriminate.
  - lia.
Defined.


Lemma foldr_add_snoc (l : list Z) (x : Z) :
  foldr Z.add 0 (l ++ [x]) = foldr Z.add 0 l + x.
Proof. induction l as [|y l IH]; cbn; [lia|]. rewrite IH. lia. Qed.

Lemma atoms_before_succ (apm : list Z) (i n : Z) :
  0 <= i -> rdi apm i = Some n -> atoms_before apm (i + 1) = atoms_before apm i + n.
Proof.
  intros Hi Hn. unfold rdi in Hn. destruct (Z.leb_spec 0 i); [|lia].
  unfold atoms_before. replace (Z.to_nat (i + 1)) with (S (Z.to_nat i)) by lia.
  rewrite (take_S_r _ _ _ Hn). apply foldr_add_snoc.
Qed.

Lemma atoms_before_mono (apm : list Z) (i j : Z) :
  Forall (fun n => 0 <= n) apm -> 0 <= i <= j -> atoms_before apm i <= atoms_before apm j.
Proof.
  intros Hpos [Hi Hij]. unfold atoms_before.
  assert (G : forall (l : list Z) (a b : nat),
             Forall (fun n => 0 <= n) l -> (a <= b)%nat ->
             foldr Z.add 0 (take a l) <= foldr Z.add 0 (take b l)).
  { clear. induction l as [|x l IH]; intros a b Hl Hab.
    - rewrite !take_nil. reflexivity.
    - apply Forall_cons in Hl as [Hx Hl]. destruct a as [|a].
      + cbn [take foldr]. clear IH Hab. revert b.
        assert (P : forall (m : list Z), Forall (fun n => 0 <= n) m -> 0 <= foldr Z.add 0 m).
        { induction 1 as [|y m Hy _ IHm]; cbn; lia. }
        intros b. apply P. apply Forall_take. constructor; assumption.
      + destruct b as [|b]; [lia|]. cbn [take foldr].
        specialize (IH a b Hl ltac:(lia)). lia. }
  apply G; [exact Hpos|lia].
Qed.

Lemma molecule_scan_finds (apm : list Z) (atom : Z) (n : nat) :
  Forall (fun m => 0 <= m) apm ->
  atoms_before apm (Z.of_nat (length apm)) <= INT_MAX ->
  forall k : Z,
    0 <= k -> k + Z.of_nat n = Z.of_nat (length apm) ->
    atoms_before apm k <= atom ->
    exists r,
      molecule_scan apm atom (atoms_before apm k) (seqZ k (Z.of_nat n)) = Some r /\
      ((r = -1 /\ atoms_before apm (Z.of_nat (length apm)) <= atom) \/
       (k <= r < k + Z.of_nat n /\
        atoms_before apm r <= atom < atoms_before apm (r + 1))).
Proof.
  intros Hpos Hmax. induction n as [|n IH]; intros k Hk Hlen Hlow.
  - exists (-1). split; [reflexivity|]. left. split; [reflexivity|].
    replace (Z.of_nat (length apm)) with k by lia. exact Hlow.
  - rewrite seqZ_cons by lia. cbn [molecule_scan].
    replace (Z.pred (Z.of_nat (S n))) with (Z.of_nat n) by lia.
    destruct (rdi_some apm k ltac:(lia)) as [m Hm]. rewrite Hm. cbn [mbind option_bind].
    pose proof (atoms_before_succ apm k m Hk Hm) as Hs.
    pose proof (atoms_before_mono apm 0 k Hpos ltac:(lia)) as H0.
    pose proof (atoms_before_mono apm (k + 1) (Z.of_nat (length apm)) Hpos ltac:(lia)) as H1.
    pose proof (atoms_before_mono apm k (k + 1) Hpos ltac:(lia)) as H2.
    change (atoms_before apm 0) with 0 in H0.
    unfold iadd. rewrite int_wrap_id by (apply in_int_small; lia).
    rewrite <- Hs.
    destruct (Z.ltb_spec atom (atoms_before apm (k + 1))) as [Hlt|Hge].
    + exists k. split; [reflexivity|]. right. split; lia.
    + destruct (IH (k + 1) ltac:(lia) ltac:(lia) Hge) as (r & Hr & Hcase).
      exists r. split; [exact Hr|].
      destruct Hcase as [Hnone|(Hrange & Hb)]; [left; exact Hnone|right].
      split; [lia|exact Hb].
Qed.

(** X30: for molecules of non-negative sizes whose total fits an [int],
    [atomToMolecule] returns for an atom number from 0 on the molecule
    whose atoms include it, counting the atoms of the molecules in order,
    and -1 exactly when the atom number is not below the total. *)
Theorem atomToMolecule_spec (p : AmberParm) (atom : Z) :
  Forall (fun n => 0 <= n) (atomsPerMol p) ->
  Z.of_nat (length (atomsPerMol p)) = molecules p ->
  atoms_before (atomsPerMol p) (molecules p) <= INT_MAX ->
  0 <= atom ->
  exists r,
    atomToMolecule p atom = Some r /\
    ((r = -1 /\ atoms_before (atomsPerMol p) (molecules p) <= atom) \/
     (0 <= r < molecules p /\
      atoms_before (atomsPerMol p) r <= atom < atoms_before (atomsPerMol p) (r + 1))).
Proof.
  intros Hpos Hlen Hmax Hatom. unfold atomToMolecule, upto. rewrite <- Hlen in *.
  destruct (molecule_scan_finds (atomsPerMol p) atom (length (atomsPerMol p)) Hpos Hmax 0)
    as (r & Hr & Hcase); [lia|lia|exact Hatom|].
  change (atoms_before (atomsPerMol p) 0) with 0 in Hr. rewrite Z.add_0_l in Hcase.
  exists r. split; [exact Hr|exact Hcase].
Qed.

Lemma atomToMolecule_spec_witness :
  exists r,
    atomToMolecule small_parm 5 = Some r /\
    ((r = -1 /\ atoms_before [5; 1] 2 <= 5) \/
     (0 <= r < 2 /\ atoms_before [5; 1] r <= 5 < atoms_before [5; 1] (r + 1))).
Proof.
  refine (atomToMolecule_spec small_parm 5 _ _ _ _).
  - repeat (constructor; [cbn; lia|]). constructor.
  - reflexivity.
  - vm_compute. discriminate.
  - lia.
Defined.
